(** * Juber dispatch platform: a shallow embedding of the matching core

    The definitions follow the layout of the repository:

    - [config]           src/config.js (the documented defaults)
    - [Math]             the JavaScript [Math] functions the services use
    - [Surge]            [computeSurgeMultiplier] of
                         src/services/surge-pricing.service.js
    - [Geo]              src/utils/geo.utils.js
    - [DriverLocation]   src/services/driver-location.service.js
    - [SurgeService]     the stateful part of the surge pricing service
    - [Dispatch]         src/services/dispatch.service.js
    - [Http], [Idempotency], [RideController]
                         src/middleware/error-handler.js,
                         src/middleware/idempotency.js,
                         src/controllers/ride.controller.js and
                         src/routes/ride.routes.js
    - [SurgeF64]         [computeSurgeMultiplier] over binary64 numbers
    - [DriverQueries], [SurgeZones], [RideQueries]
                         the read operations of the three services
    - [RideRoutes]       the other handlers of the ride controller
    - [Trip]             src/services/trip.service.js
    - [RateLimiter]      src/middleware/rate-limiter.js

    JavaScript numbers are modelled by exact rationals ([Q]); the surge
    multiplier is given a second time over binary64 floats and the two models
    are compared on a grid of counts.  Redis is a record with one field per
    key pattern, PostgreSQL a finite map ([ride_requests], keyed by id) and a
    row list ([driver_offers]); a service method is a function in the
    state-and-exception monad [M] over the [World].  One request is handled at
    a time: the interleaving of concurrent handlers is not modelled.

    The second half states and proves the properties: the surge multiplier,
    the proximity query, the closed forms of the dispatch operations, the
    integrity of the relational store along every run of the API, the
    behaviour of cancellation, timeouts and idempotent intake, fares,
    driver presence and eligibility, the surge cache, the invariants that
    tie the stores together, the trip state machine and the rate limiter. *)

From Stdlib Require Import ZArith QArith Qround Qminmax Qabs Floats Lia Lqa.
From stdpp Require Import gmap strings pretty list sorting.

#[local] Open Scope Z_scope.

(** ** Configuration (src/config.js)

    Every entry is [parse(process.env.X) || default]; the constants below are
    the defaults that apply when the environment does not override them. *)
Module config.
Definition DRIVER_PRESENCE_TTL : Z := 30.            (* seconds *)
Definition DEFAULT_SEARCH_RADIUS_KM : Q := 5.
Definition DRIVER_RESPONSE_TIMEOUT : Z := 15000.     (* ms *)
Definition MAX_MATCH_ATTEMPTS : Z := 5.
Definition SURGE_CACHE_TTL : Z := 60.                (* seconds *)
Definition SURGE_MIN : Q := 1.
Definition SURGE_MAX : Q := 3.
Definition DEMAND_COUNTER_TTL : Z := 300.            (* seconds *)
Definition FARE_BASE : Q := 50.
Definition FARE_PER_KM : Q := 12.
Definition FARE_PER_MINUTE : Q := 2.
Definition IDEMPOTENCY_TTL : Z := 86400.             (* seconds *)
End config.

(** ** JavaScript [Math] helpers over exact rationals *)
Module Math.
#[local] Open Scope Q_scope.

(** [Math.round x]: the integer nearest to [x], ties towards +infinity. *)
Definition round (x : Q) : Q := inject_Z (Qfloor (x + (1 # 2))).

(** [Math.ceil x]. *)
Definition ceil (x : Q) : Q := inject_Z (Qceiling x).

Definition max (a b : Q) : Q := Qmax a b.
Definition min (a b : Q) : Q := Qmin a b.
End Math.

(** ** Surge pricing (src/services/surge-pricing.service.js) *)
Module Surge.
#[local] Open Scope Q_scope.

(** [computeSurgeMultiplier(supply, demand)], lines 91-112. *)
Definition computeSurgeMultiplier (supply demand : Q) : Q :=
  if Qeq_bool supply 0 && Qeq_bool demand 0 then config.SURGE_MIN
  else if Qeq_bool supply 0 then config.SURGE_MAX
  else
    let ratio := demand / supply in
    let smoothingFactor := 5 # 10 in
    let surge := 1 + (ratio - 1) * smoothingFactor in
    let surge := Math.max config.SURGE_MIN surge in
    let surge := Math.min config.SURGE_MAX surge in
    Math.round (surge * 10) / 10.

(** The multiplier formula in the words of the specification:
    clamp to [[lo, hi]], then round to one decimal. *)
Definition clamp (x lo hi : Q) : Q :=
  if Qlt_le_dec x lo then lo else if Qlt_le_dec hi x then hi else x.

Definition round_to_one_decimal (x : Q) : Q :=
  inject_Z (Qfloor (x * 10 + (1 # 2))) / 10.

Definition surge_formula (supply demand : Q) : Q :=
  round_to_one_decimal (clamp (1 + (demand / supply - 1) * (1 # 2)) 1 3).
End Surge.

(** ** Identifiers and enumerations

    Ride, offer, driver and rider ids are UUID columns; they are drawn from
    one abstract id space. *)
Definition uuid := nat.

Inductive Tier := ECONOMY | PREMIUM | XL.
Inductive PaymentMethod := CARD | WALLET | CASH.
Inductive DriverStatus := ONLINE | OFFLINE | ON_TRIP.
Inductive Action := ACCEPT | DECLINE.

(** [ride_requests.status] (VARCHAR): the vocabulary of the design documents;
    the services write MATCHING, NO_DRIVERS, ACCEPTED, EXPIRED and CANCELLED. *)
Module RideStatus.
Inductive t :=
  PENDING | MATCHING | DRIVER_OFFERED | ACCEPTED | DECLINED
| NO_DRIVERS | FAILED | EXPIRED | CANCELLED.

(** The terminal set named by the specification. *)
Definition terminal (s : t) : bool :=
  match s with
  | ACCEPTED | NO_DRIVERS | FAILED | EXPIRED | CANCELLED => true
  | PENDING | MATCHING | DRIVER_OFFERED | DECLINED => false
  end.
End RideStatus.

(** [driver_offers.status]. *)
Module OfferStatus.
Inductive t := PENDING | ACCEPTED | DECLINED | EXPIRED.
End OfferStatus.

#[global] Instance Tier_eq_dec : EqDecision Tier.
Proof. solve_decision. Defined.
#[global] Instance PaymentMethod_eq_dec : EqDecision PaymentMethod.
Proof. solve_decision. Defined.
#[global] Instance DriverStatus_eq_dec : EqDecision DriverStatus.
Proof. solve_decision. Defined.
#[global] Instance Action_eq_dec : EqDecision Action.
Proof. solve_decision. Defined.
#[global] Instance RideStatus_eq_dec : EqDecision RideStatus.t.
Proof. solve_decision. Defined.
#[global] Instance OfferStatus_eq_dec : EqDecision OfferStatus.t.
Proof. solve_decision. Defined.

(** Comparison of rationals is decidable; used by sorting and by guards. *)
#[global] Instance Qle_dec : RelDecision Qle :=
  λ x y, decide (Qnum x * QDen y ≤ Qnum y * QDen x)%Z.
#[global] Instance Qlt_dec : RelDecision Qlt :=
  λ x y, decide (Qnum x * QDen y < Qnum y * QDen x)%Z.

(** ** Geo primitives (src/utils/geo.utils.js) *)
Record Coord := { lat : Q; lng : Q }.

(** The trigonometric distance functions cannot be computed over [Q]; they
    are kept abstract: [calculateDistance] is the haversine of geo.utils.js,
    [geoDistKm] the distance Redis reports for GEORADIUS ... WITHDIST. *)
Class Geodesy := {
  calculateDistance : Q → Q → Q → Q → Q;
  geoDistKm : Coord → Coord → Q;
}.

Module Geo.
#[local] Open Scope Q_scope.

(** [latLngToGeoCell(lat, lng, resolution = 8)]. *)
Definition latLngToGeoCell (lat lng : Q) : string :=
  let latGrid := Qfloor (lat * 1000) in
  let lngGrid := Qfloor (lng * 1000) in
  "h3_8" +:+ pretty latGrid +:+ pretty lngGrid +:+ "ffffff".

(** [getRegionFromCoordinates(lat, lng)]. *)
Definition getRegionFromCoordinates (lat lng : Q) : string :=
  if bool_decide (127 # 10 <= lat) && bool_decide (lat <= 132 # 10)
     && bool_decide (774 # 10 <= lng) && bool_decide (lng <= 778 # 10)
  then "bangalore"
  else if bool_decide (188 # 10 <= lat) && bool_decide (lat <= 193 # 10)
     && bool_decide (727 # 10 <= lng) && bool_decide (lng <= 73)
  then "mumbai"
  else if bool_decide (284 # 10 <= lat) && bool_decide (lat <= 289 # 10)
     && bool_decide (768 # 10 <= lng) && bool_decide (lng <= 774 # 10)
  then "delhi"
  else "bangalore".
End Geo.

(** ** PostgreSQL rows (scripts/init-db.sql) *)
Record RideRow := {
  id : uuid;
  rider_id : uuid;
  driver_id : option uuid;
  pickup_lat : Q;
  pickup_lng : Q;
  destination_lat : Q;
  destination_lng : Q;
  tier : Tier;
  payment_method : PaymentMethod;
  status : RideStatus.t;
  surge_multiplier : Q;
  estimated_fare : Q;
  idempotency_key : string;
  match_attempts : Z;
  current_driver_offer_id : option uuid;
  expires_at : Z;
}.

Record OfferRow := {
  offer_id : uuid;
  ride_request_id : uuid;
  offer_driver_id : uuid;
  offer_status : OfferStatus.t;
  responded_at : option Z;
  decline_reason : option string;
  offer_expires_at : Z;
}.

Record Postgres := {
  ride_requests : gmap uuid RideRow;   (* primary key [id] *)
  driver_offers : list OfferRow;       (* in insertion order *)
}.

(** ** Redis values *)

(** A member of the geo set [drivers:locations:{region}]. *)
Record GeoMember := { member : uuid; position : Coord }.

(** The hash [driver:{id}:meta], with the fields the services read back; an
    absent field reads as [undefined].  (lastLat, lastLng, lastUpdate and
    geoCell are written by [updateLocation] and only returned verbatim by
    [getDriverLocation].) *)
Record DriverMeta := {
  meta_status : option DriverStatus;
  meta_vehicleType : option Tier;
  meta_heading : option Q;
  meta_speed : option Q;
}.

(** The JSON value stored under [ride:{rideId}:offer]. *)
Record OfferEntry := {
  entry_offerId : uuid;
  entry_driverId : uuid;
  entry_expiresAt : Z;
}.

(** The hash [surge:{geoCell}]. *)
Record SurgeHash := {
  hash_multiplier : Q;
  hash_supply : Z;
  hash_demand : Z;
  hash_region : string;
  hash_updatedAt : Z;
}.

(** ** Service results and HTTP bodies *)

(** [matchDriver]'s [driver] summary. *)
Record MatchedDriver := {
  md_driverId : uuid;
  md_distanceKm : Q;
  md_eta : Q;
}.

Record MatchResult := { driver : option MatchedDriver; matched : bool }.

(** The object returned by [createRideRequest]. *)
Record RideResult := {
  r_id : uuid;
  r_status : RideStatus.t;
  r_riderId : uuid;
  r_pickup : Coord;
  r_destination : Coord;
  r_tier : Tier;
  r_surgeMultiplier : Q;
  r_estimatedFare : Q;
  r_matchedDriver : option MatchedDriver;
  r_matchAttempts : Z;
}.

(** JSON bodies written by the POST /api/v1/rides pipeline. *)
Inductive Json :=
| JRide (r : RideResult)
| JError (error : string) (detail : string).

Record Response := {
  statusCode : Z;
  body : Json;
  replayed : bool;          (* header X-Idempotency-Replayed *)
}.

(** The JSON value stored under [idempotency:{key}]. *)
Record CacheEntry := {
  cached_statusCode : Z;
  cached_body : Json;
  cached_requestHash : string;
  cachedAt : Z;
}.

(** ** Redis: one field per key pattern

    Keys that are written with EX carry their expiry instant (ms); a key is
    visible while the clock is strictly before it. *)
Record Redis := {
  geo : gmap string (list GeoMember);          (* drivers:locations:{region} *)
  presence : gmap uuid Z;                       (* driver:{id}:presence *)
  meta : gmap uuid DriverMeta;                  (* driver:{id}:meta *)
  ride_offer : gmap uuid (OfferEntry * Z);      (* ride:{rideId}:offer *)
  demand : gmap string (Z * option Z);          (* demand:{geoCell} *)
  surge : gmap string (SurgeHash * Z);          (* surge:{geoCell} *)
  surge_cells : gmap string (gset string);      (* surge:cells:{region} *)
  ride_lock : gmap uuid Z;                      (* lock:ride:{rideId}, named by
                                                   docs/LLD-Dispatch.md 9.2 *)
  idempotency : gmap string (CacheEntry * Z);   (* idempotency:{key} *)
}.

(** ** Events published to Kafka (src/events/topics.js) *)
Inductive Event :=
| RIDE_REQUESTED (rideId riderId : uuid) (region : string)
| RIDE_MATCHED (rideId driverId offerId : uuid) (distance : Q)
| RIDE_ACCEPTED (rideId driverId : uuid)
| RIDE_DECLINED (rideId driverId : uuid) (reason : option string)
| DRIVER_LOCATION_UPDATED (driverId : uuid) (geoCell region : string)
| DRIVER_STATUS_CHANGED (driverId : uuid) (status : DriverStatus)
| SURGE_UPDATED (geoCell region : string) (multiplier : Q) (supply demand : Z).

(** ** The world: stores, event log, wall clock (ms) and the uuid source *)
Record World := {
  pg : Postgres;
  redis : Redis;
  kafka : list Event;
  clock : Z;
  next_uuid : uuid;
}.

(** ** Exceptions and the state-and-exception monad

    A thrown exception keeps every store write made before it: the services
    do not open transactions. *)
Inductive Error :=
| ZodError (issues : string)        (* schema.parse failed *)
| DbError (code : string)           (* pg error carrying an SQLSTATE *)
| RedisError (message : string)
| JsError (message : string).       (* new Error(message) *)

Inductive result (A : Type) :=
| Ok (a : A)
| Err (e : Error).
Arguments Ok {A} a.
Arguments Err {A} e.

Definition M (A : Type) : Type := World → result A * World.

#[global] Instance M_ret : MRet M := λ A a w, (Ok a, w).
#[global] Instance M_bind : MBind M := λ A B f m w,
  match m w with
  | (Ok a, w') => f a w'
  | (Err e, w') => (Err e, w')
  end.

Definition throw {A} (e : Error) : M A := λ w, (Err e, w).
Definition gets {A} (f : World → A) : M A := λ w, (Ok (f w), w).
Definition modify (f : World → World) : M unit := λ w, (Ok tt, f w).

(** Field updates. *)
Definition upd_pg (f : Postgres → Postgres) (w : World) : World :=
  {| pg := f (pg w); redis := redis w; kafka := kafka w;
     clock := clock w; next_uuid := next_uuid w |}.
Definition upd_redis (f : Redis → Redis) (w : World) : World :=
  {| pg := pg w; redis := f (redis w); kafka := kafka w;
     clock := clock w; next_uuid := next_uuid w |}.
Definition upd_kafka (f : list Event → list Event) (w : World) : World :=
  {| pg := pg w; redis := redis w; kafka := f (kafka w);
     clock := clock w; next_uuid := next_uuid w |}.
Definition upd_clock (f : Z → Z) (w : World) : World :=
  {| pg := pg w; redis := redis w; kafka := kafka w;
     clock := f (clock w); next_uuid := next_uuid w |}.
Definition upd_next_uuid (f : uuid → uuid) (w : World) : World :=
  {| pg := pg w; redis := redis w; kafka := kafka w;
     clock := clock w; next_uuid := f (next_uuid w) |}.

Definition upd_ride_requests (f : gmap uuid RideRow → gmap uuid RideRow)
    (p : Postgres) : Postgres :=
  {| ride_requests := f (ride_requests p); driver_offers := driver_offers p |}.
Definition upd_driver_offers (f : list OfferRow → list OfferRow)
    (p : Postgres) : Postgres :=
  {| ride_requests := ride_requests p; driver_offers := f (driver_offers p) |}.

Definition upd_geo f (r : Redis) : Redis :=
  {| geo := f (geo r); presence := presence r; meta := meta r;
     ride_offer := ride_offer r; demand := demand r; surge := surge r;
     surge_cells := surge_cells r; ride_lock := ride_lock r;
     idempotency := idempotency r |}.
Definition upd_presence f (r : Redis) : Redis :=
  {| geo := geo r; presence := f (presence r); meta := meta r;
     ride_offer := ride_offer r; demand := demand r; surge := surge r;
     surge_cells := surge_cells r; ride_lock := ride_lock r;
     idempotency := idempotency r |}.
Definition upd_meta f (r : Redis) : Redis :=
  {| geo := geo r; presence := presence r; meta := f (meta r);
     ride_offer := ride_offer r; demand := demand r; surge := surge r;
     surge_cells := surge_cells r; ride_lock := ride_lock r;
     idempotency := idempotency r |}.
Definition upd_ride_offer f (r : Redis) : Redis :=
  {| geo := geo r; presence := presence r; meta := meta r;
     ride_offer := f (ride_offer r); demand := demand r; surge := surge r;
     surge_cells := surge_cells r; ride_lock := ride_lock r;
     idempotency := idempotency r |}.
Definition upd_demand f (r : Redis) : Redis :=
  {| geo := geo r; presence := presence r; meta := meta r;
     ride_offer := ride_offer r; demand := f (demand r); surge := surge r;
     surge_cells := surge_cells r; ride_lock := ride_lock r;
     idempotency := idempotency r |}.
Definition upd_surge f (r : Redis) : Redis :=
  {| geo := geo r; presence := presence r; meta := meta r;
     ride_offer := ride_offer r; demand := demand r; surge := f (surge r);
     surge_cells := surge_cells r; ride_lock := ride_lock r;
     idempotency := idempotency r |}.
Definition upd_surge_cells f (r : Redis) : Redis :=
  {| geo := geo r; presence := presence r; meta := meta r;
     ride_offer := ride_offer r; demand := demand r; surge := surge r;
     surge_cells := f (surge_cells r); ride_lock := ride_lock r;
     idempotency := idempotency r |}.
Definition upd_idempotency f (r : Redis) : Redis :=
  {| geo := geo r; presence := presence r; meta := meta r;
     ride_offer := ride_offer r; demand := demand r; surge := surge r;
     surge_cells := surge_cells r; ride_lock := ride_lock r;
     idempotency := f (idempotency r) |}.

(** [uuidv4()]: a fresh draw from the id source. *)
Definition uuidv4 : M uuid :=
  λ w, (Ok (next_uuid w), upd_next_uuid S w).

(** [Date.now()]. *)
Definition Date_now : M Z := gets clock.

(** [publishEvent(topic, key, payload)] (src/events/kafka-producer.js). *)
Definition publishEvent (e : Event) : M unit :=
  modify (upd_kafka (λ log, log ++ [e])).

(** ** Driver presence and proximity (src/services/driver-location.service.js) *)
Module DriverLocation.
#[local] Open Scope Q_scope.

(** One row of a GEORADIUS ... WITHDIST WITHCOORD reply. *)
Record GeoResult := { g_member : uuid; g_distance : Q; g_coord : Coord }.

Record NearbyQuery := {
  q_latitude : Q;
  q_longitude : Q;
  q_radiusKm : Q;
  q_region : string;
  q_vehicleType : option Tier;     (* [undefined] when no filter is given *)
  q_limit : Z;
}.

Record NearbyDriver := {
  driverId : uuid;
  distanceKm : Q;
  latitude : Q;
  longitude : Q;
  vehicleType : Tier;
  d_status : DriverStatus;
  heading : Q;
  speed : Q;
}.

Record NearbyResult := { drivers : list NearbyDriver; count : Z }.

Definition by_distance (a b : GeoResult) : Prop := g_distance a <= g_distance b.

#[global] Instance by_distance_dec : RelDecision by_distance :=
  λ a b, decide (g_distance a <= g_distance b).

Section WithGeodesy.
Context `{Geodesy}.

(** GEORADIUS key lng lat radius km: the members within the radius. *)
Definition georadius (r : Redis) (geoKey : string) (center : Coord)
    (radiusKm : Q) : list GeoResult :=
  filter (λ g, g_distance g <= radiusKm)
    ((λ m, {| g_member := member m;
              g_distance := geoDistKm center (position m);
              g_coord := position m |}) <$> default [] (geo r !! geoKey)).

(** GEORADIUS ... ASC COUNT n: the [n] nearest; Redis rejects [n <= 0]. *)
Definition georadius_asc_count (r : Redis) (geoKey : string) (center : Coord)
    (radiusKm : Q) (n : Z) : result (list GeoResult) :=
  if bool_decide (n ≤ 0)%Z then Err (RedisError "ERR COUNT must be > 0")
  else Ok (take (Z.to_nat n)
             (merge_sort by_distance (georadius r geoKey center radiusKm))).
End WithGeodesy.

(** EXISTS driver:{id}:presence. *)
Definition presence_exists (r : Redis) (now : Z) (driverId : uuid) : bool :=
  match presence r !! driverId with
  | Some expiry => bool_decide (now < expiry)%Z
  | None => false
  end.

(** HGETALL driver:{id}:meta; a missing key reads as the empty object. *)
Definition hgetall_meta (r : Redis) (driverId : uuid) : DriverMeta :=
  default {| meta_status := None; meta_vehicleType := None;
             meta_heading := None; meta_speed := None |}
          (meta r !! driverId).

(** The [for ... of results] loop of [findNearbyDrivers], lines 75-100. *)
Fixpoint collect (r : Redis) (now : Z) (vehicleType : option Tier) (limit : Z)
    (results : list GeoResult) (drivers : list NearbyDriver)
    : list NearbyDriver :=
  match results with
  | [] => drivers
  | g :: rest =>
      if negb (presence_exists r now (g_member g))
      then collect r now vehicleType limit rest drivers
      else
        let meta := hgetall_meta r (g_member g) in
        match meta_status meta with
        | None => collect r now vehicleType limit rest drivers
        | Some status =>
            if bool_decide (status ≠ ONLINE)
            then collect r now vehicleType limit rest drivers
            else
              let driverVehicleType := default ECONOMY (meta_vehicleType meta) in
              if match vehicleType with
                 | Some t => bool_decide (driverVehicleType ≠ t)
                 | None => false
                 end
              then collect r now vehicleType limit rest drivers
              else
                let drivers :=
                  drivers ++
                  [{| driverId := g_member g;
                      distanceKm := g_distance g;
                      latitude := lat (g_coord g);
                      longitude := lng (g_coord g);
                      vehicleType := default ECONOMY (meta_vehicleType meta);
                      d_status := status;
                      heading := default 0 (meta_heading meta);
                      speed := default 0 (meta_speed meta) |}] in
                if bool_decide (limit ≤ Z.of_nat (length drivers))%Z
                then drivers
                else collect r now vehicleType limit rest drivers
        end
  end.

Section WithGeodesy.
Context `{Geodesy}.

(** [findNearbyDrivers({latitude, longitude, radiusKm, region,
    vehicleType, limit})], lines 56-103. *)
Definition findNearbyDrivers (q : NearbyQuery) : M NearbyResult := λ w,
  let geoKey := "drivers:locations:" +:+ q_region q in
  match georadius_asc_count (redis w) geoKey
          {| lat := q_latitude q; lng := q_longitude q |}
          (q_radiusKm q) (q_limit q * 2) with
  | Err e => (Err e, w)
  | Ok results =>
      let drivers :=
        collect (redis w) (clock w) (q_vehicleType q) (q_limit q) results [] in
      (Ok {| drivers := drivers; count := Z.of_nat (length drivers) |}, w)
  end.
End WithGeodesy.

(** GEOADD: a member is stored once; re-adding moves it. *)
Definition geoadd (members : list GeoMember) (driverId : uuid) (p : Coord)
    : list GeoMember :=
  {| member := driverId; position := p |}
    :: filter (λ m, member m ≠ driverId) members.

(** [updateLocation(driverId, {latitude, longitude, heading, speed})],
    lines 16-50. *)
Definition updateLocation (driverId : uuid) (latitude longitude : Q)
    (heading speed : option Q) : M (string * string) :=
  let region := Geo.getRegionFromCoordinates latitude longitude in
  let geoCell := Geo.latLngToGeoCell latitude longitude in
  let geoKey := "drivers:locations:" +:+ region in
  now ← Date_now;
  modify (upd_redis (upd_geo (λ g,
    <[geoKey := geoadd (default [] (g !! geoKey)) driverId
                  {| lat := latitude; lng := longitude |}]> g)));;
  modify (upd_redis (upd_presence
    <[driverId := (now + config.DRIVER_PRESENCE_TTL * 1000)%Z]>));;
  modify (upd_redis (λ r, upd_meta
    <[driverId := {| meta_status := meta_status (hgetall_meta r driverId);
                     meta_vehicleType := meta_vehicleType (hgetall_meta r driverId);
                     meta_heading := Some (default 0 heading);
                     meta_speed := Some (default 0 speed) |}]> r));;
  publishEvent (DRIVER_LOCATION_UPDATED driverId geoCell region);;
  mret (geoCell, region).

(** [updateDriverStatus(driverId, status)], lines 108-119. *)
Definition updateDriverStatus (driverId : uuid) (status : DriverStatus)
    : M (uuid * DriverStatus) :=
  modify (upd_redis (λ r, upd_meta
    <[driverId := {| meta_status := Some status;
                     meta_vehicleType := meta_vehicleType (hgetall_meta r driverId);
                     meta_heading := meta_heading (hgetall_meta r driverId);
                     meta_speed := meta_speed (hgetall_meta r driverId) |}]> r));;
  publishEvent (DRIVER_STATUS_CHANGED driverId status);;
  mret (driverId, status).
End DriverLocation.

(** ** Surge pricing service, stateful part *)
Module SurgeService.
#[local] Open Scope Q_scope.

Record SurgeData := {
  geoCell : string;
  surgeMultiplier : Q;
  supplyCount : Z;
  demandCount : Z;
}.

(** [getSurgeForCell(geoCell)], lines 15-36. *)
Definition getSurgeForCell (geoCell : string) : M SurgeData :=
  now ← Date_now;
  cached ← gets (λ w, surge (redis w) !! geoCell);
  match cached with
  | Some (h, expiry) =>
      if bool_decide (now < expiry)%Z
      then mret {| geoCell := geoCell;
                   surgeMultiplier := hash_multiplier h;
                   supplyCount := hash_supply h;
                   demandCount := hash_demand h |}
      else mret {| geoCell := geoCell; surgeMultiplier := config.SURGE_MIN;
                   supplyCount := 0; demandCount := 0 |}
  | None =>
      mret {| geoCell := geoCell; surgeMultiplier := config.SURGE_MIN;
              supplyCount := 0; demandCount := 0 |}
  end.

(** GET demand:{geoCell}, parsed: [parseInt(...) || 0]. *)
Definition get_demand (r : Redis) (now : Z) (geoCell : string) : Z :=
  match demand r !! geoCell with
  | Some (n, None) => n
  | Some (n, Some expiry) => if bool_decide (now < expiry)%Z then n else 0%Z
  | None => 0%Z
  end.

(** [incrementDemand(geoCell, region)], lines 145-155: INCR, then EXPIRE on
    the first increment of a fresh key. *)
Definition incrementDemand (geoCell region : string) : M (string * Z) :=
  now ← Date_now;
  old ← gets (λ w, demand (redis w) !! geoCell);
  let live :=
    match old with
    | Some (n, None) => Some (n, None)
    | Some (n, Some expiry) =>
        if bool_decide (now < expiry)%Z then Some (n, Some expiry) else None
    | None => None
    end in
  let count := (default 0 (fst <$> live) + 1)%Z in
  modify (upd_redis (upd_demand <[geoCell := (count, live ≫= snd)]>));;
  (if bool_decide (count = 1%Z)
   then modify (upd_redis (upd_demand
          <[geoCell := (count, Some (now + config.DEMAND_COUNTER_TTL * 1000)%Z)]>))
   else mret tt);;
  mret (geoCell, count).

Section WithGeodesy.
Context `{Geodesy}.

(** [getSupplyCount(region, latitude, longitude)], lines 117-140. *)
Definition getSupplyCount (region : string) (latitude longitude : Q) : M Z :=
  now ← Date_now;
  r ← gets redis;
  let geoKey := "drivers:locations:" +:+ region in
  let radiusKm := 2 in
  let results :=
    DriverLocation.georadius r geoKey
      {| lat := latitude; lng := longitude |} radiusKm in
  mret (Z.of_nat (length (filter
    (λ g, DriverLocation.presence_exists r now (DriverLocation.g_member g) = true
          ∧ meta_status (DriverLocation.hgetall_meta r (DriverLocation.g_member g))
            = Some ONLINE)
    results))).

(** [calculateSurge({geoCell, region, latitude, longitude})], lines 41-84. *)
Definition calculateSurge (geoCell region : string) (latitude longitude : Q)
    : M SurgeData :=
  supplyCount ← getSupplyCount region latitude longitude;
  now ← Date_now;
  demandCount ← gets (λ w, get_demand (redis w) now geoCell);
  let surgeMultiplier :=
    Surge.computeSurgeMultiplier (inject_Z supplyCount) (inject_Z demandCount) in
  modify (upd_redis (upd_surge
    <[geoCell := ({| hash_multiplier := surgeMultiplier;
                     hash_supply := supplyCount;
                     hash_demand := demandCount;
                     hash_region := region;
                     hash_updatedAt := now |},
                  (now + config.SURGE_CACHE_TTL * 1000)%Z)]>));;
  modify (upd_redis (upd_surge_cells (λ s,
    <[region := {[geoCell]} ∪ default ∅ (s !! region)]> s)));;
  publishEvent (SURGE_UPDATED geoCell region surgeMultiplier
                  supplyCount demandCount);;
  mret {| geoCell := geoCell; surgeMultiplier := surgeMultiplier;
          supplyCount := supplyCount; demandCount := demandCount |}.

(** [getSurgeForLocation(latitude, longitude)], lines 181-192. *)
Definition getSurgeForLocation (latitude longitude : Q) : M SurgeData :=
  let geoCell := Geo.latLngToGeoCell latitude longitude in
  data ← getSurgeForCell geoCell;
  if bool_decide (supplyCount data = 0%Z) && bool_decide (demandCount data = 0%Z)
  then
    let region := Geo.getRegionFromCoordinates latitude longitude in
    calculateSurge geoCell region latitude longitude
  else mret data.
End WithGeodesy.
End SurgeService.

(** ** Dispatch / matching engine (src/services/dispatch.service.js) *)
Module Dispatch.
#[local] Open Scope Q_scope.

Record RideInput := {
  in_riderId : uuid;
  in_pickup : Coord;
  in_destination : Coord;
  in_tier : Tier;
  in_paymentMethod : PaymentMethod;
  in_idempotencyKey : string;
}.

(** The body of POST /rides/:rideId/driver-response. *)
Record DriverResponse := {
  resp_driverId : uuid;
  resp_action : Action;
  resp_reason : option string;
}.

(** The objects returned by [handleDriverResponse]. *)
Inductive ResponseResult :=
| Accepted (driverId : uuid)          (* {status: 'ACCEPTED', driverId} *)
| Expired (reason : string)           (* {status: 'EXPIRED', reason} *)
| Reassigned.                         (* {status: 'REASSIGNED'} *)

Record TimeoutResult := { timedOut : bool }.

(** *** SQL statements *)

(** INSERT INTO ride_requests ... RETURNING *: the primary key and the
    UNIQUE idempotency_key are enforced (SQLSTATE 23505).  Rider and driver
    ids are assumed to reference existing rows. *)
Definition insert_ride_request (row : RideRow) : M RideRow := λ w,
  if bool_decide (is_Some (ride_requests (pg w) !! id row))
  then (Err (DbError "23505"), w)
  else if bool_decide (map_Exists
            (λ _ r, idempotency_key r = idempotency_key row)
            (ride_requests (pg w)))
  then (Err (DbError "23505"), w)
  else (Ok row, upd_pg (upd_ride_requests <[id row := row]>) w).

(** INSERT INTO driver_offers (id, ride_request_id, driver_id, expires_at). *)
Definition insert_driver_offer (offerId rideId driverId : uuid) (expiresAt : Z)
    : M unit := λ w,
  if bool_decide (Exists (λ o, offer_id o = offerId) (driver_offers (pg w)))
  then (Err (DbError "23505"), w)
  else (Ok tt, upd_pg (upd_driver_offers (λ t, t ++
          [{| offer_id := offerId; ride_request_id := rideId;
              offer_driver_id := driverId;
              offer_status := OfferStatus.PENDING;
              responded_at := None; decline_reason := None;
              offer_expires_at := expiresAt |}])) w).

(** UPDATE ride_requests SET ... WHERE id = $n. *)
Definition update_ride_request (rideId : uuid) (set : RideRow → RideRow)
    : M unit :=
  modify (upd_pg (upd_ride_requests (alter set rideId))).

(** UPDATE driver_offers SET ... WHERE ride_request_id = $1 AND driver_id = $2. *)
Definition update_driver_offers (rideId driverId : uuid)
    (set : OfferRow → OfferRow) : M unit :=
  modify (upd_pg (upd_driver_offers (fmap (λ o,
    if bool_decide (ride_request_id o = rideId ∧ offer_driver_id o = driverId)
    then set o else o)))).

(** SET status = s. *)
Definition set_status (s : RideStatus.t) (r : RideRow) : RideRow :=
  {| id := id r; rider_id := rider_id r; driver_id := driver_id r;
     pickup_lat := pickup_lat r; pickup_lng := pickup_lng r;
     destination_lat := destination_lat r;
     destination_lng := destination_lng r;
     tier := tier r; payment_method := payment_method r;
     status := s;
     surge_multiplier := surge_multiplier r;
     estimated_fare := estimated_fare r;
     idempotency_key := idempotency_key r;
     match_attempts := match_attempts r;
     current_driver_offer_id := current_driver_offer_id r;
     expires_at := expires_at r |}.

(** SET status = 'ACCEPTED', driver_id = $1. *)
Definition set_accepted (driverId : uuid) (r : RideRow) : RideRow :=
  {| id := id r; rider_id := rider_id r; driver_id := Some driverId;
     pickup_lat := pickup_lat r; pickup_lng := pickup_lng r;
     destination_lat := destination_lat r;
     destination_lng := destination_lng r;
     tier := tier r; payment_method := payment_method r;
     status := RideStatus.ACCEPTED;
     surge_multiplier := surge_multiplier r;
     estimated_fare := estimated_fare r;
     idempotency_key := idempotency_key r;
     match_attempts := match_attempts r;
     current_driver_offer_id := current_driver_offer_id r;
     expires_at := expires_at r |}.

(** SET current_driver_offer_id = $1, driver_id = $2,
        match_attempts = match_attempts + 1. *)
Definition set_current_offer (offerId driverId : uuid) (r : RideRow) : RideRow :=
  {| id := id r; rider_id := rider_id r; driver_id := Some driverId;
     pickup_lat := pickup_lat r; pickup_lng := pickup_lng r;
     destination_lat := destination_lat r;
     destination_lng := destination_lng r;
     tier := tier r; payment_method := payment_method r;
     status := status r;
     surge_multiplier := surge_multiplier r;
     estimated_fare := estimated_fare r;
     idempotency_key := idempotency_key r;
     match_attempts := (match_attempts r + 1)%Z;
     current_driver_offer_id := Some offerId;
     expires_at := expires_at r |}.

(** SET status = s, responded_at = NOW() [, decline_reason = $1]. *)
Definition set_responded (s : OfferStatus.t) (now : Z) (reason : option string)
    (o : OfferRow) : OfferRow :=
  {| offer_id := offer_id o; ride_request_id := ride_request_id o;
     offer_driver_id := offer_driver_id o;
     offer_status := s;
     responded_at := Some now;
     decline_reason := match reason with Some _ => reason
                                       | None => decline_reason o end;
     offer_expires_at := offer_expires_at o |}.

(** GET ride:{rideId}:offer, parsed. *)
Definition get_offer (r : Redis) (now : Z) (rideId : uuid) : option OfferEntry :=
  match ride_offer r !! rideId with
  | Some (offer, expiry) => if bool_decide (now < expiry)%Z then Some offer else None
  | None => None
  end.

(** [calculateEstimatedFare(distanceKm, surgeMultiplier)], lines 331-341. *)
Definition calculateEstimatedFare (distanceKm surgeMultiplier : Q) : Q :=
  let baseFare := config.FARE_BASE in
  let distanceFare := distanceKm * config.FARE_PER_KM in
  let estimatedMinutes := distanceKm * 3 in
  let timeFare := estimatedMinutes * config.FARE_PER_MINUTE in
  let subtotal := baseFare + distanceFare + timeFare in
  let total := subtotal * surgeMultiplier in
  Math.round (total * 100) / 100.

Section WithGeodesy.
Context `{Geodesy}.

(** [matchDriver(rideRequest, region)], lines 91-162. *)
Definition matchDriver (rideRequest : RideRow) (region : string)
    : M MatchResult :=
  let rideId := id rideRequest in
  found ← DriverLocation.findNearbyDrivers
    {| DriverLocation.q_latitude := pickup_lat rideRequest;
       DriverLocation.q_longitude := pickup_lng rideRequest;
       DriverLocation.q_radiusKm := config.DEFAULT_SEARCH_RADIUS_KM;
       DriverLocation.q_region := region;
       DriverLocation.q_vehicleType := Some (tier rideRequest);
       DriverLocation.q_limit := 10 |};
  match DriverLocation.drivers found with
  | [] =>
      update_ride_request rideId (set_status RideStatus.NO_DRIVERS);;
      mret {| driver := None; matched := false |}
  | selectedDriver :: _ =>
      offerId ← uuidv4;
      now ← Date_now;
      let offerExpiresAt := (now + config.DRIVER_RESPONSE_TIMEOUT)%Z in
      insert_driver_offer offerId rideId
        (DriverLocation.driverId selectedDriver) offerExpiresAt;;
      update_ride_request rideId
        (set_current_offer offerId (DriverLocation.driverId selectedDriver));;
      modify (upd_redis (upd_ride_offer
        <[rideId :=
            ({| entry_offerId := offerId;
                entry_driverId := DriverLocation.driverId selectedDriver;
                entry_expiresAt := offerExpiresAt |},
             (now + (Qceiling (inject_Z config.DRIVER_RESPONSE_TIMEOUT / 1000)
                     + 5) * 1000)%Z)]>));;
      publishEvent (RIDE_MATCHED rideId
        (DriverLocation.driverId selectedDriver) offerId
        (DriverLocation.distanceKm selectedDriver));;
      mret {| driver := Some
                {| md_driverId := DriverLocation.driverId selectedDriver;
                   md_distanceKm := DriverLocation.distanceKm selectedDriver;
                   md_eta := Math.ceil
                               (DriverLocation.distanceKm selectedDriver * 2) |};
              matched := true |}
  end.

(** [createRideRequest({riderId, pickup, destination, tier, paymentMethod,
    idempotencyKey})], lines 19-86. *)
Definition createRideRequest (input : RideInput) : M RideResult :=
  let pickup := in_pickup input in
  let destination := in_destination input in
  let region := Geo.getRegionFromCoordinates (lat pickup) (lng pickup) in
  let geoCell := Geo.latLngToGeoCell (lat pickup) (lng pickup) in
  SurgeService.incrementDemand geoCell region;;
  surgeData ← SurgeService.getSurgeForLocation (lat pickup) (lng pickup);
  let surgeMultiplier := SurgeService.surgeMultiplier surgeData in
  let distanceKm :=
    calculateDistance (lat pickup) (lng pickup)
                      (lat destination) (lng destination) in
  let estimatedFare := calculateEstimatedFare distanceKm surgeMultiplier in
  rideId ← uuidv4;
  now ← Date_now;
  let expiresAt := (now + 5 * 60 * 1000)%Z in
  rideRequest ← insert_ride_request
    {| id := rideId; rider_id := in_riderId input; driver_id := None;
       pickup_lat := lat pickup; pickup_lng := lng pickup;
       destination_lat := lat destination;
       destination_lng := lng destination;
       tier := in_tier input; payment_method := in_paymentMethod input;
       status := RideStatus.MATCHING;
       surge_multiplier := surgeMultiplier;
       estimated_fare := estimatedFare;
       idempotency_key := in_idempotencyKey input;
       match_attempts := 0;
       current_driver_offer_id := None;
       expires_at := expiresAt |};
  publishEvent (RIDE_REQUESTED rideId (in_riderId input) region);;
  matchResult ← matchDriver rideRequest region;
  mret {| r_id := rideId;
          r_status := RideStatus.MATCHING;
          r_riderId := in_riderId input;
          r_pickup := {| lat := lat pickup; lng := lng pickup |};
          r_destination := {| lat := lat destination; lng := lng destination |};
          r_tier := in_tier input;
          r_surgeMultiplier := surgeMultiplier;
          r_estimatedFare := estimatedFare;
          r_matchedDriver := driver matchResult;
          r_matchAttempts := 1 |}.

(** [handleDriverResponse(rideId, {driverId, action, reason})],
    lines 167-262. *)
Definition handleDriverResponse (rideId : uuid) (response : DriverResponse)
    : M ResponseResult :=
  let driverId := resp_driverId response in
  let reason := resp_reason response in
  rideResult ← gets (λ w, ride_requests (pg w) !! rideId);
  match rideResult with
  | None => throw (JsError "Ride not found")
  | Some ride =>
      match resp_action response with
      | ACCEPT =>
          update_ride_request rideId (set_accepted driverId);;
          now ← Date_now;
          update_driver_offers rideId driverId
            (set_responded OfferStatus.ACCEPTED now None);;
          DriverLocation.updateDriverStatus driverId ON_TRIP;;
          modify (upd_redis (upd_ride_offer (delete rideId)));;
          publishEvent (RIDE_ACCEPTED rideId driverId);;
          mret (Accepted driverId)
      | DECLINE =>
          now ← Date_now;
          update_driver_offers rideId driverId
            (set_responded OfferStatus.DECLINED now
               (Some (match reason with
                      | Some s => if bool_decide (s = "") then "Not specified"
                                  else s
                      | None => "Not specified"
                      end)));;
          publishEvent (RIDE_DECLINED rideId driverId reason);;
          let region :=
            Geo.getRegionFromCoordinates (pickup_lat ride) (pickup_lng ride) in
          if bool_decide (config.MAX_MATCH_ATTEMPTS ≤ match_attempts ride)%Z
          then
            update_ride_request rideId (set_status RideStatus.EXPIRED);;
            mret (Expired "Max match attempts reached")
          else
            declinedDrivers ← gets (λ w,
              offer_driver_id <$>
                filter (λ o, ride_request_id o = rideId
                             ∧ offer_status o = OfferStatus.DECLINED)
                       (driver_offers (pg w)));
            found ← DriverLocation.findNearbyDrivers
              {| DriverLocation.q_latitude := pickup_lat ride;
                 DriverLocation.q_longitude := pickup_lng ride;
                 DriverLocation.q_radiusKm := config.DEFAULT_SEARCH_RADIUS_KM;
                 DriverLocation.q_region := region;
                 DriverLocation.q_vehicleType := Some (tier ride);
                 DriverLocation.q_limit := 10 |};
            let availableDrivers :=
              filter (λ d, DriverLocation.driverId d ∉ declinedDrivers)
                     (DriverLocation.drivers found) in
            match availableDrivers with
            | [] =>
                update_ride_request rideId (set_status RideStatus.EXPIRED);;
                mret (Expired "No available drivers")
            | _ :: _ =>
                matchDriver ride region;;
                mret Reassigned
            end
      end
  end.

(** [checkTimeout(rideId)], lines 306-326. *)
Definition checkTimeout (rideId : uuid) : M TimeoutResult :=
  now ← Date_now;
  offerData ← gets (λ w, get_offer (redis w) now rideId);
  match offerData with
  | None => mret {| timedOut := false |}
  | Some offer =>
      let expiresAt := entry_expiresAt offer in
      if bool_decide (expiresAt < now)%Z
      then
        handleDriverResponse rideId
          {| resp_driverId := entry_driverId offer;
             resp_action := DECLINE;
             resp_reason := Some "Timeout" |};;
        mret {| timedOut := true |}
      else mret {| timedOut := false |}
  end.
End WithGeodesy.
End Dispatch.

(** ** HTTP layer: requests, error handler (src/middleware/error-handler.js) *)

(** The request body, its zod schema (src/utils/validators.js) and the
    SHA-256 digest of [hashRequest] are kept abstract. *)
Class Wire := {
  Body : Type;
  rideRequestSchema : Body → option Dispatch.RideInput;
  (** [hashRequest(req)]: the first 16 hex digits of
      sha256(JSON.stringify({method, path, body})). *)
  hashRequest : string → string → Body → string;
}.

Module Http.
Record Request `{Wire} := {
  method : string;
  path : string;
  idempotency_key_header : option string;    (* req.headers['idempotency-key'] *)
  req_body : Body;
}.

(** A header value is falsy when it is missing or empty. *)
Definition header_value (h : option string) : option string :=
  match h with
  | Some k => if bool_decide (k = "") then None else Some k
  | None => None
  end.

Definition json (code : Z) (b : Json) : Response :=
  {| statusCode := code; body := b; replayed := false |}.

(** [errorHandler(err, req, res, next)], with NODE_ENV unset. *)
Definition errorHandler (err : Error) : Response :=
  match err with
  | ZodError issues => json 400 (JError "Validation error" issues)
  | DbError code =>
      if String.prefix "23" code
      then json 409 (JError "Database constraint violation" code)
      else json 500 (JError "Internal server error" "Something went wrong")
  | RedisError _ | JsError _ =>
      json 500 (JError "Internal server error" "Something went wrong")
  end.

(** [asyncHandler(fn)]: a rejected handler is routed to [errorHandler]. *)
Definition asyncHandler `{Wire} (fn : Request → M Response) (req : Request)
    : M Response := λ w,
  match fn req w with
  | (Ok res, w') => (Ok res, w')
  | (Err err, w') => (Ok (errorHandler err), w')
  end.
End Http.

(** ** Idempotency middleware (src/middleware/idempotency.js) *)
Module Idempotency.
Section WithWire.
Context `{Wire}.

(** GET idempotency:{key}. *)
Definition cache_get (r : Redis) (now : Z) (key : string) : option CacheEntry :=
  match idempotency r !! key with
  | Some (e, expiry) => if bool_decide (now < expiry)%Z then Some e else None
  | None => None
  end.

(** [idempotencyMiddleware({required})(req, res, next)];
    [next] is the rest of the route. *)
Definition idempotencyMiddleware (required : bool)
    (next : Http.Request → M Response) (req : Http.Request) : M Response :=
  match Http.header_value (Http.idempotency_key_header req) with
  | None =>
      if required
      then mret (Http.json 400 (JError "Missing idempotency key"
                   "Header 'Idempotency-Key' is required for this endpoint"))
      else next req
  | Some idempotencyKey =>
      now ← Date_now;
      cached ← gets (λ w, cache_get (redis w) now idempotencyKey);
      match cached with
      | Some entry =>
          let currentHash :=
            hashRequest (Http.method req) (Http.path req) (Http.req_body req) in
          if bool_decide (cached_requestHash entry ≠ currentHash)
          then mret (Http.json 422 (JError "Idempotency key conflict"
                       "This key was used with a different request payload"))
          else mret {| statusCode := 200; body := cached_body entry;
                       replayed := true |}
      | None =>
          let idempotencyRequestHash :=
            hashRequest (Http.method req) (Http.path req) (Http.req_body req) in
          res ← next req;
          cachedAt ← Date_now;
          modify (upd_redis (upd_idempotency
            <[idempotencyKey :=
                ({| cached_statusCode := statusCode res;
                    cached_body := body res;
                    cached_requestHash := idempotencyRequestHash;
                    cachedAt := cachedAt |},
                 (cachedAt + config.IDEMPOTENCY_TTL * 1000)%Z)]>));;
          mret res
      end
  end.
End WithWire.
End Idempotency.

(** ** Ride controller and routes (src/controllers/ride.controller.js,
       src/routes/ride.routes.js) *)
Module RideController.
Record CancelResult := {
  c_status : RideStatus.t;
  c_rideId : uuid;
  c_reason : option string;
}.

(** [cancelRide]: POST /api/v1/rides/:rideId/cancel. *)
Definition cancelRide (rideId : uuid) (reason : option string) : M CancelResult :=
  Dispatch.update_ride_request rideId (Dispatch.set_status RideStatus.CANCELLED);;
  mret {| c_status := RideStatus.CANCELLED; c_rideId := rideId;
          c_reason := reason |}.

Section WithEnv.
Context `{Geodesy} `{Wire}.

(** [createRideRequest] (controller): POST /api/v1/rides. *)
Definition createRideRequest (req : Http.Request) : M Response :=
  match Http.header_value (Http.idempotency_key_header req) with
  | None =>
      mret (Http.json 400 (JError "Missing Idempotency-Key header"
              "All ride requests must include an Idempotency-Key header"))
  | Some idempotencyKey =>
      match rideRequestSchema (Http.req_body req) with
      | None => throw (ZodError "")
      | Some data =>
          result ← Dispatch.createRideRequest
            {| Dispatch.in_riderId := Dispatch.in_riderId data;
               Dispatch.in_pickup := Dispatch.in_pickup data;
               Dispatch.in_destination := Dispatch.in_destination data;
               Dispatch.in_tier := Dispatch.in_tier data;
               Dispatch.in_paymentMethod := Dispatch.in_paymentMethod data;
               Dispatch.in_idempotencyKey := idempotencyKey |};
          mret (Http.json 201 (JRide result))
      end
  end.

(** router.post('/', idempotencyMiddleware({required: true}),
                rideController.createRideRequest). *)
Definition post_rides : Http.Request → M Response :=
  Idempotency.idempotencyMiddleware true (Http.asyncHandler createRideRequest).
End WithEnv.
End RideController.

(** ** The dispatch API as a labelled transition system *)
Inductive Op :=
| PostRide (input : Dispatch.RideInput)
| DriverResponds (rideId : uuid) (response : Dispatch.DriverResponse)
| CheckTimeout (rideId : uuid)
| CancelRide (rideId : uuid) (reason : option string)
| Heartbeat (driverId : uuid) (latitude longitude : Q)
| SetDriverStatus (driverId : uuid) (status : DriverStatus)
| Tick (ms : Z).

Section Machine.
Context `{Geodesy}.

(** The world after an operation; a thrown exception keeps the writes made
    before it. *)
Definition exec (op : Op) (w : World) : World :=
  match op with
  | PostRide input => snd (Dispatch.createRideRequest input w)
  | DriverResponds rideId response =>
      snd (Dispatch.handleDriverResponse rideId response w)
  | CheckTimeout rideId => snd (Dispatch.checkTimeout rideId w)
  | CancelRide rideId reason => snd (RideController.cancelRide rideId reason w)
  | Heartbeat driverId latitude longitude =>
      snd (DriverLocation.updateLocation driverId latitude longitude None None w)
  | SetDriverStatus driverId status =>
      snd (DriverLocation.updateDriverStatus driverId status w)
  | Tick ms => upd_clock (λ t, t + Z.max 0 ms) w
  end.

Definition run (ops : list Op) (w : World) : World :=
  foldl (λ w op, exec op w) w ops.
End Machine.

(** The empty deployment at instant 0. *)
Definition empty_world : World :=
  {| pg := {| ride_requests := ∅; driver_offers := [] |};
     redis := {| geo := ∅; presence := ∅; meta := ∅; ride_offer := ∅;
                 demand := ∅; surge := ∅; surge_cells := ∅; ride_lock := ∅;
                 idempotency := ∅ |};
     kafka := []; clock := 0; next_uuid := 100%nat |}.

(** ** The surge multiplier over binary64 numbers

    JavaScript numbers are IEEE 754 binary64 values; [PrimFloat] provides
    exactly these.  The definitions below repeat [computeSurgeMultiplier] with
    float arithmetic, so that the rational model can be compared with what the
    runtime computes. *)
Module SurgeF64.
#[local] Open Scope float_scope.

Definition of_Z (z : Z) : float :=
  if (z <? 0)%Z then - PrimFloat.of_uint63 (Uint63.of_Z (- z))
  else PrimFloat.of_uint63 (Uint63.of_Z z).

(** [Math.round x] for a binary64 [x] = (-1)^s * m * 2^e. *)
Definition round (x : float) : float :=
  match Prim2SF x with
  | S754_finite s m e =>
      if (0 <=? e)%Z then x
      else
        let n := if s then Z.neg m else Z.pos m in
        of_Z ((2 * n + 2 ^ (- e)) / 2 ^ (1 - e))%Z
  | _ => x
  end.

(** [Math.max] and [Math.min] return NaN when an argument is NaN. *)
Definition max (a b : float) : float :=
  if is_nan a || is_nan b then nan else if a <? b then b else a.
Definition min (a b : float) : float :=
  if is_nan a || is_nan b then nan else if b <? a then b else a.

Definition computeSurgeMultiplier (supply demand : float) : float :=
  if (supply =? 0) && (demand =? 0) then 1
  else if supply =? 0 then 3
  else
    let ratio := demand / supply in
    let smoothingFactor := 0.5 in
    let surge := 1 + (ratio - 1) * smoothingFactor in
    let surge := max 1 surge in
    let surge := min 3 surge in
    round (surge * 10) / 10.

(** The binary64 number written as the decimal [q]: the quotient of the
    tenths of [q] by ten, correctly rounded. *)
Definition of_tenths (q : Q) : float :=
  of_Z (Qfloor (q * 10)) / 10.

(** Both models agree on every pair of counts up to the given bounds. *)
Definition agree_upto (maxSupply maxDemand : nat) : bool :=
  forallb (λ s, forallb (λ d,
      computeSurgeMultiplier (of_Z (Z.of_nat s)) (of_Z (Z.of_nat d))
      =? of_tenths (Surge.computeSurgeMultiplier
                      (inject_Z (Z.of_nat s)) (inject_Z (Z.of_nat d))))
    (seq 0 (S maxDemand))) (seq 0 (S maxSupply)).
End SurgeF64.



(** ** Specification vocabulary for the proximity query *)
Module NearbySpec.
#[local] Open Scope Q_scope.

(** The filter of [findNearbyDrivers]: a live presence marker, status ONLINE
    and, when a tier is asked for, that vehicle type (ECONOMY when the driver
    has none recorded). *)
Definition eligible (r : Redis) (now : Z) (vehicleType : option Tier)
    (driverId : uuid) : Prop :=
  DriverLocation.presence_exists r now driverId = true
  ∧ meta_status (DriverLocation.hgetall_meta r driverId) = Some ONLINE
  ∧ match vehicleType with
    | Some t =>
        default ECONOMY (meta_vehicleType (DriverLocation.hgetall_meta r driverId)) = t
    | None => True
    end.

#[global] Instance eligible_dec r now vehicleType driverId :
  Decision (eligible r now vehicleType driverId).
Proof. unfold eligible. destruct vehicleType; apply _. Defined.

(** The entry pushed for a georadius row. *)
Definition pushed (r : Redis) (g : DriverLocation.GeoResult)
    : DriverLocation.NearbyDriver :=
  let meta := DriverLocation.hgetall_meta r (DriverLocation.g_member g) in
  {| DriverLocation.driverId := DriverLocation.g_member g;
     DriverLocation.distanceKm := DriverLocation.g_distance g;
     DriverLocation.latitude := lat (DriverLocation.g_coord g);
     DriverLocation.longitude := lng (DriverLocation.g_coord g);
     DriverLocation.vehicleType := default ECONOMY (meta_vehicleType meta);
     DriverLocation.d_status := default ONLINE (meta_status meta);
     DriverLocation.heading := default 0 (meta_heading meta);
     DriverLocation.speed := default 0 (meta_speed meta) |}.


Section WithGeodesy.
Context `{Geodesy}.

(** The members of the region's geo set within the radius, nearest first. *)
Definition in_radius (q : DriverLocation.NearbyQuery) (w : World)
    : list DriverLocation.GeoResult :=
  merge_sort DriverLocation.by_distance
    (DriverLocation.georadius (redis w)
       ("drivers:locations:" +:+ DriverLocation.q_region q)
       {| lat := DriverLocation.q_latitude q; lng := DriverLocation.q_longitude q |}
       (DriverLocation.q_radiusKm q)).

(** What the query returns for a limit of at least one: the first [limit]
    members passing the filter among the [2 * limit] nearest within the radius. *)
Definition nearest_eligible (q : DriverLocation.NearbyQuery) (w : World)
    : list DriverLocation.NearbyDriver :=
  take (Z.to_nat (DriverLocation.q_limit q))
    (pushed (redis w) <$>
       filter (λ g, eligible (redis w) (clock w) (DriverLocation.q_vehicleType q)
                      (DriverLocation.g_member g))
         (take (Z.to_nat (DriverLocation.q_limit q * 2)) (in_radius q w))).

(** The query [matchDriver] and [handleDriverResponse] issue for a ride. *)
Definition match_query (ride : RideRow) (region : string)
    : DriverLocation.NearbyQuery :=
  {| DriverLocation.q_latitude := pickup_lat ride;
     DriverLocation.q_longitude := pickup_lng ride;
     DriverLocation.q_radiusKm := config.DEFAULT_SEARCH_RADIUS_KM;
     DriverLocation.q_region := region;
     DriverLocation.q_vehicleType := Some (tier ride);
     DriverLocation.q_limit := 10 |}.

End WithGeodesy.
End NearbySpec.

(** ** Frames

    [same_core w w']: [w'] differs from [w] at most in what the surge engine
    and the event log own (demand counters, surge cache, published events). *)
Definition same_core (w w' : World) : Prop :=
  pg w' = pg w ∧ clock w' = clock w ∧ next_uuid w' = next_uuid w
  ∧ geo (redis w') = geo (redis w)
  ∧ presence (redis w') = presence (redis w)
  ∧ meta (redis w') = meta (redis w)
  ∧ ride_offer (redis w') = ride_offer (redis w)
  ∧ ride_lock (redis w') = ride_lock (redis w)
  ∧ idempotency (redis w') = idempotency (redis w).

(** The query issued for a pickup point and tier. *)
Definition pickup_query (pickup : Coord) (t : Tier) : DriverLocation.NearbyQuery :=
  {| DriverLocation.q_latitude := lat pickup;
     DriverLocation.q_longitude := lng pickup;
     DriverLocation.q_radiusKm := config.DEFAULT_SEARCH_RADIUS_KM;
     DriverLocation.q_region := Geo.getRegionFromCoordinates (lat pickup) (lng pickup);
     DriverLocation.q_vehicleType := Some t;
     DriverLocation.q_limit := 10 |}.

(** ** The relational store as a transition system

    [db_step] lists the statements the dispatch engine issues against
    [ride_requests] and [driver_offers], together with the uuid source;
    [wf_pg] is the integrity of the two tables: rows are stored under their
    id, ids come from the uuid source, every offer references a stored ride
    (the foreign key), and [match_attempts] counts the offers of the ride and
    stays within the maximum. *)
Definition offers_for (rideId : uuid) (offers : list OfferRow) : nat :=
  length (filter (λ o, ride_request_id o = rideId) offers).

Definition wf_pg (p : Postgres) (next : uuid) : Prop :=
  (∀ k row, ride_requests p !! k = Some row →
     id row = k ∧ (k < next)%nat
     ∧ 0 ≤ match_attempts row ≤ config.MAX_MATCH_ATTEMPTS
     ∧ match_attempts row = Z.of_nat (offers_for k (driver_offers p)))
  ∧ Forall (λ o, (offer_id o < next)%nat
                 ∧ is_Some (ride_requests p !! ride_request_id o))
           (driver_offers p).

Definition wf (w : World) : Prop := wf_pg (pg w) (next_uuid w).

(** The part of the world [db_step] speaks about. *)
Definition db (w : World) : Postgres * uuid := (pg w, next_uuid w).


Inductive db_step : Postgres * uuid → Postgres * uuid → Prop :=
| db_draw p n :
    db_step (p, n) (p, S n)
| db_update_ride p n k f :
    (∀ r, id (f r) = id r ∧ match_attempts (f r) = match_attempts r) →
    db_step (p, n) (upd_ride_requests (alter f k) p, n)
| db_update_offers p n g :
    (∀ o, offer_id (g o) = offer_id o ∧ ride_request_id (g o) = ride_request_id o) →
    db_step (p, n) (upd_driver_offers (fmap g) p, n)
| db_insert_ride p n row :
    (id row < n)%nat →
    ride_requests p !! id row = None →
    match_attempts row = 0 →
    db_step (p, n) (upd_ride_requests <[id row := row]> p, n)
| db_offer p n k row offerId driverId expiresAt :
    (offerId < n)%nat →
    ¬ Exists (λ o, offer_id o = offerId) (driver_offers p) →
    ride_requests p !! k = Some row →
    id row = k →
    match_attempts row < config.MAX_MATCH_ATTEMPTS →
    db_step (p, n)
      ({| ride_requests :=
            alter (Dispatch.set_current_offer offerId driverId) k (ride_requests p);
          driver_offers :=
            driver_offers p ++
            [{| offer_id := offerId; ride_request_id := k;
                offer_driver_id := driverId;
                offer_status := OfferStatus.PENDING;
                responded_at := None; decline_reason := None;
                offer_expires_at := expiresAt |}] |}, n).

(** ** Concrete scenarios

    A test double for the distance functions: 111 km per degree along each
    axis (taxicab).  Driver ids 1, 2, 3; rider id 50. *)
Module Scenario.
#[local] Open Scope Q_scope.

Definition taxicab_km (lat1 lng1 lat2 lng2 : Q) : Q :=
  Qred (111 * (Qabs (lat2 - lat1) + Qabs (lng2 - lng1))).

#[global] Instance taxicab : Geodesy := {|
  calculateDistance := taxicab_km;
  geoDistKm a b := taxicab_km (lat a) (lng a) (lat b) (lng b);
|}.

Definition D1 : uuid := 1%nat.
Definition D2 : uuid := 2%nat.
Definition D3 : uuid := 3%nat.
Definition R1 : uuid := 50%nat.

(** The seed positions of tests/integration/dispatch.test.js. *)
Definition p1 : Coord := {| lat := 129716 # 10000; lng := 775946 # 10000 |}.
Definition p2 : Coord := {| lat := 12972 # 1000; lng := 77595 # 1000 |}.
Definition p3 : Coord := {| lat := 1298 # 100; lng := 776 # 10 |}.

(** Three drivers heartbeat; the two nearest to [p1] are OFFLINE. *)
Definition two_offline_one_online : World :=
  run [Heartbeat D1 (lat p1) (lng p1); SetDriverStatus D1 OFFLINE;
       Heartbeat D2 (lat p2) (lng p2); SetDriverStatus D2 OFFLINE;
       Heartbeat D3 (lat p3) (lng p3); SetDriverStatus D3 ONLINE]
      empty_world.

Definition nearest_one : DriverLocation.NearbyQuery :=
  {| DriverLocation.q_latitude := lat p1;
     DriverLocation.q_longitude := lng p1;
     DriverLocation.q_radiusKm := 5;
     DriverLocation.q_region := "bangalore";
     DriverLocation.q_vehicleType := None;
     DriverLocation.q_limit := 1 |}.

(** Two ONLINE drivers, [D1] at the pickup point and [D2] a little further. *)
Definition two_online : World :=
  run [Heartbeat D1 (lat p1) (lng p1); SetDriverStatus D1 ONLINE;
       Heartbeat D2 (lat p2) (lng p2); SetDriverStatus D2 ONLINE]
      empty_world.

(** The ride request of the integration tests. *)
Definition ride_input : Dispatch.RideInput :=
  {| Dispatch.in_riderId := R1;
     Dispatch.in_pickup := p1;
     Dispatch.in_destination := {| lat := 1298 # 100; lng := 7761 # 100 |};
     Dispatch.in_tier := ECONOMY;
     Dispatch.in_paymentMethod := CARD;
     Dispatch.in_idempotencyKey := "k1" |}.

(** The first uuid drawn in [two_online] names the ride, the second its
    first offer. *)
Definition ride_id : uuid := 100%nat.

(** The ride is created and offered to the nearest driver, [D1]. *)
Definition offered : World := run [PostRide ride_input] two_online.

Definition accept_by (d : uuid) : Dispatch.DriverResponse :=
  {| Dispatch.resp_driverId := d; Dispatch.resp_action := ACCEPT;
     Dispatch.resp_reason := None |}.

Definition decline_by (d : uuid) : Dispatch.DriverResponse :=
  {| Dispatch.resp_driverId := d; Dispatch.resp_action := DECLINE;
     Dispatch.resp_reason := Some "Too far" |}.

(** [D1] has accepted the offer. *)
Definition accepted : World := run [DriverResponds ride_id (accept_by D1)] offered.

(** Nobody answered for 25 s: the offer deadline (15 s) and the TTL of the
    fast-lookup entry (20 s) have both passed. *)
Definition unanswered : World := run [Tick 25000] offered.

(** Nobody answered for 16 s: the deadline has passed and the fast-lookup
    entry is still there. *)
Definition overdue : World := run [Tick 16000] offered.

(** A test double for the wire format: bodies are raw strings, the schema
    accepts the body "ride" as [ride_input], and the digest is the request
    text itself. *)
#[global] Instance plain_wire : Wire := {|
  Body := string;
  rideRequestSchema b := if bool_decide (b = "ride") then Some ride_input else None;
  hashRequest m p b := m +:+ " " +:+ p +:+ " " +:+ b;
|}.

Definition post_ride (key : string) (b : string) : Http.Request :=
  {| Http.method := "POST"; Http.path := "/";
     Http.idempotency_key_header := Some key; Http.req_body := b |}.

(** Another handler holds [lock:ride:{ride_id}] until instant 5000. *)
Definition locked : World :=
  upd_redis (λ r,
    {| geo := geo r; presence := presence r; meta := meta r;
       ride_offer := ride_offer r; demand := demand r; surge := surge r;
       surge_cells := surge_cells r;
       ride_lock := <[ride_id := 5000%Z]> (ride_lock r);
       idempotency := idempotency r |}) offered.

(** The ride is created while no driver is around. *)
Definition nobody_around : World := empty_world.
End Scenario.

(** ** Claims of the specification that the code is checked against *)
Module SpecClaims.
Section WithGeodesy.
Context `{Geodesy}.

(** CheckTimeout: an absent entry, or an entry whose [expiresAt] has passed,
    is processed as a timeout. *)
Definition timeout_on_absent_or_expired (w : World) (rideId : uuid) : Prop :=
  match Dispatch.get_offer (redis w) (clock w) rideId with
  | None => True
  | Some offer => (entry_expiresAt offer < clock w)%Z
  end →
  fst (Dispatch.checkTimeout rideId w) = Ok {| Dispatch.timedOut := true |}.

(** CancelRide: a ride in a terminal status keeps its stored row. *)
Definition cancel_keeps_terminal (w : World) (rideId : uuid) : Prop :=
  ∀ reason row,
    ride_requests (pg w) !! rideId = Some row →
    RideStatus.terminal (status row) = true →
    ride_requests (pg (snd (RideController.cancelRide rideId reason w))) !! rideId
    = Some row.
End WithGeodesy.
End SpecClaims.

(** ** Driver presence and position lookups
       (src/services/driver-location.service.js, lines 121-146) *)
Module DriverQueries.

(** The object returned by [getDriverLocation]: the position, and the fields
    of the metadata hash spread into it. *)
Record DriverPosition := {
  pos_driverId : uuid;
  pos_latitude : Q;
  pos_longitude : Q;
  pos_meta : DriverMeta;
}.

(** [isDriverOnline(driverId)], lines 124-127. *)
Definition isDriverOnline (driverId : uuid) : M bool :=
  now ← Date_now;
  gets (λ w, DriverLocation.presence_exists (redis w) now driverId).

(** GEOPOS key member. *)
Definition geopos (r : Redis) (geoKey : string) (driverId : uuid)
    : option Coord :=
  position <$> head (filter (λ m, member m = driverId)
                       (default [] (geo r !! geoKey))).

(** [getDriverLocation(driverId, region = 'bangalore')], lines 132-146. *)
Definition getDriverLocation (driverId : uuid) (region : option string)
    : M (option DriverPosition) :=
  let region := default "bangalore" region in
  let geoKey := "drivers:locations:" +:+ region in
  position ← gets (λ w, geopos (redis w) geoKey driverId);
  match position with
  | None => mret None
  | Some p =>
      meta ← gets (λ w, DriverLocation.hgetall_meta (redis w) driverId);
      mret (Some {| pos_driverId := driverId;
                    pos_latitude := lat p;
                    pos_longitude := lng p;
                    pos_meta := meta |})
  end.
End DriverQueries.

(** ** Surge zones of a region
       (src/services/surge-pricing.service.js, lines 157-176) *)
Module SurgeZones.
#[local] Open Scope Q_scope.

(** The comparator [(a, b) => b.surgeMultiplier - a.surgeMultiplier]:
    [a] stays before [b] when its multiplier is not the smaller one. *)
Definition by_surge_desc (a b : SurgeService.SurgeData) : Prop :=
  SurgeService.surgeMultiplier b <= SurgeService.surgeMultiplier a.

#[global] Instance by_surge_desc_dec : RelDecision by_surge_desc :=
  λ a b, decide (SurgeService.surgeMultiplier b <= SurgeService.surgeMultiplier a).

(** The [for (const cell of cells)] loop, lines 165-170. *)
Fixpoint collect_zones (cells : list string) (minSurge : Q)
    (zones : list SurgeService.SurgeData) : M (list SurgeService.SurgeData) :=
  match cells with
  | [] => mret zones
  | cell :: rest =>
      data ← SurgeService.getSurgeForCell cell;
      if bool_decide (minSurge <= SurgeService.surgeMultiplier data)
      then collect_zones rest minSurge (zones ++ [data])
      else collect_zones rest minSurge zones
  end.

(** [getSurgeZonesForRegion(region, minSurge = 1.0)].  SMEMBERS returns the
    cells in an order Redis leaves open; the model lists them in the order of
    [elements]. *)
Definition getSurgeZonesForRegion (region : string) (minSurge : Q)
    : M (string * list SurgeService.SurgeData) :=
  cells ← gets (λ w, elements (default ∅ (surge_cells (redis w) !! region)));
  zones ← collect_zones cells minSurge [];
  mret (region, merge_sort by_surge_desc zones).
End SurgeZones.

(** ** Vocabulary for the demand counters and the surge cache

    A counter key carries an optional expiry; [live_demand] is what INCR and
    GET see of it at the instant [now].  [cached_surge] is what the cache
    holds for a cell: the live hash, or the default record. *)
Module SurgeSpec.
Definition live_demand (r : Redis) (now : Z) (geoCell : string)
    : option (Z * option Z) :=
  match demand r !! geoCell with
  | Some (n, None) => Some (n, None)
  | Some (n, Some expiry) =>
      if bool_decide (now < expiry) then Some (n, Some expiry) else None
  | None => None
  end.

Definition cached_surge (w : World) (geoCell : string) : SurgeService.SurgeData :=
  match surge (redis w) !! geoCell with
  | Some (h, expiry) =>
      if bool_decide (clock w < expiry)
      then {| SurgeService.geoCell := geoCell;
              SurgeService.surgeMultiplier := hash_multiplier h;
              SurgeService.supplyCount := hash_supply h;
              SurgeService.demandCount := hash_demand h |}
      else {| SurgeService.geoCell := geoCell;
              SurgeService.surgeMultiplier := config.SURGE_MIN;
              SurgeService.supplyCount := 0;
              SurgeService.demandCount := 0 |}
  | None => {| SurgeService.geoCell := geoCell;
               SurgeService.surgeMultiplier := config.SURGE_MIN;
               SurgeService.supplyCount := 0;
               SurgeService.demandCount := 0 |}
  end.
End SurgeSpec.

(** ** Vocabulary for the event log

    [matched_events] lists the RIDE_MATCHED events of a log as (ride, driver,
    offer) triples, [offer_keys] the rows of [driver_offers] likewise. *)
Module EventSpec.
Definition matched_events (log : list Event) : list (uuid * uuid * uuid) :=
  omap (λ e, match e with
             | RIDE_MATCHED rideId driverId offerId _ =>
                 Some (rideId, driverId, offerId)
             | _ => None
             end) log.

Definition offer_keys (offers : list OfferRow) : list (uuid * uuid * uuid) :=
  (λ o, (ride_request_id o, offer_driver_id o, offer_id o)) <$> offers.

(** [log_extends w w']: from [w] to [w'] the same triples were appended to
    the offer table and to the RIDE_MATCHED events. *)
Definition log_extends (w w' : World) : Prop :=
  ∃ new, matched_events (kafka w') = matched_events (kafka w) ++ new
         ∧ offer_keys (driver_offers (pg w'))
           = offer_keys (driver_offers (pg w)) ++ new.

(** A computation that extends the log in step, whatever its outcome. *)
Definition logs_in_step {A} (m : M A) : Prop :=
  ∀ w, log_extends w (snd (m w)).
End EventSpec.

(** ** Vocabulary for the fast-lookup entries

    [entry_ok]: the entry stored under [ride:{rideId}:offer] names the
    current offer of the ride: the ride's row points to the offer and to its
    driver, the offer row exists with the same driver and deadline, and the
    key outlives the deadline by five seconds. *)
Module OfferSpec.
Definition entry_ok (rows : gmap uuid RideRow) (offers : list OfferRow)
    (rideId : uuid) (entry : OfferEntry) (expiry : Z) : Prop :=
  (∃ row, rows !! rideId = Some row
          ∧ current_driver_offer_id row = Some (entry_offerId entry)
          ∧ driver_id row = Some (entry_driverId entry))
  ∧ (∃ o, o ∈ offers
          ∧ offer_id o = entry_offerId entry
          ∧ ride_request_id o = rideId
          ∧ offer_driver_id o = entry_driverId entry
          ∧ offer_expires_at o = entry_expiresAt entry)
  ∧ expiry = entry_expiresAt entry + 5000.

Definition entries_ok (w : World) : Prop :=
  ∀ rideId entry expiry,
    ride_offer (redis w) !! rideId = Some (entry, expiry) →
    entry_ok (ride_requests (pg w)) (driver_offers (pg w)) rideId entry expiry.
End OfferSpec.

(** ** Vocabulary for invariants of the services

    [preserves I m]: the computation [m] keeps the invariant [I], whether it
    returns or throws.  [written_status] lists the values the services write
    to [ride_requests.status]. *)
Module InvSpec.
Definition preserves {A} (I : World → Prop) (m : M A) : Prop :=
  ∀ w, I w → I (snd (m w)).

Definition written_status (s : RideStatus.t) : bool :=
  match s with
  | RideStatus.MATCHING | RideStatus.NO_DRIVERS | RideStatus.ACCEPTED
  | RideStatus.EXPIRED | RideStatus.CANCELLED => true
  | RideStatus.PENDING | RideStatus.DRIVER_OFFERED | RideStatus.DECLINED
  | RideStatus.FAILED => false
  end.

Definition statuses_written (w : World) : Prop :=
  ∀ k row, ride_requests (pg w) !! k = Some row →
           written_status (status row) = true.
End InvSpec.

(** ** Ride details (src/services/dispatch.service.js, lines 264-301) *)
Module RideQueries.

(** [matchedDriver] of the details: the driver and status of the current
    offer. *)
Record CurrentOffer := {
  co_driverId : uuid;
  co_offerStatus : OfferStatus.t;
}.

(** The object returned by [getRideDetails] ([createdAt] is not modelled). *)
Record RideDetails := {
  rd_id : uuid;
  rd_riderId : uuid;
  rd_status : RideStatus.t;
  rd_pickup : Coord;
  rd_destination : Coord;
  rd_tier : Tier;
  rd_paymentMethod : PaymentMethod;
  rd_surgeMultiplier : Q;
  rd_estimatedFare : Q;
  rd_matchAttempts : Z;
  rd_matchedDriver : option CurrentOffer;
  rd_expiresAt : Z;
}.

(** SELECT rr.*, do.id, do.driver_id, do.status
    FROM ride_requests rr
    LEFT JOIN driver_offers do ON rr.current_driver_offer_id = do.id
    WHERE rr.id = $1. *)
Definition select_ride_with_offer (p : Postgres) (rideId : uuid)
    : list (RideRow * option OfferRow) :=
  match ride_requests p !! rideId with
  | None => []
  | Some rr =>
      match filter (λ o, current_driver_offer_id rr = Some (offer_id o))
                   (driver_offers p) with
      | [] => [(rr, None)]
      | o :: os => (λ o, (rr, Some o)) <$> (o :: os)
      end
  end.

(** [getRideDetails(rideId)]. *)
Definition getRideDetails (rideId : uuid) : M (option RideDetails) :=
  rows ← gets (λ w, select_ride_with_offer (pg w) rideId);
  match rows with
  | [] => mret None
  | (ride, offer) :: _ =>
      mret (Some
        {| rd_id := id ride;
           rd_riderId := rider_id ride;
           rd_status := status ride;
           rd_pickup := {| lat := pickup_lat ride; lng := pickup_lng ride |};
           rd_destination := {| lat := destination_lat ride;
                                lng := destination_lng ride |};
           rd_tier := tier ride;
           rd_paymentMethod := payment_method ride;
           rd_surgeMultiplier := surge_multiplier ride;
           rd_estimatedFare := estimated_fare ride;
           rd_matchAttempts := match_attempts ride;
           rd_matchedDriver :=
             (λ o, {| co_driverId := offer_driver_id o;
                      co_offerStatus := offer_status o |}) <$> offer;
           rd_expiresAt := expires_at ride |})
  end.
End RideQueries.

(** ** The other ride routes (src/controllers/ride.controller.js,
       src/routes/ride.routes.js) *)

(** The zod schema of the driver-response body (src/utils/validators.js). *)
Class ResponseWire `{Wire} := {
  driverResponseSchema : Body → option Dispatch.DriverResponse;
}.

Module RideRoutes.

Inductive Payload :=
| PDetails (d : RideQueries.RideDetails)
| PResponse (r : Dispatch.ResponseResult)
| PTimeout (t : Dispatch.TimeoutResult)
| PCancelled (c : RideController.CancelResult)
| PNotFound (error : string)
| PJson (j : Json).                 (* a body written by [errorHandler] *)

Record Reply := { code : Z; payload : Payload }.

(** [asyncHandler(fn)] for these handlers: a rejection is answered by
    [errorHandler]. *)
Definition asyncHandler (fn : M Reply) : M Reply := λ w,
  match fn w with
  | (Ok res, w') => (Ok res, w')
  | (Err err, w') =>
      (Ok {| code := statusCode (Http.errorHandler err);
             payload := PJson (body (Http.errorHandler err)) |}, w')
  end.

Section WithEnv.
Context `{Geodesy} `{ResponseWire}.

(** GET /api/v1/rides/:rideId. *)
Definition getRideDetails (rideId : uuid) : M Reply :=
  asyncHandler (
    ride ← RideQueries.getRideDetails rideId;
    match ride with
    | None => mret {| code := 404; payload := PNotFound "Ride not found" |}
    | Some d => mret {| code := 200; payload := PDetails d |}
    end).

(** POST /api/v1/rides/:rideId/driver-response. *)
Definition handleDriverResponse (rideId : uuid) (reqBody : Body) : M Reply :=
  asyncHandler (
    match driverResponseSchema reqBody with
    | None => throw (ZodError "")
    | Some data =>
        result ← Dispatch.handleDriverResponse rideId data;
        mret {| code := 200; payload := PResponse result |}
    end).

(** POST /api/v1/rides/:rideId/check-timeout. *)
Definition checkTimeout (rideId : uuid) : M Reply :=
  asyncHandler (
    result ← Dispatch.checkTimeout rideId;
    mret {| code := 200; payload := PTimeout result |}).

(** POST /api/v1/rides/:rideId/cancel. *)
Definition cancelRide (rideId : uuid) (reason : option string) : M Reply :=
  asyncHandler (
    result ← RideController.cancelRide rideId reason;
    mret {| code := 200; payload := PCancelled result |}).
End WithEnv.
End RideRoutes.

(** ** Further scenarios *)
Module Scenarios.
Import Scenario.

(** A second request for the same trip, under another idempotency key. *)
Definition second_input : Dispatch.RideInput :=
  {| Dispatch.in_riderId := R1;
     Dispatch.in_pickup := p1;
     Dispatch.in_destination := {| lat := 1298 # 100; lng := 7761 # 100 |};
     Dispatch.in_tier := ECONOMY;
     Dispatch.in_paymentMethod := CARD;
     Dispatch.in_idempotencyKey := "k2" |}.

(** The same trip in a PREMIUM vehicle. *)
Definition premium_input : Dispatch.RideInput :=
  {| Dispatch.in_riderId := R1;
     Dispatch.in_pickup := p1;
     Dispatch.in_destination := {| lat := 1298 # 100; lng := 7761 # 100 |};
     Dispatch.in_tier := PREMIUM;
     Dispatch.in_paymentMethod := CARD;
     Dispatch.in_idempotencyKey := "k2" |}.

(** A test double for the driver-response schema over [plain_wire]: the
    bodies "accept" and "decline" are [D1]'s answers. *)
#[global] Instance plain_response_wire : ResponseWire := {|
  driverResponseSchema b :=
    if bool_decide (b = "accept") then Some (accept_by D1)
    else if bool_decide (b = "decline") then Some (decline_by D1)
    else None;
|}.

(** The request of the scenario was posted under the key "k1"; a little more
    than 24 hours have passed since. *)
Definition day_later : World :=
  run [Tick 86400001]
    (snd (RideController.post_rides (post_ride "k1" "ride") two_online)).

(** The operations that lead to [two_online]. *)
Definition two_online_ops : list Op :=
  [Heartbeat D1 (lat p1) (lng p1); SetDriverStatus D1 ONLINE;
   Heartbeat D2 (lat p2) (lng p2); SetDriverStatus D2 ONLINE].
End Scenarios.

(** ** Trips (src/services/trip.service.js)

    The trip service works on the table [trips] and publishes on the trip
    topics; it reads [ride_requests] and calls [updateDriverStatus].  Its
    state extends the [World] by the table (rows in insertion order) and by
    the log of trip events.  Numeric columns are taken to hold what was
    written (inputs within the precision of the columns); the INTEGER column
    [duration_minutes] rejects a value that is not a whole number. *)
Module TripStatus.
Inductive t := PENDING | STARTED | PAUSED | COMPLETED | CANCELLED.

Definition name (s : t) : string :=
  match s with
  | PENDING => "PENDING" | STARTED => "STARTED" | PAUSED => "PAUSED"
  | COMPLETED => "COMPLETED" | CANCELLED => "CANCELLED"
  end.

(** The transitions the service performs. *)
Inductive allowed : t → t → Prop :=
| start : allowed PENDING STARTED
| pause : allowed STARTED PAUSED
| resume : allowed PAUSED STARTED
| end_started : allowed STARTED COMPLETED
| end_paused : allowed PAUSED COMPLETED
| cancel_pending : allowed PENDING CANCELLED
| cancel_started : allowed STARTED CANCELLED
| cancel_paused : allowed PAUSED CANCELLED.

Definition final (s : t) : bool :=
  match s with
  | COMPLETED | CANCELLED => true
  | PENDING | STARTED | PAUSED => false
  end.
End TripStatus.

#[global] Instance TripStatus_eq_dec : EqDecision TripStatus.t.
Proof. solve_decision. Defined.

Inductive Canceller := RIDER | DRIVER | SYSTEM.

Module Trip.
#[local] Open Scope Q_scope.

(** A row of [trips] (scripts/init-db.sql). *)
Record TripRow := {
  trip_id : uuid;
  trip_ride_request_id : uuid;
  trip_driver_id : option uuid;
  trip_rider_id : uuid;
  trip_status : TripStatus.t;
  start_time : option Z;
  end_time : option Z;
  pause_time : option Z;
  total_pause_duration : Z;
  start_lat : option Q;
  start_lng : option Q;
  end_lat : option Q;
  end_lng : option Q;
  distance_km : option Q;
  duration_minutes : option Z;
  base_fare : option Q;
  distance_fare : option Q;
  time_fare : option Q;
  total_fare : option Q;
  trip_surge_multiplier : Q;
}.

(** The fare breakdown of [calculateFare]. *)
Record Fare := {
  baseFare : Q;
  distanceFare : Q;
  timeFare : Q;
  surgeMultiplier : Q;
  totalFare : Q;
}.

(** Events on the trip topics (src/events/topics.js). *)
Inductive TripEvent :=
| TRIP_CREATED (tripId rideRequestId : uuid) (driverId : option uuid) (riderId : uuid)
| TRIP_STARTED (tripId : uuid) (driverId : option uuid) (startTime : Z)
| TRIP_PAUSED (tripId : uuid) (pauseTime : Z) (reason : option string)
| TRIP_RESUMED (tripId : uuid) (totalPauseDuration : Z)
| TRIP_COMPLETED (tripId : uuid) (driverId : option uuid) (riderId : uuid)
    (fare : Q) (distanceKm durationMinutes : Q)
| TRIP_CANCELLED (tripId : uuid) (cancelledBy : Canceller) (reason : option string)
    (cancellationFee : Q).

Record TripWorld := {
  world : World;
  trips : list TripRow;
  trip_log : list TripEvent;
}.

(** The state-and-exception monad over [TripWorld]. *)
Definition T (A : Type) : Type := TripWorld → result A * TripWorld.

#[global] Instance T_ret : MRet T := λ A a tw, (Ok a, tw).
#[global] Instance T_bind : MBind T := λ A B f m tw,
  match m tw with
  | (Ok a, tw') => f a tw'
  | (Err e, tw') => (Err e, tw')
  end.

Definition throwT {A} (e : Error) : T A := λ tw, (Err e, tw).
Definition getsT {A} (f : TripWorld → A) : T A := λ tw, (Ok (f tw), tw).
Definition modifyT (f : TripWorld → TripWorld) : T unit := λ tw, (Ok tt, f tw).

(** A call into the services of the dispatch core. *)
Definition lift {A} (m : M A) : T A := λ tw,
  match m (world tw) with
  | (r, w') => (r, {| world := w'; trips := trips tw; trip_log := trip_log tw |})
  end.

Definition upd_trips (f : list TripRow → list TripRow) (tw : TripWorld)
    : TripWorld :=
  {| world := world tw; trips := f (trips tw); trip_log := trip_log tw |}.

Definition publishTripEvent (e : TripEvent) : T unit :=
  modifyT (λ tw, {| world := world tw; trips := trips tw;
                    trip_log := trip_log tw ++ [e] |}).

(** [calculateFare(distanceKm, durationMinutes, surgeMultiplier)],
    lines 328-343. *)
Definition calculateFare (distanceKm durationMinutes surgeMultiplier : Q) : Fare :=
  let baseFare := config.FARE_BASE in
  let distanceFare := Math.round (distanceKm * config.FARE_PER_KM * 100) / 100 in
  let timeFare := Math.round (durationMinutes * config.FARE_PER_MINUTE * 100) / 100 in
  let subtotal := baseFare + distanceFare + timeFare in
  let totalFare := Math.round (subtotal * surgeMultiplier * 100) / 100 in
  {| baseFare := baseFare; distanceFare := distanceFare; timeFare := timeFare;
     surgeMultiplier := surgeMultiplier; totalFare := totalFare |}.

(** SELECT * FROM trips WHERE id = $1. *)
Definition select_trip (tripId : uuid) (t : list TripRow) : list TripRow :=
  filter (λ r, trip_id r = tripId) t.

(** [getTripById(tripId)], lines 348-381: the row, with its numeric columns
    parsed. *)
Definition getTripById (tripId : uuid) : T (option TripRow) :=
  result ← getsT (λ tw, select_trip tripId (trips tw));
  match result with
  | [] => mret None
  | trip :: _ => mret (Some trip)
  end.

(** UPDATE trips SET ... WHERE id = $n. *)
Definition update_trip (tripId : uuid) (set : TripRow → TripRow) : T unit :=
  modifyT (upd_trips (fmap (λ r, if bool_decide (trip_id r = tripId)
                                 then set r else r))).

(** INSERT INTO trips (id, ride_request_id, driver_id, rider_id, status,
    surge_multiplier): the primary key and UNIQUE (ride_request_id) are
    enforced. *)
Definition insert_trip (tripId rideRequestId : uuid) (driverId : option uuid)
    (riderId : uuid) (surge : Q) : T unit := λ tw,
  if bool_decide (Exists (λ r, trip_id r = tripId
                               ∨ trip_ride_request_id r = rideRequestId)
                    (trips tw))
  then (Err (DbError "23505"), tw)
  else (Ok tt, upd_trips (λ t, t ++
          [{| trip_id := tripId; trip_ride_request_id := rideRequestId;
              trip_driver_id := driverId; trip_rider_id := riderId;
              trip_status := TripStatus.PENDING;
              start_time := None; end_time := None; pause_time := None;
              total_pause_duration := 0;
              start_lat := None; start_lng := None;
              end_lat := None; end_lng := None;
              distance_km := None; duration_minutes := None;
              base_fare := None; distance_fare := None; time_fare := None;
              total_fare := None;
              trip_surge_multiplier := surge |}]) tw).

(** [driverLocationService.updateDriverStatus(trip.driverId, status)]; with a
    NULL driver the hash and the event are written under the key of no
    driver. *)
Definition updateTripDriver (driverId : option uuid) (s : DriverStatus) : T unit :=
  match driverId with
  | Some d => lift (DriverLocation.updateDriverStatus d s);; mret tt
  | None => mret tt
  end.

(** *** SET clauses *)
Definition set_started (now : Z) (startLat startLng : Q) (r : TripRow) : TripRow :=
  {| trip_id := trip_id r; trip_ride_request_id := trip_ride_request_id r;
     trip_driver_id := trip_driver_id r; trip_rider_id := trip_rider_id r;
     trip_status := TripStatus.STARTED;
     start_time := Some now; end_time := end_time r; pause_time := pause_time r;
     total_pause_duration := total_pause_duration r;
     start_lat := Some startLat; start_lng := Some startLng;
     end_lat := end_lat r; end_lng := end_lng r;
     distance_km := distance_km r; duration_minutes := duration_minutes r;
     base_fare := base_fare r; distance_fare := distance_fare r;
     time_fare := time_fare r; total_fare := total_fare r;
     trip_surge_multiplier := trip_surge_multiplier r |}.

Definition set_paused (now : Z) (r : TripRow) : TripRow :=
  {| trip_id := trip_id r; trip_ride_request_id := trip_ride_request_id r;
     trip_driver_id := trip_driver_id r; trip_rider_id := trip_rider_id r;
     trip_status := TripStatus.PAUSED;
     start_time := start_time r; end_time := end_time r; pause_time := Some now;
     total_pause_duration := total_pause_duration r;
     start_lat := start_lat r; start_lng := start_lng r;
     end_lat := end_lat r; end_lng := end_lng r;
     distance_km := distance_km r; duration_minutes := duration_minutes r;
     base_fare := base_fare r; distance_fare := distance_fare r;
     time_fare := time_fare r; total_fare := total_fare r;
     trip_surge_multiplier := trip_surge_multiplier r |}.

Definition set_resumed (totalPauseDuration : Z) (r : TripRow) : TripRow :=
  {| trip_id := trip_id r; trip_ride_request_id := trip_ride_request_id r;
     trip_driver_id := trip_driver_id r; trip_rider_id := trip_rider_id r;
     trip_status := TripStatus.STARTED;
     start_time := start_time r; end_time := end_time r; pause_time := None;
     total_pause_duration := totalPauseDuration;
     start_lat := start_lat r; start_lng := start_lng r;
     end_lat := end_lat r; end_lng := end_lng r;
     distance_km := distance_km r; duration_minutes := duration_minutes r;
     base_fare := base_fare r; distance_fare := distance_fare r;
     time_fare := time_fare r; total_fare := total_fare r;
     trip_surge_multiplier := trip_surge_multiplier r |}.

Definition set_completed (now : Z) (endLat endLng distanceKm : Q)
    (durationMinutes : Z) (fare : Fare) (r : TripRow) : TripRow :=
  {| trip_id := trip_id r; trip_ride_request_id := trip_ride_request_id r;
     trip_driver_id := trip_driver_id r; trip_rider_id := trip_rider_id r;
     trip_status := TripStatus.COMPLETED;
     start_time := start_time r; end_time := Some now; pause_time := pause_time r;
     total_pause_duration := total_pause_duration r;
     start_lat := start_lat r; start_lng := start_lng r;
     end_lat := Some endLat; end_lng := Some endLng;
     distance_km := Some distanceKm; duration_minutes := Some durationMinutes;
     base_fare := Some (baseFare fare); distance_fare := Some (distanceFare fare);
     time_fare := Some (timeFare fare); total_fare := Some (totalFare fare);
     trip_surge_multiplier := trip_surge_multiplier r |}.

Definition set_cancelled (r : TripRow) : TripRow :=
  {| trip_id := trip_id r; trip_ride_request_id := trip_ride_request_id r;
     trip_driver_id := trip_driver_id r; trip_rider_id := trip_rider_id r;
     trip_status := TripStatus.CANCELLED;
     start_time := start_time r; end_time := end_time r; pause_time := pause_time r;
     total_pause_duration := total_pause_duration r;
     start_lat := start_lat r; start_lng := start_lng r;
     end_lat := end_lat r; end_lng := end_lng r;
     distance_km := distance_km r; duration_minutes := duration_minutes r;
     base_fare := base_fare r; distance_fare := distance_fare r;
     time_fare := time_fare r; total_fare := total_fare r;
     trip_surge_multiplier := trip_surge_multiplier r |}.

(** *** Replies *)
Inductive CreatedTrip :=
| Existing (trip : option TripRow)       (* the stored trip of the ride *)
| Created (id rideRequestId : uuid) (driverId : option uuid) (riderId : uuid).

Inductive TripReply :=
| Started (id : uuid) (startTime : Z) (startLat startLng : Q)
| Paused (id : uuid) (pauseTime : Z)
| Resumed (id : uuid) (totalPauseDuration : Z)
| Completed (id : uuid) (endTime : Z) (distanceKm durationMinutes : Q) (fare : Fare)
| Cancelled (id : uuid) (cancellationFee : Q) (cancelledBy : Canceller)
    (reason : option string).

Definition CANCELLATION_FEE : Q := 50.        (* config.CANCELLATION_FEE *)

(** [createTrip(rideRequestId)], lines 17-63. *)
Definition createTrip (rideRequestId : uuid) : T CreatedTrip :=
  rideResult ← getsT (λ tw,
    match ride_requests (pg (world tw)) !! rideRequestId with
    | Some ride =>
        if bool_decide (status ride = RideStatus.ACCEPTED) then [ride] else []
    | None => []
    end);
  match rideResult with
  | [] => throwT (JsError "Invalid or unaccepted ride request")
  | ride :: _ =>
      existingTrip ← getsT (λ tw,
        filter (λ r, trip_ride_request_id r = rideRequestId) (trips tw));
      match existingTrip with
      | existing :: _ =>
          trip ← getTripById (trip_id existing);
          mret (Existing trip)
      | [] =>
          tripId ← lift uuidv4;
          insert_trip tripId rideRequestId (driver_id ride) (rider_id ride)
            (surge_multiplier ride);;
          publishTripEvent
            (TRIP_CREATED tripId rideRequestId (driver_id ride) (rider_id ride));;
          mret (Created tripId rideRequestId (driver_id ride) (rider_id ride))
      end
  end.

(** [startTrip(tripId, {startLat, startLng})], lines 68-106. *)
Definition startTrip (tripId : uuid) (startLat startLng : Q) : T TripReply :=
  trip ← getTripById tripId;
  match trip with
  | None => throwT (JsError "Trip not found")
  | Some trip =>
      if bool_decide (trip_status trip ≠ TripStatus.PENDING)
      then throwT (JsError ("Cannot start trip in "
                            +:+ TripStatus.name (trip_status trip) +:+ " status"))
      else
        startTime ← lift Date_now;
        update_trip tripId (set_started startTime startLat startLng);;
        updateTripDriver (trip_driver_id trip) ON_TRIP;;
        publishTripEvent (TRIP_STARTED tripId (trip_driver_id trip) startTime);;
        mret (Started tripId startTime startLat startLng)
  end.

(** [pauseTrip(tripId, reason)], lines 111-136. *)
Definition pauseTrip (tripId : uuid) (reason : option string) : T TripReply :=
  trip ← getTripById tripId;
  match trip with
  | None => throwT (JsError "Trip not found")
  | Some trip =>
      if bool_decide (trip_status trip ≠ TripStatus.STARTED)
      then throwT (JsError ("Cannot pause trip in "
                            +:+ TripStatus.name (trip_status trip) +:+ " status"))
      else
        pauseTime ← lift Date_now;
        update_trip tripId (set_paused pauseTime);;
        publishTripEvent (TRIP_PAUSED tripId pauseTime reason);;
        mret (Paused tripId pauseTime)
  end.

(** [resumeTrip(tripId)], lines 141-174. *)
Definition resumeTrip (tripId : uuid) : T TripReply :=
  tripResult ← getsT (λ tw, select_trip tripId (trips tw));
  match tripResult with
  | [] => throwT (JsError "Trip not found")
  | trip :: _ =>
      if bool_decide (trip_status trip ≠ TripStatus.PAUSED)
      then throwT (JsError ("Cannot resume trip in "
                            +:+ TripStatus.name (trip_status trip) +:+ " status"))
      else
        now ← lift Date_now;
        let pauseDuration :=
          match pause_time trip with
          | Some p => ((now - p) `div` 1000)%Z
          | None => 0%Z
          end in
        let totalPauseDuration := (total_pause_duration trip + pauseDuration)%Z in
        update_trip tripId (set_resumed totalPauseDuration);;
        publishTripEvent (TRIP_RESUMED tripId totalPauseDuration);;
        mret (Resumed tripId totalPauseDuration)
  end.

(** [endTrip(tripId, {endLat, endLng, distanceKm, durationMinutes})],
    lines 179-231. *)
Definition endTrip (tripId : uuid) (endLat endLng distanceKm durationMinutes : Q)
    : T TripReply :=
  tripResult ← getsT (λ tw, select_trip tripId (trips tw));
  match tripResult with
  | [] => throwT (JsError "Trip not found")
  | trip :: _ =>
      if bool_decide (trip_status trip ≠ TripStatus.STARTED)
         && bool_decide (trip_status trip ≠ TripStatus.PAUSED)
      then throwT (JsError ("Cannot end trip in "
                            +:+ TripStatus.name (trip_status trip) +:+ " status"))
      else
        let fare :=
          calculateFare distanceKm durationMinutes (trip_surge_multiplier trip) in
        endTime ← lift Date_now;
        (if Qeq_bool (inject_Z (Qfloor durationMinutes)) durationMinutes
         then update_trip tripId
                (set_completed endTime endLat endLng distanceKm
                   (Qfloor durationMinutes) fare)
         else throwT (DbError "22P02"));;
        updateTripDriver (trip_driver_id trip) ONLINE;;
        publishTripEvent
          (TRIP_COMPLETED tripId (trip_driver_id trip) (trip_rider_id trip)
             (totalFare fare) distanceKm durationMinutes);;
        mret (Completed tripId endTime distanceKm durationMinutes fare)
  end.

(** [cancelTrip(tripId, {cancelledBy, reason})], lines 236-275. *)
Definition cancelTrip (tripId : uuid) (cancelledBy : Canceller)
    (reason : option string) : T TripReply :=
  trip ← getTripById tripId;
  match trip with
  | None => throwT (JsError "Trip not found")
  | Some trip =>
      if bool_decide (trip_status trip = TripStatus.COMPLETED)
         || bool_decide (trip_status trip = TripStatus.CANCELLED)
      then throwT (JsError ("Cannot cancel trip in "
                            +:+ TripStatus.name (trip_status trip) +:+ " status"))
      else
        let cancellationFee :=
          if bool_decide (trip_status trip = TripStatus.STARTED)
             || bool_decide (trip_status trip = TripStatus.PAUSED)
          then CANCELLATION_FEE else 0 in
        update_trip tripId set_cancelled;;
        updateTripDriver (trip_driver_id trip) ONLINE;;
        publishTripEvent (TRIP_CANCELLED tripId cancelledBy reason cancellationFee);;
        mret (Cancelled tripId cancellationFee cancelledBy reason)
  end.

(** *** The trip API as a transition system over [TripWorld] *)
Inductive TripOp :=
| Core (op : Op)                       (* an operation of the dispatch API *)
| CreateTrip (rideRequestId : uuid)
| StartTrip (tripId : uuid) (startLat startLng : Q)
| PauseTrip (tripId : uuid) (reason : option string)
| ResumeTrip (tripId : uuid)
| EndTrip (tripId : uuid) (endLat endLng distanceKm durationMinutes : Q)
| CancelTrip (tripId : uuid) (cancelledBy : Canceller) (reason : option string).

Section Machine.
Context `{Geodesy}.

Definition exec_trip (op : TripOp) (tw : TripWorld) : TripWorld :=
  match op with
  | Core op =>
      {| world := exec op (world tw); trips := trips tw;
         trip_log := trip_log tw |}
  | CreateTrip rideRequestId => snd (createTrip rideRequestId tw)
  | StartTrip tripId startLat startLng =>
      snd (startTrip tripId startLat startLng tw)
  | PauseTrip tripId reason => snd (pauseTrip tripId reason tw)
  | ResumeTrip tripId => snd (resumeTrip tripId tw)
  | EndTrip tripId endLat endLng distanceKm durationMinutes =>
      snd (endTrip tripId endLat endLng distanceKm durationMinutes tw)
  | CancelTrip tripId cancelledBy reason =>
      snd (cancelTrip tripId cancelledBy reason tw)
  end.

Definition run_trips (ops : list TripOp) (tw : TripWorld) : TripWorld :=
  foldl (λ tw op, exec_trip op tw) tw ops.
End Machine.

(** No trip yet. *)
Definition no_trips (w : World) : TripWorld :=
  {| world := w; trips := []; trip_log := [] |}.
End Trip.

(** ** Vocabulary for the trip table *)
Module TripSpec.
Import Trip.

(** The integrity constraints of [trips]: the primary key and
    UNIQUE (ride_request_id). *)
Definition wf_trips (t : list TripRow) : Prop :=
  NoDup (trip_id <$> t) ∧ NoDup (trip_ride_request_id <$> t).

(** What an operation may do to a stored trip: nothing, or one transition of
    its status; the trip keeps its id, ride and driver. *)
Definition row_step (r r' : TripRow) : Prop :=
  trip_id r' = trip_id r
  ∧ trip_ride_request_id r' = trip_ride_request_id r
  ∧ trip_driver_id r' = trip_driver_id r
  ∧ trip_surge_multiplier r' = trip_surge_multiplier r
  ∧ (r' = r ∨ TripStatus.allowed (trip_status r) (trip_status r')).

(** What an operation may do to the table: step its rows, and append
    PENDING trips. *)
Definition table_step (t t' : list TripRow) : Prop :=
  ∃ pre more, t' = pre ++ more
    ∧ Forall2 row_step t pre
    ∧ Forall (λ r, trip_status r = TripStatus.PENDING) more.
End TripSpec.

(** ** A trip scenario

    The ride of [Scenario.accepted] becomes a trip; the first uuid drawn
    after the ride and its offer names the trip. *)
Module TripScenario.
Import Trip.

Definition trip : uuid := 102%nat.

(** The trip was created from the accepted ride. *)
Definition created : TripWorld :=
  run_trips [CreateTrip Scenario.ride_id] (no_trips Scenario.accepted).

(** The driver picked the rider up. *)
Definition started : TripWorld :=
  run_trips [CreateTrip Scenario.ride_id;
             StartTrip trip (lat Scenario.p1) (lng Scenario.p1)]
            (no_trips Scenario.accepted).
End TripScenario.


(** ** Rate limiting (src/middleware/rate-limiter.js)

    The limiter keeps one Redis sorted set per client, [ratelimit:{client}],
    whose members are the admitted requests scored by their instant.  The
    sorted sets live in a store of their own: no other module reads or writes
    the [ratelimit:] keys.  A sorted set is the list of its (member, score)
    pairs, in the order in which the members were added; the commands used
    here ([ZREMRANGEBYSCORE], [ZCARD], [ZADD], [EXPIRE]) do not depend on the
    order.  A key that has reached its expiry does not exist; a sorted set
    that loses its last member is deleted with its expiry.

    [Date.now()] and the Redis server read the same clock.  [Math.random()]
    is an input of the middleware: the string its value is rendered to.  The
    Redis commands do not fail, so the [catch] branch (log the error and let
    the request through) is not reached. *)
Module RateLimiter.

(** Defaults of src/config.js. *)
Definition RATE_LIMIT_WINDOW_MS : Z := 60000.
Definition RATE_LIMIT_MAX_REQUESTS : Z := 1000.

(** What the key generators read of a request. *)
Record Req := {
  ip : option string;
  x_forwarded_for : option string
}.

(** [a || b] on a value that is a string or undefined: the empty string is
    falsy. *)
Definition or_else (a : option string) (b : string) : string :=
  match a with
  | Some s => if bool_decide (s = "") then b else s
  | None => b
  end.

Record Options := {
  windowMs : Z;
  max : Z;
  keyGenerator : Req → string;
  message : string
}.

(** [rateLimiter()] without options. *)
Definition default_options : Options :=
  {| windowMs := RATE_LIMIT_WINDOW_MS;
     max := RATE_LIMIT_MAX_REQUESTS;
     keyGenerator := λ req,
       or_else (ip req) (or_else (x_forwarded_for req) "unknown");
     message := "Too many requests, please try again later" |}.

(** [createEndpointLimiter(endpoint, max, windowMs)]: the options it passes
    to [rateLimiter]. *)
Definition createEndpointLimiter (endpoint : string) (max windowMs : Z) : Options :=
  {| windowMs := windowMs;
     max := max;
     keyGenerator := λ req, endpoint +:+ ":" +:+ or_else (ip req) "unknown";
     message := "Too many requests, please try again later" |}.

Record ZSet := {
  entries : list (string * Z);
  expireAt : option Z
}.

Record Store := {
  zsets : gmap string ZSet;
  now : Z
}.

Definition empty_store : Store := {| zsets := ∅; now := 0 |}.

(** A sorted set read at instant [t]: gone once its expiry is reached. *)
Definition unexpired (t : Z) (z : ZSet) : option ZSet :=
  match expireAt z with
  | Some e => if bool_decide (e ≤ t) then None else Some z
  | None => Some z
  end.

(** The sorted set under [key], unless the key has expired. *)
Definition lookup_live (key : string) (s : Store) : option ZSet :=
  zsets s !! key ≫= unexpired (now s).

(** Its members and scores; none when the key does not exist. *)
Definition live (s : Store) (key : string) : list (string * Z) :=
  match lookup_live key s with
  | Some z => entries z
  | None => []
  end.

Definition store (key : string) (z : option ZSet) (s : Store) : Store :=
  {| zsets := match z with
              | Some z => <[key := z]> (zsets s)
              | None => delete key (zsets s)
              end;
     now := now s |}.

(** ZREMRANGEBYSCORE key lo hi: both bounds are inclusive. *)
Definition zremrangebyscore (key : string) (lo hi : Z) (s : Store) : Store :=
  match lookup_live key s with
  | Some z =>
      match filter (λ e, ¬ (lo ≤ e.2 ≤ hi)) (entries z) with
      | [] => store key None s
      | rest => store key (Some {| entries := rest; expireAt := expireAt z |}) s
      end
  | None => s
  end.

Definition zcard (key : string) (s : Store) : Z :=
  match lookup_live key s with
  | Some z => Z.of_nat (length (entries z))
  | None => 0
  end.

(** ZADD key score member: a member that is already in the set only gets the
    new score. *)
Definition zadd (key : string) (score : Z) (member : string) (s : Store) : Store :=
  let z := default {| entries := []; expireAt := None |} (lookup_live key s) in
  store key
    (Some {| entries := filter (λ e, e.1 ≠ member) (entries z) ++ [(member, score)];
             expireAt := expireAt z |}) s.

(** EXPIRE key seconds: a timeout that is not positive deletes the key. *)
Definition expire (key : string) (seconds : Z) (s : Store) : Store :=
  match lookup_live key s with
  | Some z =>
      store key
        (if bool_decide (seconds ≤ 0) then None
         else Some {| entries := entries z;
                      expireAt := Some (now s + seconds * 1000) |}) s
  | None => s
  end.

(** [Math.ceil(windowMs / 1000)]. *)
Definition ceil_seconds (ms : Z) : Z := - ((- ms) `div` 1000).

(** The two ways the middleware ends: the 429 response with its headers and
    body, or [next()] with the two headers set. *)
Inductive Outcome :=
| TooMany (retryAfter limit remaining : Z) (message : string)
| Next (limit remaining : Z).

Definition member_of (now : Z) (random : string) : string :=
  pretty now +:+ "-" +:+ random.

Definition rateLimiter (o : Options) (req : Req) (random : string)
    (s : Store) : Outcome * Store :=
  let key := "ratelimit:" +:+ keyGenerator o req in
  let now := now s in
  let windowStart := now - windowMs o in
  let s := zremrangebyscore key 0 windowStart s in
  let count := zcard key s in
  if bool_decide (max o ≤ count) then
    (TooMany (ceil_seconds (windowMs o)) (max o) 0 (message o), s)
  else
    let s := zadd key now (member_of now random) s in
    let s := expire key (ceil_seconds (windowMs o)) s in
    (Next (max o) (max o - count - 1), s).

(** *** Traffic

    A client's traffic: requests, and time passing between them.
    [admissions] lists the requests the limiter lets through, with the key
    they were counted under, their instant and the member they were recorded
    as; [generated] lists the members of all requests. *)
Inductive Traffic :=
| Wait (ms : Z)
| Hit (req : Req) (random : string).

Definition wait (ms : Z) (s : Store) : Store :=
  {| zsets := zsets s; now := now s + Z.max 0 ms |}.

Record Admission := {
  adm_key : string;
  adm_at : Z;
  adm_member : string
}.

Definition admission (o : Options) (req : Req) (random : string)
    (s : Store) : list Admission :=
  match (rateLimiter o req random s).1 with
  | Next _ _ =>
      [{| adm_key := "ratelimit:" +:+ keyGenerator o req;
          adm_at := now s;
          adm_member := member_of (now s) random |}]
  | TooMany _ _ _ _ => []
  end.

Fixpoint admissions (o : Options) (ops : list Traffic) (s : Store) : list Admission :=
  match ops with
  | [] => []
  | Wait ms :: ops => admissions o ops (wait ms s)
  | Hit req random :: ops =>
      admission o req random s
      ++ admissions o ops (rateLimiter o req random s).2
  end.

(** The store after the traffic. *)
Fixpoint serve (o : Options) (ops : list Traffic) (s : Store) : Store :=
  match ops with
  | [] => s
  | Wait ms :: ops => serve o ops (wait ms s)
  | Hit req random :: ops => serve o ops (rateLimiter o req random s).2
  end.

Fixpoint generated (ops : list Traffic) (now : Z) : list string :=
  match ops with
  | [] => []
  | Wait ms :: ops => generated ops (now + Z.max 0 ms)
  | Hit _ random :: ops => member_of now random :: generated ops now
  end.

(** The admissions counted under [key] in the window [(t - width, t]]. *)
Definition in_window (key : string) (width t : Z) (log : list Admission) : list Admission :=
  filter (λ a, adm_key a = key ∧ t - width < adm_at a ≤ t) log.
End RateLimiter.

(** ** Vocabulary for the rate limiter

    [inv o s log]: the store [s] of a limiter with options [o] agrees with
    the admissions [log] made so far.  The admissions are not in the future;
    a live sorted set holds admitted members with scores between 0 and now,
    and outlives each of its members by the window at least; the members
    scored after an instant [c] inside the window are as many as the
    admissions after [c]; and every window holds at most [max] admissions. *)
Module RateSpec.
Import RateLimiter.

Definition bound (o : Options) (log : list Admission) : Prop :=
  ∀ key t, Z.of_nat (length (in_window key (windowMs o) t log)) ≤ Z.max 0 (max o).

Definition inv (o : Options) (s : Store) (log : list Admission) : Prop :=
  0 ≤ now s
  ∧ Forall (λ a, adm_at a ≤ now s) log
  ∧ (∀ key z, lookup_live key s = Some z →
       Forall (λ e, 0 ≤ e.2 ≤ now s ∧ e.1 ∈ adm_member <$> log) (entries z)
       ∧ ∀ e, expireAt z = Some e →
              Forall (λ x, x.2 + windowMs o ≤ e) (entries z))
  ∧ (∀ key c, now s - windowMs o ≤ c →
       length (filter (λ e, c < e.2) (live s key))
       = length (filter (λ a, adm_key a = key ∧ c < adm_at a) log))
  ∧ bound o log.
End RateSpec.

(** ** A client of the rate limiter

    One client behind a limiter of two requests per second sends three
    requests in the same millisecond, and a fourth one a second later. *)
Module RateScenario.
Import RateLimiter.

Definition client : Req := {| ip := Some "10.0.0.7"; x_forwarded_for := None |}.

Definition two_per_second : Options :=
  {| windowMs := 1000;
     max := 2;
     keyGenerator := keyGenerator default_options;
     message := message default_options |}.

Definition burst : list Traffic :=
  [Hit client "0.11"; Hit client "0.52"; Hit client "0.93"; Wait 1000;
   Hit client "0.24"].

(** The store after the first request of the burst. *)
Definition after_first : Store :=
  (rateLimiter two_per_second client "0.11" empty_store).2.
End RateScenario.


(** * Properties *)

(** ** Surge multiplier *)
Section SurgeFacts.
#[local] Open Scope Q_scope.

Lemma clamp_bounds (x : Q) : 1 <= Math.min 3 (Math.max 1 x) <= 3.
Proof.
  unfold Math.min, Math.max. split.
  - apply Q.min_glb; [discriminate | apply Q.le_max_l].
  - apply Q.le_min_l.
Qed.

Lemma clamp_code_spec (x : Q) : Math.min 3 (Math.max 1 x) == Surge.clamp x 1 3.
Proof.
  unfold Math.min, Math.max, Surge.clamp.
  destruct (Qlt_le_dec x 1) as [Hx|Hx].
  - rewrite (Q.max_l 1 x) by (apply Qlt_le_weak; exact Hx).
    apply Q.min_r. discriminate.
  - rewrite (Q.max_r 1 x) by exact Hx.
    destruct (Qlt_le_dec 3 x) as [Hy|Hy].
    + apply Q.min_l. apply Qlt_le_weak. exact Hy.
    + apply Q.min_r. exact Hy.
Qed.

Lemma round_tenths_bounds (c : Q) :
  1 <= c <= 3 → (10 <= Qfloor (c * 10 + (1 # 2)) <= 30)%Z.
Proof.
  intros [Hlo Hhi]. split.
  - change 10%Z with (Qfloor (1 * 10 + (1 # 2))).
    apply Qfloor_resp_le. apply Qplus_le_compat; [|apply Qle_refl].
    apply Qmult_le_compat_r; [exact Hlo | discriminate].
  - change 30%Z with (Qfloor (3 * 10 + (1 # 2))).
    apply Qfloor_resp_le. apply Qplus_le_compat; [|apply Qle_refl].
    apply Qmult_le_compat_r; [exact Hhi | discriminate].
Qed.

Lemma tenths_in_range (k : Z) :
  (10 <= k <= 30)%Z → 1 <= inject_Z k / 10 <= 3.
Proof.
  intros [Hlo Hhi]. split.
  - apply Qle_shift_div_l; [reflexivity|].
    change (1 * 10) with (inject_Z 10). rewrite <- Zle_Qle. exact Hlo.
  - apply Qle_shift_div_r; [reflexivity|].
    change (3 * 10) with (inject_Z 30). rewrite <- Zle_Qle. exact Hhi.
Qed.

(** The multiplier in the general branch, as the code computes it. *)
Lemma computeSurgeMultiplier_general (supply demand : Q) :
  ¬ supply == 0 →
  Surge.computeSurgeMultiplier supply demand =
  Math.round (Math.min 3 (Math.max 1 (1 + (demand / supply - 1) * (5 # 10))) * 10) / 10.
Proof.
  intros Hs. unfold Surge.computeSurgeMultiplier.
  destruct (Qeq_bool supply 0) eqn:E.
  - apply Qeq_bool_iff in E. contradiction.
  - reflexivity.
Qed.

(** Every result is [k / 10] for an integer [k] between 10 and 30. *)
Lemma computeSurgeMultiplier_tenths (supply demand : Q) :
  ∃ k : Z, (10 <= k <= 30)%Z ∧
           Surge.computeSurgeMultiplier supply demand == inject_Z k / 10.
Proof.
  destruct (Qeq_bool supply 0) eqn:E.
  - unfold Surge.computeSurgeMultiplier. rewrite E.
    destruct (Qeq_bool demand 0); simpl.
    + exists 10%Z. split; [lia | reflexivity].
    + exists 30%Z. split; [lia | reflexivity].
  - assert (Hs : ¬ supply == 0).
    { intros Hs. apply Qeq_bool_iff in Hs. congruence. }
    rewrite (computeSurgeMultiplier_general _ _ Hs).
    eexists. split; [|unfold Math.round; reflexivity].
    apply round_tenths_bounds, clamp_bounds.
Qed.

(** The binary64 computation returns the same decimal as the rational model
    for all counts up to 60 drivers and 400 requests. *)
Lemma computeSurgeMultiplier_f64_agrees : SurgeF64.agree_upto 60 400 = true.
Proof. vm_compute. reflexivity. Qed.

(** The boundary cases of the specification, evaluated in binary64. *)
Lemma computeSurgeMultiplier_f64_boundaries :
  SurgeF64.computeSurgeMultiplier 0 0 = 1%float
  ∧ SurgeF64.computeSurgeMultiplier 0 1 = 3%float
  ∧ SurgeF64.computeSurgeMultiplier 10 10 = 1%float
  ∧ SurgeF64.computeSurgeMultiplier 1 100 = 3%float.
Proof. repeat split; vm_compute; reflexivity. Qed.

(** C6: [computeSurgeMultiplier(supply, demand)] is the clamped, smoothed
    ratio rounded to one decimal when supply is positive, 1.0 for an idle cell
    and 3.0 for demand without supply; (10, 10) gives 1.0 and (1, 100) gives
    3.0; every result lies in [1.0, 3.0] and is a multiple of 0.1.  The
    binary64 computation returns the same decimals at the boundary cases and
    on all counts up to 60 drivers and 400 requests. *)
Theorem computeSurgeMultiplier_spec (supply demand : Q) :
  (0 < supply →
     Surge.computeSurgeMultiplier supply demand == Surge.surge_formula supply demand)
  ∧ (supply == 0 → demand == 0 → Surge.computeSurgeMultiplier supply demand == 1)
  ∧ (supply == 0 → 0 < demand → Surge.computeSurgeMultiplier supply demand == 3)
  ∧ Surge.computeSurgeMultiplier 10 10 == 1
  ∧ Surge.computeSurgeMultiplier 1 100 == 3
  ∧ 1 <= Surge.computeSurgeMultiplier supply demand <= 3
  ∧ (∃ k : Z, Surge.computeSurgeMultiplier supply demand == inject_Z k * (1 # 10))
  ∧ SurgeF64.computeSurgeMultiplier 0 0 = 1%float
  ∧ SurgeF64.computeSurgeMultiplier 0 1 = 3%float
  ∧ SurgeF64.computeSurgeMultiplier 10 10 = 1%float
  ∧ SurgeF64.computeSurgeMultiplier 1 100 = 3%float
  ∧ SurgeF64.agree_upto 60 400 = true.
Proof.
  refine (conj _ (conj _ (conj _ (conj _ (conj _ (conj _ (conj _ _))))))).
  - intros Hs.
    assert (Hne : ¬ supply == 0).
    { intros E. rewrite E in Hs. discriminate. }
    rewrite (computeSurgeMultiplier_general _ _ Hne).
    unfold Surge.surge_formula, Surge.round_to_one_decimal, Math.round.
    assert (Hc := clamp_code_spec (1 + (demand / supply - 1) * (1 # 2))).
    assert (Hm : 1 + (demand / supply - 1) * (5 # 10)
                 == 1 + (demand / supply - 1) * (1 # 2)).
    { apply Qplus_comp; [reflexivity|]. apply Qmult_comp; reflexivity. }
    unfold Math.min, Math.max in *.
    rewrite Hm, Hc. reflexivity.
  - intros Hs Hd. unfold Surge.computeSurgeMultiplier.
    apply Qeq_bool_iff in Hs, Hd. rewrite Hs, Hd. reflexivity.
  - intros Hs Hd. unfold Surge.computeSurgeMultiplier.
    apply Qeq_bool_iff in Hs. rewrite Hs.
    destruct (Qeq_bool demand 0) eqn:E; [|reflexivity].
    apply Qeq_bool_iff in E. rewrite E in Hd. discriminate.
  - reflexivity.
  - reflexivity.
  - destruct (computeSurgeMultiplier_tenths supply demand) as (k & Hk & ->).
    apply tenths_in_range. exact Hk.
  - destruct (computeSurgeMultiplier_tenths supply demand) as (k & _ & Hk).
    exists k. rewrite Hk. reflexivity.
  - destruct computeSurgeMultiplier_f64_boundaries as (H00 & H01 & H1010 & H1100).
    refine (conj H00 (conj H01 (conj H1010 (conj H1100 _)))).
    apply computeSurgeMultiplier_f64_agrees.
Qed.

End SurgeFacts.

(** ** Proximity query *)
Section NearbyFacts.
Context `{Geodesy}.
Import DriverLocation NearbySpec.
#[local] Open Scope Q_scope.

#[local] Instance by_distance_total : Total by_distance.
Proof.
  intros a b. unfold by_distance.
  destruct (Qlt_le_dec (g_distance b) (g_distance a)) as [Hlt|Hle].
  - right. apply Qlt_le_weak. exact Hlt.
  - left. exact Hle.
Qed.

#[local] Instance by_distance_trans : Transitive by_distance.
Proof. intros a b c. unfold by_distance. apply Qle_trans. Qed.



(** The loop skips a candidate that fails the filter. *)
Lemma collect_skip (r : Redis) (now : Z) (vehicleType : option Tier) (limit : Z)
    (g : GeoResult) (rest : list GeoResult) (acc : list NearbyDriver) :
  ¬ eligible r now vehicleType (g_member g) →
  collect r now vehicleType limit (g :: rest) acc
  = collect r now vehicleType limit rest acc.
Proof.
  intros He. simpl.
  destruct (presence_exists r now (g_member g)) eqn:Hp; [|reflexivity].
  simpl. destruct (meta_status (hgetall_meta r (g_member g))) as [s|] eqn:Hs;
    [|reflexivity].
  case_bool_decide as Hon; [reflexivity|].
  assert (s = ONLINE) as -> by (destruct (decide (s = ONLINE)); [done|contradiction]).
  destruct vehicleType as [t|].
  - case_bool_decide as Hv; [reflexivity|].
    exfalso. apply He. split; [exact Hp|]. split; [exact Hs|].
    destruct (decide (default ECONOMY
                (meta_vehicleType (hgetall_meta r (g_member g))) = t));
      [done|contradiction].
  - exfalso. apply He. split; [exact Hp|]. split; [exact Hs|]. exact I.
Qed.

(** The loop pushes a candidate that passes the filter, and breaks when the
    list has reached [limit]. *)
Lemma collect_push (r : Redis) (now : Z) (vehicleType : option Tier) (limit : Z)
    (g : GeoResult) (rest : list GeoResult) (acc : list NearbyDriver) :
  eligible r now vehicleType (g_member g) →
  collect r now vehicleType limit (g :: rest) acc
  = if bool_decide (limit ≤ Z.of_nat (length (acc ++ [pushed r g])))%Z
    then acc ++ [pushed r g]
    else collect r now vehicleType limit rest (acc ++ [pushed r g]).
Proof.
  intros (Hp & Hs & Hv). simpl. rewrite Hp. simpl. unfold pushed. rewrite Hs.
  rewrite bool_decide_false by (intros ?; congruence).
  destruct vehicleType as [t|]; [|reflexivity].
  rewrite bool_decide_false by (intros Hne; apply Hne, Hv). reflexivity.
Qed.

(** The loop returns the first [limit] candidates that pass the filter. *)
Lemma collect_spec (r : Redis) (now : Z) (vehicleType : option Tier) (limit : Z)
    (results : list GeoResult) (acc : list NearbyDriver) :
  (Z.of_nat (length acc) < limit)%Z →
  collect r now vehicleType limit results acc =
  acc ++ take (Z.to_nat limit - length acc)
           (pushed r <$> filter (λ g, eligible r now vehicleType (g_member g)) results).
Proof.
  revert acc. induction results as [|g rest IH]; intros acc Hacc.
  - simpl. rewrite take_nil, app_nil_r. reflexivity.
  - rewrite filter_cons.
    destruct (decide (eligible r now vehicleType (g_member g))) as [He|He].
    + rewrite (collect_push _ _ _ _ _ _ _ He), fmap_cons.
      rewrite length_app. simpl length.
      case_bool_decide as Hfull.
      * replace (Z.to_nat limit - length acc)%nat with 1%nat by lia.
        simpl. rewrite take_0. reflexivity.
      * rewrite IH by (rewrite length_app; simpl; lia).
        rewrite length_app. simpl length. rewrite <- app_assoc. simpl.
        replace (Z.to_nat limit - length acc)%nat
          with (S (Z.to_nat limit - (length acc + 1)))%nat by lia.
        reflexivity.
    + rewrite (collect_skip _ _ _ _ _ _ _ He). apply IH, Hacc.
Qed.



(** For a limit of at least one the query succeeds, leaves the world as it
    is, and returns [nearest_eligible]. *)
Lemma findNearbyDrivers_eq (q : NearbyQuery) (w : World) :
  (1 ≤ q_limit q)%Z →
  findNearbyDrivers q w
  = (Ok {| drivers := nearest_eligible q w;
           count := Z.of_nat (length (nearest_eligible q w)) |}, w).
Proof.
  intros Hlimit.
  unfold findNearbyDrivers, georadius_asc_count.
  rewrite bool_decide_false by lia.
  rewrite collect_spec by (simpl; lia).
  simpl app. rewrite Nat.sub_0_r. reflexivity.
Qed.

End NearbyFacts.



(** ** Symbolic execution of the monad *)

(** Reduce store projections and field updates, leaving services folded. *)
Ltac wsimpl :=
  cbn [pg redis kafka clock next_uuid ride_requests driver_offers
       geo presence meta ride_offer demand surge surge_cells ride_lock idempotency
       upd_pg upd_redis upd_kafka upd_clock upd_next_uuid
       upd_ride_requests upd_driver_offers
       upd_geo upd_presence upd_meta upd_ride_offer upd_demand upd_surge
       upd_surge_cells upd_idempotency
       Dispatch.resp_action Dispatch.resp_driverId Dispatch.resp_reason
       DriverLocation.drivers DriverLocation.count driver matched
       fst snd] in *.

Ltac msimpl :=
  repeat (unfold mbind, M_bind, mret, M_ret, gets, modify, throw,
            Date_now, publishEvent, uuidv4 in *; cbn beta iota zeta in *);
  wsimpl.

#[local] Arguments DriverLocation.findNearbyDrivers : simpl never.
#[local] Arguments DriverLocation.updateDriverStatus : simpl never.
#[local] Arguments Dispatch.matchDriver : simpl never.
#[local] Arguments Dispatch.handleDriverResponse : simpl never.
#[local] Arguments Dispatch.createRideRequest : simpl never.
#[local] Arguments NearbySpec.nearest_eligible : simpl never.
#[local] Arguments NearbySpec.match_query : simpl never.

Section DispatchFacts.
Context `{Geodesy}.
Import DriverLocation NearbySpec Dispatch.

Lemma matchDriver_query (ride : RideRow) (region : string) (w : World) :
  findNearbyDrivers (match_query ride region) w
  = (Ok {| drivers := nearest_eligible (match_query ride region) w;
           count := Z.of_nat (length (nearest_eligible (match_query ride region) w)) |},
     w).
Proof. apply findNearbyDrivers_eq. simpl. lia. Qed.

Lemma matchDriver_none (ride : RideRow) (region : string) (w : World) :
  nearest_eligible (match_query ride region) w = [] →
  matchDriver ride region w
  = (Ok {| driver := None; matched := false |},
     upd_pg (upd_ride_requests (alter (set_status RideStatus.NO_DRIVERS) (id ride))) w).
Proof.
  intros Hnone. unfold matchDriver. fold (match_query ride region).
  unfold mbind at 1. unfold M_bind at 1.
  rewrite matchDriver_query. simpl drivers. rewrite Hnone. reflexivity.
Qed.

(** The offer row [matchDriver] inserts. *)
Lemma matchDriver_some (ride : RideRow) (region : string) (w : World)
    (d : NearbyDriver) (rest : list NearbyDriver) :
  nearest_eligible (match_query ride region) w = d :: rest →
  ¬ Exists (λ o, offer_id o = next_uuid w) (driver_offers (pg w)) →
  ∃ w', matchDriver ride region w
        = (Ok {| driver := Some {| md_driverId := driverId d;
                                   md_distanceKm := distanceKm d;
                                   md_eta := Math.ceil (distanceKm d * 2) |};
                 matched := true |}, w')
    ∧ ride_requests (pg w')
      = alter (set_current_offer (next_uuid w) (driverId d)) (id ride)
          (ride_requests (pg w))
    ∧ driver_offers (pg w')
      = driver_offers (pg w) ++
        [{| offer_id := next_uuid w; ride_request_id := id ride;
            offer_driver_id := driverId d;
            offer_status := OfferStatus.PENDING;
            responded_at := None; decline_reason := None;
            offer_expires_at := clock w + config.DRIVER_RESPONSE_TIMEOUT |}]
    ∧ redis w'
      = upd_ride_offer
          <[id ride := ({| entry_offerId := next_uuid w;
                           entry_driverId := driverId d;
                           entry_expiresAt :=
                             clock w + config.DRIVER_RESPONSE_TIMEOUT |},
                        clock w + 20000)]> (redis w)
    ∧ kafka w' = kafka w ++ [RIDE_MATCHED (id ride) (driverId d) (next_uuid w)
                               (distanceKm d)]
    ∧ clock w' = clock w
    ∧ next_uuid w' = S (next_uuid w).
Proof.
  intros Hsome Hfresh. unfold matchDriver. fold (match_query ride region).
  unfold mbind at 1. unfold M_bind at 1.
  rewrite matchDriver_query. simpl drivers. rewrite Hsome.
  msimpl. unfold insert_driver_offer. simpl.
  rewrite bool_decide_false by exact Hfresh.
  eexists. split; [reflexivity|]. simpl. repeat split.
Qed.

(** A clash of the drawn offer id with a stored one aborts the match after
    the draw. *)
Lemma matchDriver_conflict (ride : RideRow) (region : string) (w : World)
    (d : NearbyDriver) (rest : list NearbyDriver) :
  nearest_eligible (match_query ride region) w = d :: rest →
  Exists (λ o, offer_id o = next_uuid w) (driver_offers (pg w)) →
  matchDriver ride region w = (Err (DbError "23505"), upd_next_uuid S w).
Proof.
  intros Hsome Hclash. unfold matchDriver. fold (match_query ride region).
  unfold mbind at 1. unfold M_bind at 1.
  rewrite matchDriver_query. simpl drivers. rewrite Hsome.
  msimpl. unfold insert_driver_offer. simpl.
  rewrite bool_decide_true by exact Hclash. reflexivity.
Qed.

(** *** Frames *)

Lemma same_core_refl (w : World) : same_core w w.
Proof. unfold same_core. repeat split. Qed.

Lemma same_core_trans (w1 w2 w3 : World) :
  same_core w1 w2 → same_core w2 w3 → same_core w1 w3.
Proof.
  unfold same_core.
  intros (A1 & A2 & A3 & A4 & A5 & A6 & A7 & A8 & A9)
         (B1 & B2 & B3 & B4 & B5 & B6 & B7 & B8 & B9).
  repeat split; congruence.
Qed.

(** The proximity query reads the geo sets, the presence markers, the driver
    metadata and the clock, and nothing else. *)
Lemma nearest_eligible_frame (q : NearbyQuery) (w w' : World) :
  geo (redis w') = geo (redis w) →
  presence (redis w') = presence (redis w) →
  meta (redis w') = meta (redis w) →
  clock w' = clock w →
  nearest_eligible q w' = nearest_eligible q w.
Proof.
  intros Hgeo Hpres Hmeta Hclock.
  unfold nearest_eligible, in_radius, georadius. rewrite Hgeo, Hclock.
  f_equal.
  assert (Hm : ∀ d, hgetall_meta (redis w') d = hgetall_meta (redis w) d).
  { intros d. unfold hgetall_meta. rewrite Hmeta. reflexivity. }
  rewrite (list_filter_iff _
            (λ g, eligible (redis w) (clock w) (q_vehicleType q) (g_member g))).
  - apply list_fmap_ext. intros i g _. unfold pushed. rewrite Hm. reflexivity.
  - intros g. unfold eligible, presence_exists. rewrite Hpres, Hm. reflexivity.
Qed.

Lemma nearest_eligible_core (q : NearbyQuery) (w w' : World) :
  same_core w w' → nearest_eligible q w' = nearest_eligible q w.
Proof.
  intros (_ & Hc & _ & Hg & Hp & Hm & _). apply nearest_eligible_frame; assumption.
Qed.

(** The surge engine writes demand counters, the surge cache and events. *)
Lemma incrementDemand_ok (geoCell region : string) (w : World) :
  ∃ c w', SurgeService.incrementDemand geoCell region w = (Ok (geoCell, c), w')
          ∧ same_core w w'.
Proof.
  unfold SurgeService.incrementDemand. msimpl.
  case_bool_decide; eexists _, _; (split; [reflexivity|]);
    unfold same_core; wsimpl; repeat split.
Qed.

Lemma getSurgeForCell_ok (geoCell : string) (w : World) :
  ∃ d, SurgeService.getSurgeForCell geoCell w = (Ok d, w).
Proof.
  unfold SurgeService.getSurgeForCell. msimpl.
  destruct (surge (redis w) !! geoCell) as [[h expiry]|]; [|eexists; reflexivity].
  case_bool_decide; eexists; reflexivity.
Qed.

Lemma calculateSurge_ok (geoCell region : string) (latitude longitude : Q)
    (w : World) :
  ∃ d w', SurgeService.calculateSurge geoCell region latitude longitude w = (Ok d, w')
          ∧ same_core w w'.
Proof.
  unfold SurgeService.calculateSurge, SurgeService.getSupplyCount. msimpl.
  eexists _, _. split; [reflexivity|]. unfold same_core; wsimpl; repeat split.
Qed.

Lemma getSurgeForLocation_ok (latitude longitude : Q) (w : World) :
  ∃ d w', SurgeService.getSurgeForLocation latitude longitude w = (Ok d, w')
          ∧ same_core w w'.
Proof.
  unfold SurgeService.getSurgeForLocation.
  unfold mbind at 1. unfold M_bind at 1.
  destruct (getSurgeForCell_ok
              (Geo.latLngToGeoCell latitude longitude) w) as [d ->].
  destruct (_ && _).
  - apply calculateSurge_ok.
  - exists d, w. split; [reflexivity | apply same_core_refl].
Qed.

(** *** [handleDriverResponse], case by case *)

Lemma handleDriverResponse_missing (rideId : uuid) (response : DriverResponse)
    (w : World) :
  ride_requests (pg w) !! rideId = None →
  handleDriverResponse rideId response w = (Err (JsError "Ride not found"), w).
Proof.
  intros Hnone. unfold handleDriverResponse. msimpl. rewrite Hnone. reflexivity.
Qed.

(** ACCEPT goes through whatever the ride's status and current offer are. *)
Lemma handleDriverResponse_accept (rideId : uuid) (ride : RideRow)
    (driverId : uuid) (reason : option string) (w : World) :
  ride_requests (pg w) !! rideId = Some ride →
  ∃ w', handleDriverResponse rideId
          {| resp_driverId := driverId; resp_action := ACCEPT;
             resp_reason := reason |} w
        = (Ok (Accepted driverId), w')
    ∧ ride_requests (pg w')
      = alter (set_accepted driverId) rideId (ride_requests (pg w))
    ∧ driver_offers (pg w')
      = (λ o, if bool_decide (ride_request_id o = rideId ∧ offer_driver_id o = driverId)
              then set_responded OfferStatus.ACCEPTED (clock w) None o else o)
        <$> driver_offers (pg w)
    ∧ ride_offer (redis w') = delete rideId (ride_offer (redis w))
    ∧ ride_lock (redis w') = ride_lock (redis w)
    ∧ clock w' = clock w
    ∧ next_uuid w' = next_uuid w.
Proof.
  intros Hride. unfold handleDriverResponse. msimpl. rewrite Hride. simpl.
  unfold update_ride_request, update_driver_offers, updateDriverStatus. msimpl.
  eexists. split; [reflexivity|]. simpl. repeat split.
Qed.

(** DECLINE marks the driver's offers, then either gives up or re-runs
    [matchDriver] on the row that was read at the start. *)
Lemma handleDriverResponse_decline (rideId : uuid) (ride : RideRow)
    (driverId : uuid) (reason : option string) (w : World) :
  ride_requests (pg w) !! rideId = Some ride →
  ∃ w1,
    ride_requests (pg w1) = ride_requests (pg w)
    ∧ driver_offers (pg w1)
      = (λ o, if bool_decide (ride_request_id o = rideId ∧ offer_driver_id o = driverId)
              then set_responded OfferStatus.DECLINED (clock w)
                     (Some (match reason with
                            | Some s => if bool_decide (s = "") then "Not specified"
                                        else s
                            | None => "Not specified"
                            end)) o
              else o)
        <$> driver_offers (pg w)
    ∧ redis w1 = redis w ∧ clock w1 = clock w ∧ next_uuid w1 = next_uuid w
    ∧ handleDriverResponse rideId
        {| resp_driverId := driverId; resp_action := DECLINE;
           resp_reason := reason |} w
      = if bool_decide (config.MAX_MATCH_ATTEMPTS ≤ match_attempts ride)
        then (Ok (Expired "Max match attempts reached"),
              upd_pg (upd_ride_requests (alter (set_status RideStatus.EXPIRED) rideId)) w1)
        else
          let region :=
            Geo.getRegionFromCoordinates (pickup_lat ride) (pickup_lng ride) in
          let declinedDrivers :=
            offer_driver_id <$>
              filter (λ o, ride_request_id o = rideId
                           ∧ offer_status o = OfferStatus.DECLINED)
                     (driver_offers (pg w1)) in
          match filter (λ d, DriverLocation.driverId d ∉ declinedDrivers)
                  (nearest_eligible (match_query ride region) w1) with
          | [] => (Ok (Expired "No available drivers"),
                   upd_pg (upd_ride_requests
                             (alter (set_status RideStatus.EXPIRED) rideId)) w1)
          | _ :: _ =>
              match matchDriver ride region w1 with
              | (Ok _, w') => (Ok Reassigned, w')
              | (Err e, w') => (Err e, w')
              end
          end.
Proof.
  intros Hride. unfold handleDriverResponse. msimpl. rewrite Hride.
  unfold update_ride_request, update_driver_offers. msimpl.
  exists (upd_kafka (λ log, log ++ [RIDE_DECLINED rideId driverId reason])
            (upd_pg (upd_driver_offers (fmap (λ o,
               if bool_decide (ride_request_id o = rideId ∧ offer_driver_id o = driverId)
               then set_responded OfferStatus.DECLINED (clock w)
                      (Some (match reason with
                             | Some s => if bool_decide (s = "") then "Not specified"
                                         else s
                             | None => "Not specified"
                             end)) o
               else o))) w)).
  split; [reflexivity|]. split; [reflexivity|].
  split; [reflexivity|]. split; [reflexivity|]. split; [reflexivity|].
  case_bool_decide as Hmax; [reflexivity|].
  fold (match_query ride
    (Geo.getRegionFromCoordinates (pickup_lat ride) (pickup_lng ride))).
  rewrite matchDriver_query. wsimpl. cbv zeta.
  destruct (filter _ (nearest_eligible _ _)) as [|a l']; [reflexivity|].
  destruct (matchDriver _ _ _) as [[m|e] w']; reflexivity.
Qed.

(** *** [createRideRequest], in closed form

    Up to the surge bookkeeping the call draws the ride id, inserts the row
    (unless the id or the idempotency key is taken) and runs [matchDriver] on
    the inserted row; the reply is built from constants and the match. *)
Lemma createRideRequest_cases (input : RideInput) (w : World) :
  ∃ (w1 : World) (row : RideRow) (reply : option MatchedDriver → RideResult),
    createRideRequest input w
      = (if bool_decide (is_Some (ride_requests (pg w) !! next_uuid w))
         then (Err (DbError "23505"), upd_next_uuid S w1)
         else if bool_decide (map_Exists
                   (λ _ r, idempotency_key r = in_idempotencyKey input)
                   (ride_requests (pg w)))
         then (Err (DbError "23505"), upd_next_uuid S w1)
         else
           match matchDriver row
                   (Geo.getRegionFromCoordinates (lat (in_pickup input))
                                                 (lng (in_pickup input)))
                   (upd_kafka (λ log, log ++
                        [RIDE_REQUESTED (next_uuid w) (in_riderId input)
                           (Geo.getRegionFromCoordinates (lat (in_pickup input))
                                                         (lng (in_pickup input)))])
                      (upd_pg (upd_ride_requests <[next_uuid w := row]>)
                         (upd_next_uuid S w1))) with
           | (Ok mr, w') => (Ok (reply (driver mr)), w')
           | (Err e, w') => (Err e, w')
           end)
    ∧ same_core w w1
    ∧ id row = next_uuid w
    ∧ status row = RideStatus.MATCHING
    ∧ match_attempts row = 0
    ∧ pickup_lat row = lat (in_pickup input)
    ∧ pickup_lng row = lng (in_pickup input)
    ∧ tier row = in_tier input
    ∧ idempotency_key row = in_idempotencyKey input
    ∧ (∀ md, r_id (reply md) = next_uuid w
             ∧ r_status (reply md) = RideStatus.MATCHING
             ∧ r_matchAttempts (reply md) = 1
             ∧ r_matchedDriver (reply md) = md).
Proof.
  unfold createRideRequest.
  destruct (incrementDemand_ok
              (Geo.latLngToGeoCell (lat (in_pickup input)) (lng (in_pickup input)))
              (Geo.getRegionFromCoordinates (lat (in_pickup input))
                                            (lng (in_pickup input))) w)
    as (c & wa & Ha & Hca).
  destruct (getSurgeForLocation_ok (lat (in_pickup input)) (lng (in_pickup input)) wa)
    as (d & w1 & Hb & Hcb).
  assert (Hc := same_core_trans _ _ _ Hca Hcb).
  destruct Hc as (Hpg & Hclock & Huuid & Hrest).
  unfold mbind at 1. unfold M_bind at 1. rewrite Ha.
  unfold mbind at 1. unfold M_bind at 1. rewrite Hb.
  msimpl. unfold insert_ride_request. wsimpl.
  cbn [id idempotency_key]. rewrite Hpg, Huuid, Hclock.
  lazymatch goal with
  | |- context [(Ok ?row0, upd_pg (upd_ride_requests _) _)] =>
      eexists w1, row0, (λ md, {| r_id := next_uuid w; r_matchedDriver := md |})
  end.
  split.
  - do 2 (case_bool_decide; [reflexivity|]).
    wsimpl. destruct (matchDriver _ _ _) as [[mr|e] w']; reflexivity.
  - split; [unfold same_core; repeat split; tauto|].
    do 7 (split; [reflexivity|]). intros md; repeat split.
Qed.
End DispatchFacts.

(** ** The relational store: integrity and monotonicity *)
Section DbFacts.
Import Dispatch.

Lemma offers_for_app (k : uuid) (l1 l2 : list OfferRow) :
  offers_for k (l1 ++ l2) = (offers_for k l1 + offers_for k l2)%nat.
Proof. unfold offers_for. rewrite filter_app, length_app. reflexivity. Qed.

Lemma offers_for_fmap (k : uuid) (g : OfferRow → OfferRow) (l : list OfferRow) :
  (∀ o, ride_request_id (g o) = ride_request_id o) →
  offers_for k (g <$> l) = offers_for k l.
Proof.
  intros Hg. unfold offers_for. induction l as [|o l IH]; [reflexivity|].
  rewrite fmap_cons, !filter_cons, Hg.
  destruct (decide (ride_request_id o = k)); simpl; rewrite IH; reflexivity.
Qed.

Lemma offers_for_unreferenced (k : uuid) (l : list OfferRow) :
  Forall (λ o, ride_request_id o ≠ k) l → offers_for k l = 0%nat.
Proof.
  intros Hl. unfold offers_for. induction Hl as [|o l Ho Hl IH]; [reflexivity|].
  rewrite filter_cons. destruct (decide (ride_request_id o = k)); [contradiction|].
  exact IH.
Qed.





Lemma db_step_wf (s s' : Postgres * uuid) :
  db_step s s' → wf_pg s.1 s.2 → wf_pg s'.1 s'.2.
Proof.
  destruct 1 as [p n|p n k f Hf|p n g Hg|p n row Hlt Hnone Hzero
                 |p n k row oid d exp Hlt Hfresh Hk Hid Hmax];
    unfold wf_pg; simpl; intros [Hrows Hoffers].
  - split.
    + intros k row Hk. destruct (Hrows k row Hk) as (? & ? & ? & ?).
      repeat split; try assumption; lia.
    + eapply Forall_impl; [exact Hoffers|]. intros o [? ?]. split; [lia|assumption].
  - split.
    + intros j row. rewrite lookup_alter. case_decide as Hkj.
      * subst j. destruct (ride_requests p !! k) as [r|] eqn:Hr; [|discriminate].
        simpl. intros [= <-]. destruct (Hf r) as [-> ->]. apply Hrows, Hr.
      * apply Hrows.
    + eapply Forall_impl; [exact Hoffers|]. intros o [? Hsome]. split; [assumption|].
      rewrite lookup_alter. case_decide as Hkj; [|exact Hsome].
      rewrite Hkj. apply fmap_is_Some. exact Hsome.
  - split.
    + intros k row Hk. rewrite offers_for_fmap by (intros o; apply Hg).
      apply Hrows, Hk.
    + apply Forall_fmap. eapply Forall_impl; [exact Hoffers|].
      intros o [? ?]. simpl. destruct (Hg o) as [-> ->]. split; assumption.
  - assert (Hunref : Forall (λ o, ride_request_id o ≠ id row) (driver_offers p)).
    { eapply Forall_impl; [exact Hoffers|]. intros o [_ Hsome] Heq.
      rewrite Heq, Hnone in Hsome. destruct Hsome as [? ?]. discriminate. }
    split.
    + intros j r. rewrite lookup_insert. case_decide as Hj.
      * subst j. intros [= <-]. split; [reflexivity|]. split; [exact Hlt|].
        rewrite Hzero, (offers_for_unreferenced _ _ Hunref).
        split; [|reflexivity]. unfold config.MAX_MATCH_ATTEMPTS. lia.
      * apply Hrows.
    + eapply Forall_impl; [exact Hoffers|]. intros o [? Hsome]. split; [assumption|].
      rewrite lookup_insert. case_decide; [eexists; reflexivity | exact Hsome].
  - split.
    + intros j r. rewrite lookup_alter. case_decide as Hj.
      * subst j. rewrite Hk. simpl. intros [= <-]. simpl.
        destruct (Hrows k row Hk) as (Hi & Hn & Hb & Hc).
        split; [exact Hi|]. split; [exact Hn|].
        rewrite offers_for_app. unfold offers_for at 2. rewrite filter_cons.
        simpl. rewrite decide_True by reflexivity. simpl.
        split; lia.
      * intros Hr. destruct (Hrows j r Hr) as (Hi & Hn & Hb & Hc).
        split; [exact Hi|]. split; [exact Hn|]. split; [exact Hb|].
        rewrite offers_for_app. unfold offers_for at 2. rewrite filter_cons.
        simpl. rewrite decide_False by congruence. simpl. lia.
    + apply Forall_app. split.
      * eapply Forall_impl; [exact Hoffers|]. intros o [? Hsome].
        split; [assumption|].
        rewrite lookup_alter. case_decide as Hkj; [|exact Hsome].
        rewrite Hkj. apply fmap_is_Some. exact Hsome.
      * constructor; [|constructor]. simpl. split; [exact Hlt|].
        rewrite lookup_alter, decide_True by reflexivity. rewrite Hk. eexists; reflexivity.
Qed.

Lemma db_steps_wf (s s' : Postgres * uuid) :
  rtc db_step s s' → wf_pg s.1 s.2 → wf_pg s'.1 s'.2.
Proof. induction 1 as [|s1 s2 s3 H12 _ IH]; [auto|]. intros Hwf. apply IH. eapply db_step_wf; eauto. Qed.

End DbFacts.

(** ** The services refine the store's transition system *)
Section Refinement.
Context `{Geodesy}.
Import DriverLocation NearbySpec Dispatch.

Lemma pg_eta (p : Postgres) (t : gmap uuid RideRow) (o : list OfferRow) :
  ride_requests p = t → driver_offers p = o →
  p = {| ride_requests := t; driver_offers := o |}.
Proof. destruct p. simpl. intros -> ->. reflexivity. Qed.

Lemma db_same (w w' : World) :
  pg w' = pg w → next_uuid w' = next_uuid w → rtc db_step (db w) (db w').
Proof. unfold db. intros -> ->. apply rtc_refl. Qed.

Lemma matchDriver_db (ride row : RideRow) (region : string) (w : World) :
  ride_requests (pg w) !! id ride = Some row →
  id row = id ride →
  match_attempts row < config.MAX_MATCH_ATTEMPTS →
  rtc db_step (db w) (db (snd (matchDriver ride region w))).
Proof.
  intros Hrow Hid Hmax.
  destruct (nearest_eligible (match_query ride region) w) as [|d rest] eqn:Hnear.
  - rewrite (matchDriver_none _ _ _ Hnear). unfold db. simpl.
    apply rtc_once, db_update_ride. intros r. split; reflexivity.
  - destruct (decide (Exists (λ o, offer_id o = next_uuid w) (driver_offers (pg w))))
      as [Hclash|Hfresh].
    + rewrite (matchDriver_conflict _ _ _ _ _ Hnear Hclash). unfold db. simpl.
      apply rtc_once, db_draw.
    + destruct (matchDriver_some _ _ _ _ _ Hnear Hfresh)
        as (w' & -> & Hrides & Hoffers & _ & _ & _ & Hnext).
      unfold db. simpl. rewrite Hnext, (pg_eta _ _ _ Hrides Hoffers).
      eapply rtc_l; [apply db_draw|].
      apply rtc_once. destruct (pg w) as [t o] eqn:Hpg. simpl in *.
      eapply (db_offer {| ride_requests := t; driver_offers := o |});
        [lia | exact Hfresh | exact Hrow | exact Hid | exact Hmax].
Qed.

Lemma handleDriverResponse_db (rideId : uuid) (response : DriverResponse) (w : World) :
  wf w →
  rtc db_step (db w) (db (snd (handleDriverResponse rideId response w))).
Proof.
  intros Hwf.
  destruct (ride_requests (pg w) !! rideId) as [ride|] eqn:Hride.
  2: { rewrite (handleDriverResponse_missing _ _ _ Hride). apply rtc_refl. }
  destruct (proj1 Hwf rideId ride Hride) as (Hid & _ & _ & _).
  destruct response as [driverId [] reason].
  - destruct (handleDriverResponse_accept rideId ride driverId reason w Hride)
      as (w' & -> & Hrides & Hoffers & _ & _ & _ & Hnext).
    unfold db. simpl. rewrite Hnext, (pg_eta _ _ _ Hrides Hoffers).
    eapply rtc_l; [apply (db_update_ride _ _ rideId (set_accepted driverId));
                   intros r; split; reflexivity|].
    apply rtc_once.
    refine (db_update_offers
              (upd_ride_requests (alter (set_accepted driverId) rideId) (pg w)) _ _ _).
    intros o. case_bool_decide; split; reflexivity.
  - destruct (handleDriverResponse_decline rideId ride driverId reason w Hride)
      as (w1 & Hrides & Hoffers & _ & _ & Hnext & ->).
    assert (H1 : rtc db_step (db w) (db w1)).
    { unfold db. rewrite Hnext, (pg_eta _ _ _ Hrides Hoffers).
      apply rtc_once.
      replace ({| ride_requests := ride_requests (pg w); driver_offers := _ |})
        with (upd_driver_offers (fmap (λ o,
                if bool_decide (ride_request_id o = rideId ∧ offer_driver_id o = driverId)
                then set_responded OfferStatus.DECLINED (clock w)
                       (Some (match reason with
                              | Some s => if bool_decide (s = "") then "Not specified"
                                          else s
                              | None => "Not specified"
                              end)) o
                else o)) (pg w)) by reflexivity.
      apply db_update_offers. intros o. case_bool_decide; split; reflexivity. }
    assert (Hexp : rtc db_step (db w1)
              (db (upd_pg (upd_ride_requests
                             (alter (set_status RideStatus.EXPIRED) rideId)) w1))).
    { unfold db. simpl. apply rtc_once, db_update_ride. intros r; split; reflexivity. }
    etrans; [exact H1|].
    case_bool_decide as Hmax; [exact Hexp|].
    cbv zeta. destruct (filter _ (nearest_eligible _ _)) as [|a l']; [exact Hexp|].
    assert (Hm : rtc db_step (db w1)
              (db (snd (matchDriver ride
                          (Geo.getRegionFromCoordinates (pickup_lat ride)
                             (pickup_lng ride)) w1)))).
    { apply (matchDriver_db ride ride).
      - rewrite Hrides, Hid. exact Hride.
      - reflexivity.
      - lia. }
    destruct (matchDriver _ _ _) as [[m|e] w']; exact Hm.
Qed.

Lemma checkTimeout_db (rideId : uuid) (w : World) :
  wf w → rtc db_step (db w) (db (snd (checkTimeout rideId w))).
Proof.
  intros Hwf. unfold checkTimeout. msimpl.
  destruct (get_offer (redis w) (clock w) rideId) as [offer|]; [|apply rtc_refl].
  case_bool_decide; [|apply rtc_refl].
  assert (Hd := handleDriverResponse_db rideId
                  {| resp_driverId := entry_driverId offer; resp_action := DECLINE;
                     resp_reason := Some "Timeout" |} w Hwf).
  destruct (handleDriverResponse _ _ _) as [[r|e] w']; exact Hd.
Qed.

Lemma createRideRequest_db (input : RideInput) (w : World) :
  rtc db_step (db w) (db (snd (createRideRequest input w))).
Proof.
  destruct (createRideRequest_cases input w)
    as (w1 & row & reply & -> & (Hpg & _ & Hnext & _) & Hid & _ & Hzero & _).
  assert (Hdraw : rtc db_step (db w) (db (upd_next_uuid S w1))).
  { unfold db. simpl. rewrite Hpg, Hnext. apply rtc_once, db_draw. }
  case_bool_decide as Htaken; [exact Hdraw|].
  case_bool_decide as Hkey; [exact Hdraw|].
  etrans; [exact Hdraw|].
  set (w3 := upd_kafka _ _).
  assert (Hins : rtc db_step (db (upd_next_uuid S w1)) (db w3)).
  { unfold db, w3. simpl. rewrite Hpg, Hnext, <- Hid.
    apply rtc_once, db_insert_ride; [lia| |exact Hzero].
    rewrite Hid. apply eq_None_not_Some. exact Htaken. }
  etrans; [exact Hins|].
  assert (Hm : rtc db_step (db w3)
            (db (snd (matchDriver row
                        (Geo.getRegionFromCoordinates (lat (in_pickup input))
                           (lng (in_pickup input))) w3)))).
  { apply (matchDriver_db row row).
    - unfold w3. simpl. rewrite Hid. apply lookup_insert_eq.
    - reflexivity.
    - rewrite Hzero. unfold config.MAX_MATCH_ATTEMPTS. lia. }
  destruct (matchDriver _ _ _) as [[m|e] w']; exact Hm.
Qed.

(** Every operation of the API moves the store along [db_step]. *)
Lemma exec_db (op : Op) (w : World) :
  wf w → rtc db_step (db w) (db (exec op w)).
Proof.
  intros Hwf. destruct op as [input|rideId response|rideId|rideId reason
                              |driverId latitude longitude|driverId status|ms];
    unfold exec.
  - apply createRideRequest_db.
  - apply handleDriverResponse_db, Hwf.
  - apply checkTimeout_db, Hwf.
  - unfold db. simpl. apply rtc_once, db_update_ride. intros r; split; reflexivity.
  - apply rtc_refl.
  - apply rtc_refl.
  - apply rtc_refl.
Qed.

Lemma exec_wf (op : Op) (w : World) : wf w → wf (exec op w).
Proof. intros Hwf. apply (db_steps_wf _ _ (exec_db op w Hwf)), Hwf. Qed.

Lemma run_wf (ops : list Op) (w : World) : wf w → wf (run ops w).
Proof.
  revert w. induction ops as [|op ops IH]; intros w Hwf; [exact Hwf|].
  apply IH, exec_wf, Hwf.
Qed.

Lemma empty_world_wf : wf empty_world.
Proof.
  split.
  - intros k row Hk. simpl in Hk. rewrite lookup_empty in Hk. discriminate.
  - constructor.
Qed.
End Refinement.

(** ** Match attempts *)
Section AttemptsFacts.
Context `{Geodesy}.
Import DriverLocation NearbySpec Dispatch.


End AttemptsFacts.

(** C8, on the scenario: [D1] keeps declining; the fifth offer is the last
    one, and the next decline expires the ride with [match_attempts] at 5. *)
Lemma matchAttempts_reaches_max_example :
  let declines := replicate 4 (DriverResponds Scenario.ride_id
                                 (Scenario.decline_by Scenario.D1)) in
  let w := run declines Scenario.offered in
  (match_attempts <$> ride_requests (pg w) !! Scenario.ride_id) = Some 5
  ∧ length (driver_offers (pg w)) = 5%nat
  ∧ fst (Dispatch.handleDriverResponse Scenario.ride_id
           (Scenario.decline_by Scenario.D1) w)
    = Ok (Dispatch.Expired "Max match attempts reached")
  ∧ (let w' := snd (Dispatch.handleDriverResponse Scenario.ride_id
                      (Scenario.decline_by Scenario.D1) w) in
     (status <$> ride_requests (pg w') !! Scenario.ride_id)
       = Some RideStatus.EXPIRED
     ∧ (match_attempts <$> ride_requests (pg w') !! Scenario.ride_id) = Some 5
     ∧ length (driver_offers (pg w')) = 5%nat).
Proof. vm_compute. repeat split. Qed.

(** ** Ride creation *)
Section CreateFacts.
Context `{Geodesy}.
Import DriverLocation NearbySpec Dispatch.

Lemma match_query_pickup (row : RideRow) (input : RideInput) :
  pickup_lat row = lat (in_pickup input) →
  pickup_lng row = lng (in_pickup input) →
  tier row = in_tier input →
  match_query row (Geo.getRegionFromCoordinates (lat (in_pickup input))
                                                (lng (in_pickup input)))
  = pickup_query (in_pickup input) (in_tier input).
Proof. intros Hlat Hlng Htier. unfold match_query, pickup_query. rewrite Hlat, Hlng, Htier. reflexivity. Qed.

(** C10: whatever the input, a reply of [createRideRequest] reads status
    MATCHING and matchAttempts 1; when no eligible driver is found for the
    pickup, the reply's matchedDriver is null while the stored row has status
    NO_DRIVERS and match_attempts 0.  The call does reply whenever the drawn
    ride id and the idempotency key are unused and no driver is found. *)
Theorem createRideRequest_reports_matching (input : RideInput) (w : World) :
  (∀ r w', createRideRequest input w = (Ok r, w') →
     r_status r = RideStatus.MATCHING
     ∧ r_matchAttempts r = 1
     ∧ (nearest_eligible (pickup_query (in_pickup input) (in_tier input)) w = [] →
        r_matchedDriver r = None
        ∧ ∃ row, ride_requests (pg w') !! r_id r = Some row
                 ∧ status row = RideStatus.NO_DRIVERS
                 ∧ match_attempts row = 0))
  ∧ (ride_requests (pg w) !! next_uuid w = None →
     ¬ map_Exists (λ _ r, idempotency_key r = in_idempotencyKey input)
         (ride_requests (pg w)) →
     nearest_eligible (pickup_query (in_pickup input) (in_tier input)) w = [] →
     ∃ r w', createRideRequest input w = (Ok r, w')).
Proof.
  destruct (createRideRequest_cases input w)
    as (w1 & row & reply & Heq & Hcore & Hid & Hst & Hzero & Hlat & Hlng & Htier
        & _ & Hreply).
  rewrite Heq. clear Heq.
  set (w3 := upd_kafka _ (upd_pg _ (upd_next_uuid S w1))).
  assert (Hnear : nearest_eligible
                    (match_query row
                       (Geo.getRegionFromCoordinates (lat (in_pickup input))
                          (lng (in_pickup input)))) w3
                  = nearest_eligible (pickup_query (in_pickup input) (in_tier input)) w).
  { rewrite (match_query_pickup row input Hlat Hlng Htier).
    destruct Hcore as (_ & Hc & _ & Hg & Hp & Hm & _).
    apply nearest_eligible_frame; unfold w3; simpl; assumption. }
  split.
  - intros r w'. case_bool_decide; [discriminate|]. case_bool_decide; [discriminate|].
    destruct (matchDriver _ _ w3) as [[mr|e] w''] eqn:Hmatch; [|discriminate].
    intros [= <- <-]. destruct (Hreply (driver mr)) as (Hrid & Hrst & Hratt & Hrmd).
    split; [exact Hrst|]. split; [exact Hratt|].
    intros Hnone. rewrite <- Hnear in Hnone.
    rewrite (matchDriver_none _ _ _ Hnone) in Hmatch.
    injection Hmatch as <- <-. rewrite Hrmd, Hrid. split; [reflexivity|].
    exists (set_status RideStatus.NO_DRIVERS row). unfold w3. simpl.
    rewrite Hid, lookup_alter_eq, lookup_insert_eq. simpl.
    split; [reflexivity|]. split; [reflexivity | exact Hzero].
  - intros Hfree Hkey Hnone.
    rewrite bool_decide_false by (rewrite Hfree; apply is_Some_None).
    rewrite bool_decide_false by exact Hkey.
    rewrite <- Hnear in Hnone. rewrite (matchDriver_none _ _ _ Hnone).
    eexists _, _. reflexivity.
Qed.
End CreateFacts.

(** C10, on the scenario: a ride requested while no driver is around. *)
Lemma createRideRequest_reports_matching_example :
  ∃ r w', Dispatch.createRideRequest Scenario.ride_input Scenario.nobody_around
          = (Ok r, w')
    ∧ r_status r = RideStatus.MATCHING ∧ r_matchAttempts r = 1
    ∧ r_matchedDriver r = None
    ∧ (status <$> ride_requests (pg w') !! r_id r) = Some RideStatus.NO_DRIVERS
    ∧ (match_attempts <$> ride_requests (pg w') !! r_id r) = Some 0.
Proof. eexists _, _. split; [vm_compute; reflexivity|]. vm_compute. repeat split. Qed.

(** ** Cancellation *)
Section CancelFacts.
Import Dispatch RideController.

(** C9 (amended): [cancelRide] overwrites the stored status with CANCELLED
    whatever it was, terminal or not; no other column, no other ride and no
    other store is touched, and the reply is always CANCELLED. *)
Theorem cancelRide_unconditional (w : World) (rideId : uuid) (reason : option string) :
  ∃ w', cancelRide rideId reason w
        = (Ok {| c_status := RideStatus.CANCELLED; c_rideId := rideId;
                 c_reason := reason |}, w')
    ∧ ride_requests (pg w') !! rideId
      = set_status RideStatus.CANCELLED <$> ride_requests (pg w) !! rideId
    ∧ (∀ other, other ≠ rideId →
         ride_requests (pg w') !! other = ride_requests (pg w) !! other)
    ∧ driver_offers (pg w') = driver_offers (pg w)
    ∧ redis w' = redis w ∧ kafka w' = kafka w.
Proof.
  eexists. split; [reflexivity|]. simpl.
  split; [apply lookup_alter_eq|].
  split; [|auto].
  intros other Hne. apply lookup_alter_ne. congruence.
Qed.
End CancelFacts.

(** C9, counterexample: the ride accepted by [D1] is in a terminal status,
    and cancelling it rewrites the stored row. *)
Lemma cancelRide_overwrites_accepted :
  ¬ SpecClaims.cancel_keeps_terminal Scenario.accepted Scenario.ride_id.
Proof.
  intros Hc.
  destruct (ride_requests (pg Scenario.accepted) !! Scenario.ride_id)
    as [row|] eqn:Hrow; [|vm_compute in Hrow; discriminate].
  specialize (Hc None row Hrow).
  vm_compute in Hrow. injection Hrow as <-.
  specialize (Hc eq_refl). vm_compute in Hc. discriminate.
Qed.

(** ** Timeouts *)
Section TimeoutFacts.
Context `{Geodesy}.
Import DriverLocation NearbySpec Dispatch.

(** In a store that satisfies its integrity constraints a decline of an
    existing ride is always answered. *)
Lemma handleDriverResponse_decline_ok (rideId : uuid) (ride : RideRow)
    (driverId : uuid) (reason : option string) (w : World) :
  wf w →
  ride_requests (pg w) !! rideId = Some ride →
  ∃ res w', handleDriverResponse rideId
              {| resp_driverId := driverId; resp_action := DECLINE;
                 resp_reason := reason |} w
            = (Ok res, w')
    ∧ (res = Expired "Max match attempts reached"
       ∨ res = Expired "No available drivers"
       ∨ res = Reassigned).
Proof.
  intros Hwf Hride.
  destruct (handleDriverResponse_decline rideId ride driverId reason w Hride)
    as (w1 & Hrides & Hoffers & _ & _ & Hnext & ->).
  case_bool_decide as Hmax; [eexists _, _; split; [reflexivity | auto]|].
  cbv zeta. destruct (filter _ (nearest_eligible _ _)) as [|a l'] eqn:Hav;
    [eexists _, _; split; [reflexivity | auto]|].
  destruct (nearest_eligible
              (match_query ride
                 (Geo.getRegionFromCoordinates (pickup_lat ride) (pickup_lng ride)))
              w1) as [|d rest] eqn:Hnear; [discriminate|].
  assert (Hfresh : ¬ Exists (λ o, offer_id o = next_uuid w1) (driver_offers (pg w1))).
  { rewrite Hoffers, Hnext. rewrite Exists_fmap. intros Hex.
    apply Exists_exists in Hex as (o & Ho & Heq).
    destruct Hwf as [_ Hall]. rewrite Forall_forall in Hall.
    destruct (Hall o Ho) as [Hlt _]. simpl in Heq.
    case_bool_decide; simpl in Heq; lia. }
  destruct (matchDriver_some _ _ _ _ _ Hnear Hfresh) as (w' & -> & _).
  eexists _, _. split; [reflexivity | auto].
Qed.

(** C4 (amended): [checkTimeout] answers [{timedOut: false}] and changes
    nothing when the fast-lookup entry is absent, and when it is present and
    its [expiresAt] has not passed; it processes a decline with reason
    "Timeout" for the entry's driver and answers [{timedOut: true}] only when
    the entry is present and its [expiresAt] has passed. *)
Theorem checkTimeout_spec (w : World) (rideId : uuid) :
  (get_offer (redis w) (clock w) rideId = None →
     checkTimeout rideId w = (Ok {| timedOut := false |}, w))
  ∧ (∀ offer, get_offer (redis w) (clock w) rideId = Some offer →
       clock w ≤ entry_expiresAt offer →
       checkTimeout rideId w = (Ok {| timedOut := false |}, w))
  ∧ (∀ offer, get_offer (redis w) (clock w) rideId = Some offer →
       entry_expiresAt offer < clock w →
       wf w → is_Some (ride_requests (pg w) !! rideId) →
       ∃ res w', handleDriverResponse rideId
                   {| resp_driverId := entry_driverId offer;
                      resp_action := DECLINE;
                      resp_reason := Some "Timeout" |} w
                 = (Ok res, w')
         ∧ checkTimeout rideId w = (Ok {| timedOut := true |}, w'))
  ∧ (∀ r w', checkTimeout rideId w = (Ok r, w') → timedOut r = true →
       ∃ offer, get_offer (redis w) (clock w) rideId = Some offer
                ∧ entry_expiresAt offer < clock w).
Proof.
  unfold checkTimeout. msimpl. repeat apply conj.
  - intros ->. reflexivity.
  - intros offer -> Hle. rewrite bool_decide_false by lia. reflexivity.
  - intros offer -> Hlt Hwf [ride Hride]. rewrite bool_decide_true by exact Hlt.
    destruct (handleDriverResponse_decline_ok rideId ride (entry_driverId offer)
                (Some "Timeout") w Hwf Hride) as (res & w' & Heq & _).
    exists res, w'. rewrite Heq. split; reflexivity.
  - intros r w'. destruct (get_offer (redis w) (clock w) rideId) as [offer|].
    + case_bool_decide as Hlt.
      * intros _ _. exists offer. split; [reflexivity | exact Hlt].
      * intros [= <- <-]. discriminate.
    + intros [= <- <-]. discriminate.
Qed.
End TimeoutFacts.

(** C4, witness: 16 s after the offer the entry is still there and overdue;
    the timeout is processed. *)
Lemma checkTimeout_spec_witness :
  ∃ res w', Dispatch.handleDriverResponse Scenario.ride_id
              {| Dispatch.resp_driverId := Scenario.D1;
                 Dispatch.resp_action := DECLINE;
                 Dispatch.resp_reason := Some "Timeout" |} Scenario.overdue
            = (Ok res, w')
    ∧ Dispatch.checkTimeout Scenario.ride_id Scenario.overdue
      = (Ok {| Dispatch.timedOut := true |}, w').
Proof.
  refine (proj1 (proj2 (proj2 (checkTimeout_spec Scenario.overdue Scenario.ride_id)))
            {| entry_offerId := 101%nat; entry_driverId := Scenario.D1;
               entry_expiresAt := 15000 |} _ _ _ _).
  - vm_compute. reflexivity.
  - vm_compute. reflexivity.
  - unfold Scenario.overdue, Scenario.offered, Scenario.two_online.
    do 3 apply run_wf. apply empty_world_wf.
  - vm_compute. eexists. reflexivity.
Defined.

(** C4, counterexample: 25 s after the offer the entry has expired from
    Redis; [checkTimeout] answers [{timedOut: false}]. *)
Lemma checkTimeout_absent_not_timeout :
  ¬ SpecClaims.timeout_on_absent_or_expired Scenario.unanswered Scenario.ride_id.
Proof.
  unfold SpecClaims.timeout_on_absent_or_expired. intros Hc.
  assert (Hf : fst (Dispatch.checkTimeout Scenario.ride_id Scenario.unanswered)
               = Ok {| Dispatch.timedOut := false |})
    by (vm_compute; reflexivity).
  match type of Hc with
  | ?P → _ => assert (Hp : P) by (vm_compute; exact I)
  end.
  specialize (Hc Hp).
  pose proof (eq_trans (eq_sym Hc) Hf) as Hne. discriminate Hne.
Qed.

(** ** Idempotent intake *)
Section IdempotencyFacts.
Context `{Geodesy} `{Wire}.
Import Http Idempotency RideController.

(** With a live cache entry for the key the route answers from the cache:
    a replay when the digests agree, a conflict otherwise; the handler is not
    run and nothing is written. *)
Lemma post_rides_cached (req : Request) (key : string) (entry : CacheEntry)
    (w : World) :
  header_value (idempotency_key_header req) = Some key →
  cache_get (redis w) (clock w) key = Some entry →
  post_rides req w
  = (Ok (if bool_decide (cached_requestHash entry
                         ≠ hashRequest (method req) (path req) (req_body req))
         then json 422 (JError "Idempotency key conflict"
                          "This key was used with a different request payload")
         else {| statusCode := 200; body := cached_body entry; replayed := true |}),
     w).
Proof.
  intros Hkey Hcache. unfold post_rides, idempotencyMiddleware.
  rewrite Hkey. msimpl. rewrite Hcache. case_bool_decide; reflexivity.
Qed.

(** Without a live entry the handler runs, always replies, and the reply is
    cached under the key together with the request digest. *)
Lemma post_rides_first (req : Request) (key : string) (w : World) :
  header_value (idempotency_key_header req) = Some key →
  cache_get (redis w) (clock w) key = None →
  ∃ res wh,
    asyncHandler createRideRequest req w = (Ok res, wh)
    ∧ post_rides req w
      = (Ok res,
         upd_redis (upd_idempotency
           <[key := ({| cached_statusCode := statusCode res;
                        cached_body := body res;
                        cached_requestHash :=
                          hashRequest (method req) (path req) (req_body req);
                        cachedAt := clock wh |},
                     clock wh + config.IDEMPOTENCY_TTL * 1000)]>) wh).
Proof.
  intros Hkey Hcache. unfold post_rides, idempotencyMiddleware.
  rewrite Hkey. msimpl. rewrite Hcache.
  assert (Hh : ∃ res wh, asyncHandler createRideRequest req w = (Ok res, wh)).
  { unfold asyncHandler.
    destruct (createRideRequest req w) as [[res|e] wh]; eexists _, _; reflexivity. }
  destruct Hh as (res & wh & Hh). rewrite Hh.
  exists res, wh. split; reflexivity.
Qed.

(** C5: of two POST /rides requests with the same Idempotency-Key, sent one
    after the other to a deployment that has no live entry for the key, the
    first is handled and answered; the second is answered from the cache with
    status 200 and the first reply's body when the request digests agree, and
    with status 422 (idempotency key conflict) when they differ; in both cases
    the second request leaves every store as the first left it. *)
Theorem idempotent_replay_or_conflict (req1 req2 : Request) (key : string)
    (w0 : World) :
  header_value (idempotency_key_header req1) = Some key →
  header_value (idempotency_key_header req2) = Some key →
  cache_get (redis w0) (clock w0) key = None →
  ∃ res1 w1,
    post_rides req1 w0 = (Ok res1, w1)
    ∧ (hashRequest (method req1) (path req1) (req_body req1)
       = hashRequest (method req2) (path req2) (req_body req2) →
       post_rides req2 w1
       = (Ok {| statusCode := 200; body := body res1; replayed := true |}, w1))
    ∧ (hashRequest (method req1) (path req1) (req_body req1)
       ≠ hashRequest (method req2) (path req2) (req_body req2) →
       post_rides req2 w1
       = (Ok (json 422 (JError "Idempotency key conflict"
                          "This key was used with a different request payload")),
          w1)).
Proof.
  intros Hk1 Hk2 Hnew.
  destruct (post_rides_first req1 key w0 Hk1 Hnew) as (res1 & wh & _ & Hfirst).
  eexists _, _. split; [exact Hfirst|].
  set (entry := {| cached_statusCode := statusCode res1; cached_body := body res1;
                   cached_requestHash :=
                     hashRequest (method req1) (path req1) (req_body req1);
                   cachedAt := clock wh |}).
  set (w1 := upd_redis _ wh).
  assert (Hcache : cache_get (redis w1) (clock w1) key = Some entry).
  { unfold cache_get, w1. simpl. rewrite lookup_insert_eq.
    rewrite bool_decide_true; [reflexivity|].
    unfold config.IDEMPOTENCY_TTL. lia. }
  rewrite (post_rides_cached req2 key entry w1 Hk2 Hcache). simpl.
  split; intros Hhash.
  - rewrite bool_decide_false by (intros Hne; apply Hne, Hhash). reflexivity.
  - rewrite bool_decide_true by exact Hhash. reflexivity.
Qed.
End IdempotencyFacts.

(** C5, witness: the same request twice on the scenario with two drivers:
    the second answer replays the first body with status 200. *)
Lemma idempotent_replay_or_conflict_witness :
  ∃ res1 w1,
    RideController.post_rides (Scenario.post_ride "k1" "ride") Scenario.two_online
    = (Ok res1, w1)
    ∧ RideController.post_rides (Scenario.post_ride "k1" "ride") w1
      = (Ok {| statusCode := 200; body := body res1; replayed := true |}, w1).
Proof.
  destruct (idempotent_replay_or_conflict
              (Scenario.post_ride "k1" "ride") (Scenario.post_ride "k1" "ride")
              "k1" Scenario.two_online eq_refl eq_refl)
    as (res1 & w1 & H1 & Hsame & _).
  - vm_compute. reflexivity.
  - exists res1, w1. split; [exact H1|]. apply Hsame. reflexivity.
Defined.

(** C5, on the scenario: a different body under the same key is refused
    with 422 and the ride of the first request stays the only one. *)
Lemma idempotency_conflict_example :
  let w1 := snd (RideController.post_rides (Scenario.post_ride "k1" "ride")
                   Scenario.two_online) in
  fst (RideController.post_rides (Scenario.post_ride "k1" "ride ") w1)
  = Ok (Http.json 422 (JError "Idempotency key conflict"
                         "This key was used with a different request payload"))
  ∧ size (ride_requests (pg (snd (RideController.post_rides
                                    (Scenario.post_ride "k1" "ride ") w1)))) = 1%nat.
Proof. vm_compute. split; reflexivity. Qed.

(** ** Driver responses: where the code departs from the specification *)
Section ResponseFacts.
Context `{Geodesy}.
Import DriverLocation NearbySpec Dispatch.

(** No branch of [handleDriverResponse] reads or writes a per-ride lock. *)
Lemma handleDriverResponse_lock (rideId : uuid) (response : DriverResponse)
    (w : World) :
  ride_lock (redis (snd (handleDriverResponse rideId response w)))
  = ride_lock (redis w).
Proof.
  destruct (ride_requests (pg w) !! rideId) as [ride|] eqn:Hride.
  2: { rewrite (handleDriverResponse_missing _ _ _ Hride). reflexivity. }
  destruct response as [driverId [] reason].
  - destruct (handleDriverResponse_accept rideId ride driverId reason w Hride)
      as (w' & -> & _ & _ & _ & Hlock & _). exact Hlock.
  - destruct (handleDriverResponse_decline rideId ride driverId reason w Hride)
      as (w1 & _ & _ & Hredis & _ & _ & ->).
    case_bool_decide; [simpl; rewrite Hredis; reflexivity|].
    cbv zeta. destruct (filter _ (nearest_eligible _ _)) as [|a l'];
      [simpl; rewrite Hredis; reflexivity|].
    rewrite <- Hredis.
    set (region := Geo.getRegionFromCoordinates _ _).
    destruct (nearest_eligible (match_query ride region) w1) as [|d rest] eqn:Hnear.
    + rewrite (matchDriver_none _ _ _ Hnear). reflexivity.
    + destruct (decide (Exists (λ o, offer_id o = next_uuid w1)
                          (driver_offers (pg w1)))) as [Hclash|Hfresh].
      * rewrite (matchDriver_conflict _ _ _ _ _ Hnear Hclash). reflexivity.
      * destruct (matchDriver_some _ _ _ _ _ Hnear Hfresh)
          as (w' & -> & _ & _ & Hr & _). simpl. rewrite Hr. reflexivity.
Qed.
End ResponseFacts.

(** C1, at the failing input: the ride was accepted by [D1]; [D2], who never
    had an offer, sends ACCEPT and is answered ACCEPTED, and the ride's
    driver is overwritten. *)
Lemma second_accept_succeeds :
  (status <$> ride_requests (pg Scenario.accepted) !! Scenario.ride_id)
    = Some RideStatus.ACCEPTED
  ∧ (driver_id <$> ride_requests (pg Scenario.accepted) !! Scenario.ride_id)
    = Some (Some Scenario.D1)
  ∧ offer_driver_id <$> driver_offers (pg Scenario.accepted) = [Scenario.D1]
  ∧ fst (Dispatch.handleDriverResponse Scenario.ride_id
           (Scenario.accept_by Scenario.D2) Scenario.accepted)
    = Ok (Dispatch.Accepted Scenario.D2)
  ∧ (driver_id <$>
       ride_requests (pg (snd (Dispatch.handleDriverResponse Scenario.ride_id
                                 (Scenario.accept_by Scenario.D2) Scenario.accepted)))
         !! Scenario.ride_id)
    = Some (Some Scenario.D2).
Proof. vm_compute. repeat split. Qed.

(** C2, at the failing input: [lock:ride:{rideId}] is held, and the response
    is processed all the same. *)
Lemma response_ignores_lock :
  ride_lock (redis Scenario.locked) !! Scenario.ride_id = Some 5000
  ∧ clock Scenario.locked < 5000
  ∧ fst (Dispatch.handleDriverResponse Scenario.ride_id
           (Scenario.accept_by Scenario.D1) Scenario.locked)
    = Ok (Dispatch.Accepted Scenario.D1)
  ∧ (status <$>
       ride_requests (pg (snd (Dispatch.handleDriverResponse Scenario.ride_id
                                 (Scenario.accept_by Scenario.D1) Scenario.locked)))
         !! Scenario.ride_id)
    = Some RideStatus.ACCEPTED.
Proof. vm_compute. repeat split. Qed.

(** C3, at the failing input: [D1] (nearest) and [D2] are both eligible; the
    ride was offered to [D1], who declines; the answer is REASSIGNED and the
    new offer goes to [D1] again. *)
Lemma decline_reoffers_same_driver :
  DriverLocation.driverId <$>
    NearbySpec.nearest_eligible
      (pickup_query Scenario.p1 ECONOMY) Scenario.offered
    = [Scenario.D1; Scenario.D2]
  ∧ fst (Dispatch.handleDriverResponse Scenario.ride_id
           (Scenario.decline_by Scenario.D1) Scenario.offered)
    = Ok Dispatch.Reassigned
  ∧ (let w' := snd (Dispatch.handleDriverResponse Scenario.ride_id
                      (Scenario.decline_by Scenario.D1) Scenario.offered) in
     (entry_driverId <$> Dispatch.get_offer (redis w') (clock w') Scenario.ride_id)
       = Some Scenario.D1
     ∧ (λ o, (offer_driver_id o, offer_status o)) <$> driver_offers (pg w')
       = [(Scenario.D1, OfferStatus.DECLINED); (Scenario.D1, OfferStatus.PENDING)]).
Proof. vm_compute. repeat split. Qed.
(** * Further properties of the services *)

(** ** Fare estimate *)
Section FareFacts.
#[local] Open Scope Q_scope.






End FareFacts.

(** ** Heartbeats, presence and the regional indexes *)
Section PresenceFacts.
Context `{Geodesy}.
Import DriverLocation NearbySpec DriverQueries.

(** [updateLocation] in closed form. *)
Lemma updateLocation_eq (d : uuid) (latitude longitude : Q) (h s : option Q)
    (w : World) :
  let geoKey := "drivers:locations:"
                +:+ Geo.getRegionFromCoordinates latitude longitude in
  ∃ w', updateLocation d latitude longitude h s w
        = (Ok (Geo.latLngToGeoCell latitude longitude,
               Geo.getRegionFromCoordinates latitude longitude), w')
    ∧ geo (redis w')
      = <[geoKey := geoadd (default [] (geo (redis w) !! geoKey)) d
                      {| lat := latitude; lng := longitude |}]> (geo (redis w))
    ∧ presence (redis w')
      = <[d := clock w + config.DRIVER_PRESENCE_TTL * 1000]> (presence (redis w))
    ∧ meta (redis w')
      = <[d := {| meta_status := meta_status (hgetall_meta (redis w) d);
                  meta_vehicleType := meta_vehicleType (hgetall_meta (redis w) d);
                  meta_heading := Some (default 0%Q h);
                  meta_speed := Some (default 0%Q s) |}]> (meta (redis w))
    ∧ ride_offer (redis w') = ride_offer (redis w)
    ∧ pg w' = pg w ∧ clock w' = clock w ∧ next_uuid w' = next_uuid w.
Proof.
  intros geoKey. unfold updateLocation. msimpl.
  eexists. split; [reflexivity|]. simpl. repeat split.
Qed.

(** GEOADD stores a member once. *)
Lemma filter_member_geoadd (members : list GeoMember) (d : uuid) (p : Coord) :
  filter (λ m, member m = d) (geoadd members d p)
  = [{| member := d; position := p |}].
Proof.
  unfold geoadd. rewrite filter_cons_True by reflexivity. f_equal.
  induction members as [|m l IH]; [reflexivity|].
  rewrite (filter_cons (λ m, member m ≠ d)).
  destruct (decide (member m ≠ d)) as [Hne|Heq]; [|exact IH].
  rewrite filter_cons_False by exact Hne. exact IH.
Qed.

Lemma append_inj_l (p a b : string) : p +:+ a = p +:+ b → a = b.
Proof.
  induction p as [|c p IH]; simpl; [auto|]. intros [= Heq]. auto.
Qed.

(** X2 ([updateLocation], [isDriverOnline]): after a location update the
    driver is online for exactly [DRIVER_PRESENCE_TTL] seconds: [ms]
    milliseconds later [isDriverOnline] answers true if and only if
    [ms < DRIVER_PRESENCE_TTL * 1000]; the presence of every other driver is
    what it was. *)
Theorem updateLocation_presence_ttl (d : uuid) (latitude longitude : Q)
    (h s : option Q) (w : World) (ms : Z) :
  let w' := snd (updateLocation d latitude longitude h s w) in
  fst (isDriverOnline d (exec (Tick ms) w'))
  = Ok (bool_decide (Z.max 0 ms < config.DRIVER_PRESENCE_TTL * 1000))
  ∧ (∀ other, other ≠ d →
       fst (isDriverOnline other (exec (Tick ms) w'))
       = fst (isDriverOnline other (exec (Tick ms) w))).
Proof.
  intros w'. unfold w'.
  destruct (updateLocation_eq d latitude longitude h s w)
    as (w1 & -> & _ & Hp & _ & _ & _ & Hc & _).
  unfold isDriverOnline, presence_exists. msimpl. simpl. rewrite Hp, Hc. split.
  - rewrite lookup_insert_eq. f_equal. apply bool_decide_ext. lia.
  - intros other Hne. rewrite lookup_insert_ne by congruence. reflexivity.
Qed.

(** X3 ([updateLocation], [getDriverLocation]): a location update indexes
    the driver once, at the new position, in the geo index of the region of
    the coordinates, and [getDriverLocation] for that region returns this
    position; the index of every other region is left as it was, so a driver
    who moved to another region stays in the old region's index at the old
    position. *)
Theorem updateLocation_region_index (d : uuid) (latitude longitude : Q)
    (h s : option Q) (w : World) :
  let w' := snd (updateLocation d latitude longitude h s w) in
  let home := Geo.getRegionFromCoordinates latitude longitude in
  fst (getDriverLocation d (Some home) w')
  = Ok (Some {| pos_driverId := d; pos_latitude := latitude;
                pos_longitude := longitude;
                pos_meta := hgetall_meta (redis w') d |})
  ∧ length (filter (λ m, member m = d)
              (default [] (geo (redis w') !! ("drivers:locations:" +:+ home))))
    = 1%nat
  ∧ (∀ region, region ≠ home →
       geo (redis w') !! ("drivers:locations:" +:+ region)
       = geo (redis w) !! ("drivers:locations:" +:+ region)
       ∧ geopos (redis w') ("drivers:locations:" +:+ region) d
         = geopos (redis w) ("drivers:locations:" +:+ region) d).
Proof.
  intros w' home. unfold w'.
  destruct (updateLocation_eq d latitude longitude h s w)
    as (w1 & -> & Hg & _ & _ & _ & _ & _ & _).
  cbn [snd]. fold home in Hg.
  assert (Hown : default [] (geo (redis w1) !! ("drivers:locations:" +:+ home))
                 = geoadd (default [] (geo (redis w) !! ("drivers:locations:" +:+ home)))
                     d {| lat := latitude; lng := longitude |}).
  { rewrite Hg, lookup_insert_eq. reflexivity. }
  assert (Hpos : geopos (redis w1) ("drivers:locations:" +:+ home) d
                 = Some {| lat := latitude; lng := longitude |}).
  { unfold geopos. rewrite Hown, filter_member_geoadd. reflexivity. }
  split; [|split].
  - unfold getDriverLocation. msimpl. change (default "bangalore" (Some home)) with home.
    rewrite Hpos. reflexivity.
  - rewrite Hown, filter_member_geoadd. reflexivity.
  - intros region Hne.
    assert (Hk : geo (redis w1) !! ("drivers:locations:" +:+ region)
                 = geo (redis w) !! ("drivers:locations:" +:+ region)).
    { rewrite Hg. apply lookup_insert_ne. intros Heq.
      apply append_inj_l in Heq. congruence. }
    split; [exact Hk|]. unfold geopos. rewrite Hk. reflexivity.
Qed.
End PresenceFacts.

(** On the scenario: a driver indexed in Bangalore sends a heartbeat from
    Mumbai; the Bangalore index still holds the old position. *)
Lemma updateLocation_keeps_old_region_example :
  DriverQueries.geopos
    (redis (snd (DriverLocation.updateLocation Scenario.D1 19 (729 # 10) None None
                   Scenario.two_online)))
    "drivers:locations:bangalore" Scenario.D1
  = Some Scenario.p1
  ∧ DriverQueries.geopos
      (redis (snd (DriverLocation.updateLocation Scenario.D1 19 (729 # 10) None None
                     Scenario.two_online)))
      "drivers:locations:mumbai" Scenario.D1
    = Some {| lat := 19; lng := 729 # 10 |}.
Proof. vm_compute. split; reflexivity. Qed.

(** ** What the dispatch operations leave alone in the driver stores *)
Section DriverStoreFacts.
Context `{Geodesy}.
Import DriverLocation NearbySpec Dispatch.

Lemma hgetall_meta_same (r r' : Redis) (d : uuid) :
  meta r' = meta r → hgetall_meta r' d = hgetall_meta r d.
Proof. intros Hm. unfold hgetall_meta. rewrite Hm. reflexivity. Qed.

Lemma hgetall_meta_insert (r r' : Redis) (d d' : uuid) (m : DriverMeta) :
  meta r' = <[d := m]> (meta r) →
  hgetall_meta r' d' = if decide (d' = d) then m else hgetall_meta r d'.
Proof.
  intros Hm. unfold hgetall_meta. rewrite Hm.
  destruct (decide (d' = d)) as [->|Hne].
  - rewrite lookup_insert_eq. reflexivity.
  - rewrite lookup_insert_ne by congruence. reflexivity.
Qed.

(** [matchDriver] reads the driver stores and writes none of them. *)
Lemma matchDriver_drivers_frame (ride : RideRow) (region : string) (w : World) :
  geo (redis (snd (matchDriver ride region w))) = geo (redis w)
  ∧ presence (redis (snd (matchDriver ride region w))) = presence (redis w)
  ∧ meta (redis (snd (matchDriver ride region w))) = meta (redis w)
  ∧ clock (snd (matchDriver ride region w)) = clock w.
Proof.
  destruct (nearest_eligible (match_query ride region) w) as [|d rest] eqn:Hnear.
  - rewrite (matchDriver_none _ _ _ Hnear). repeat split.
  - destruct (decide (Exists (λ o, offer_id o = next_uuid w)
                        (driver_offers (pg w)))) as [Hclash|Hfresh].
    + rewrite (matchDriver_conflict _ _ _ _ _ Hnear Hclash). repeat split.
    + destruct (matchDriver_some _ _ _ _ _ Hnear Hfresh)
        as (w' & -> & _ & _ & Hr & _ & Hc & _).
      cbn [snd]. rewrite Hr. repeat split. exact Hc.
Qed.

(** [createRideRequest] likewise. *)
Lemma createRideRequest_drivers_frame (input : RideInput) (w : World) :
  geo (redis (snd (createRideRequest input w))) = geo (redis w)
  ∧ presence (redis (snd (createRideRequest input w))) = presence (redis w)
  ∧ meta (redis (snd (createRideRequest input w))) = meta (redis w)
  ∧ clock (snd (createRideRequest input w)) = clock w.
Proof.
  destruct (createRideRequest_cases input w)
    as (w1 & row & reply & -> & Hcore & _).
  destruct Hcore as (_ & Hc & _ & Hg & Hp & Hm & _).
  case_bool_decide; [cbn [snd]; wsimpl; auto|].
  case_bool_decide; [cbn [snd]; wsimpl; auto|].
  set (w3 := upd_kafka _ _).
  destruct (matchDriver_drivers_frame row
              (Geo.getRegionFromCoordinates (lat (in_pickup input))
                 (lng (in_pickup input))) w3) as (Fg & Fp & Fm & Fc).
  destruct (matchDriver _ _ w3) as [[mr|e] w']; cbn [snd] in *;
    rewrite Fg, Fp, Fm, Fc; unfold w3; wsimpl; auto.
Qed.

(** [handleDriverResponse] writes one field of one hash: the status of the
    responding driver, on ACCEPT. *)
Lemma handleDriverResponse_drivers_frame (rideId : uuid)
    (response : DriverResponse) (w : World) :
  let w' := snd (handleDriverResponse rideId response w) in
  geo (redis w') = geo (redis w)
  ∧ presence (redis w') = presence (redis w)
  ∧ clock w' = clock w
  ∧ meta (redis w')
    = match ride_requests (pg w) !! rideId, resp_action response with
      | Some _, ACCEPT =>
          <[resp_driverId response :=
              {| meta_status := Some ON_TRIP;
                 meta_vehicleType :=
                   meta_vehicleType (hgetall_meta (redis w) (resp_driverId response));
                 meta_heading :=
                   meta_heading (hgetall_meta (redis w) (resp_driverId response));
                 meta_speed :=
                   meta_speed (hgetall_meta (redis w) (resp_driverId response)) |}]>
            (meta (redis w))
      | _, _ => meta (redis w)
      end.
Proof.
  intros w'. unfold w'. clear w'.
  destruct (ride_requests (pg w) !! rideId) as [ride|] eqn:Hride.
  2: { rewrite (handleDriverResponse_missing _ _ _ Hride). repeat split. }
  destruct response as [driverId [] reason]; cbn [resp_action resp_driverId].
  - unfold handleDriverResponse. msimpl. rewrite Hride. simpl.
    unfold update_ride_request, update_driver_offers, updateDriverStatus. msimpl.
    simpl. repeat split.
  - destruct (handleDriverResponse_decline rideId ride driverId reason w Hride)
      as (w1 & _ & _ & Hredis & Hclock & _ & ->).
    case_bool_decide; [cbn [snd]; wsimpl; rewrite Hredis; auto|].
    cbv zeta. destruct (filter _ (nearest_eligible _ _)) as [|a l'];
      [cbn [snd]; wsimpl; rewrite Hredis; auto|].
    set (region := Geo.getRegionFromCoordinates _ _).
    destruct (matchDriver_drivers_frame ride region w1) as (Fg & Fp & Fm & Fc).
    destruct (matchDriver ride region w1) as [[mr|e] w']; cbn [snd] in *;
      rewrite Fg, Fp, Fm, Fc, Hredis; auto.
Qed.

(** [checkTimeout] only ever declines. *)
Lemma checkTimeout_drivers_frame (rideId : uuid) (w : World) :
  geo (redis (snd (checkTimeout rideId w))) = geo (redis w)
  ∧ presence (redis (snd (checkTimeout rideId w))) = presence (redis w)
  ∧ meta (redis (snd (checkTimeout rideId w))) = meta (redis w)
  ∧ clock (snd (checkTimeout rideId w)) = clock w.
Proof.
  unfold checkTimeout. msimpl.
  destruct (get_offer (redis w) (clock w) rideId) as [offer|]; [|auto].
  case_bool_decide; [|auto].
  pose proof (handleDriverResponse_drivers_frame rideId
                {| resp_driverId := entry_driverId offer; resp_action := DECLINE;
                   resp_reason := Some "Timeout" |} w) as F.
  cbv zeta in F. cbn [resp_action] in F.
  destruct (handleDriverResponse _ _ w) as [[r|e] w']; cbn [snd] in *.
  - destruct F as (Fg & Fp & Fc & Fm). rewrite Fm.
    destruct (ride_requests (pg w) !! rideId); auto.
  - destruct F as (Fg & Fp & Fc & Fm). rewrite Fm.
    destruct (ride_requests (pg w) !! rideId); auto.
Qed.

(** [updateDriverStatus] in closed form. *)
Lemma updateDriverStatus_eq (d : uuid) (s : DriverStatus) (w : World) :
  ∃ w', updateDriverStatus d s w = (Ok (d, s), w')
    ∧ meta (redis w')
      = <[d := {| meta_status := Some s;
                  meta_vehicleType := meta_vehicleType (hgetall_meta (redis w) d);
                  meta_heading := meta_heading (hgetall_meta (redis w) d);
                  meta_speed := meta_speed (hgetall_meta (redis w) d) |}]>
          (meta (redis w))
    ∧ geo (redis w') = geo (redis w)
    ∧ presence (redis w') = presence (redis w)
    ∧ ride_offer (redis w') = ride_offer (redis w)
    ∧ pg w' = pg w ∧ clock w' = clock w ∧ next_uuid w' = next_uuid w
    ∧ kafka w' = kafka w ++ [DRIVER_STATUS_CHANGED d s].
Proof.
  unfold updateDriverStatus. msimpl. eexists. split; [reflexivity|].
  simpl. repeat split.
Qed.

(** The driver hash after one operation of the API. *)
Lemma exec_meta (op : Op) (w : World) (d : uuid) :
  meta_vehicleType (hgetall_meta (redis (exec op w)) d)
  = meta_vehicleType (hgetall_meta (redis w) d)
  ∧ (meta_status (hgetall_meta (redis (exec op w)) d) = Some ONLINE →
     meta_status (hgetall_meta (redis w) d) = Some ONLINE
     ∨ op = SetDriverStatus d ONLINE).
Proof.
  destruct op as [input|rideId response|rideId|rideId reason|d' la lo|d' s|ms];
    cbn [exec].
  - destruct (createRideRequest_drivers_frame input w) as (_ & _ & Hm & _).
    rewrite (hgetall_meta_same _ _ d Hm). auto.
  - pose proof (handleDriverResponse_drivers_frame rideId response w) as F.
    cbv zeta in F. destruct F as (_ & _ & _ & Hm).
    destruct (ride_requests (pg w) !! rideId) as [ride|];
      [|rewrite (hgetall_meta_same _ _ d Hm); auto].
    destruct (resp_action response);
      [|rewrite (hgetall_meta_same _ _ d Hm); auto].
    rewrite (hgetall_meta_insert _ _ _ d _ Hm).
    destruct (decide (d = resp_driverId response)) as [->|Hne]; [|auto].
    cbn [meta_vehicleType meta_status]. split; [reflexivity | discriminate].
  - destruct (checkTimeout_drivers_frame rideId w) as (_ & _ & Hm & _).
    rewrite (hgetall_meta_same _ _ d Hm). auto.
  - auto.
  - destruct (updateLocation_eq d' la lo None None w)
      as (w1 & -> & _ & _ & Hm & _). cbn [snd].
    rewrite (hgetall_meta_insert _ _ _ d _ Hm).
    destruct (decide (d = d')) as [->|Hne]; auto.
  - destruct (updateDriverStatus_eq d' s w) as (w1 & -> & Hm & _). cbn [snd].
    rewrite (hgetall_meta_insert _ _ _ d _ Hm).
    destruct (decide (d = d')) as [->|Hne]; [|auto].
    cbn [meta_vehicleType meta_status]. split; [reflexivity|].
    intros [= ->]. right. reflexivity.
  - auto.
Qed.
End DriverStoreFacts.

(** ** Who can be found by the proximity query *)
Section EligibilityFacts.
Context `{Geodesy}.
Import DriverLocation NearbySpec Dispatch.

(** No operation of the API writes the vehicle type of a driver. *)
Lemma run_vehicleType (ops : list Op) (w : World) (d : uuid) :
  meta_vehicleType (hgetall_meta (redis (run ops w)) d)
  = meta_vehicleType (hgetall_meta (redis w) d).
Proof.
  revert w. induction ops as [|op ops IH]; intros w; [reflexivity|].
  change (run (op :: ops) w) with (run ops (exec op w)).
  rewrite IH. apply exec_meta.
Qed.

(** A driver's status reads ONLINE only after [updateDriverStatus] set it. *)
Lemma run_status_online (ops : list Op) (w : World) (d : uuid) :
  SetDriverStatus d ONLINE ∉ ops →
  meta_status (hgetall_meta (redis (run ops w)) d) = Some ONLINE →
  meta_status (hgetall_meta (redis w) d) = Some ONLINE.
Proof.
  revert w. induction ops as [|op ops IH]; intros w Hnot Hon; [exact Hon|].
  change (run (op :: ops) w) with (run ops (exec op w)) in Hon.
  apply not_elem_of_cons in Hnot as [Hne Hnot].
  apply IH in Hon; [|exact Hnot].
  destruct (proj2 (exec_meta op w d) Hon) as [Hw| ->]; [exact Hw | contradiction].
Qed.

(** Every driver the query returns passed its filter. *)
Lemma nearest_eligible_eligible (q : NearbyQuery) (w : World) (d : NearbyDriver) :
  d ∈ nearest_eligible q w →
  eligible (redis w) (clock w) (q_vehicleType q) (driverId d).
Proof.
  unfold nearest_eligible. intros Hin.
  apply (subseteq_take _ _ d) in Hin.
  apply list_elem_of_fmap in Hin as (g & -> & Hg).
  apply list_elem_of_filter in Hg as [Hel _]. exact Hel.
Qed.

Lemma nearest_eligible_nil (q : NearbyQuery) (w : World) :
  (∀ d, ¬ eligible (redis w) (clock w) (q_vehicleType q) d) →
  nearest_eligible q w = [].
Proof.
  intros Hnone. destruct (nearest_eligible q w) as [|d rest] eqn:Heq; [reflexivity|].
  exfalso. apply (Hnone (driverId d)), nearest_eligible_eligible.
  rewrite Heq. left.
Qed.

(** The drivers of a reply, whatever the limit. *)
Lemma findNearbyDrivers_members (q : NearbyQuery) (w : World) (d : uuid) :
  match fst (findNearbyDrivers q w) with
  | Ok res => d ∈ driverId <$> drivers res →
              eligible (redis w) (clock w) (q_vehicleType q) d
  | Err _ => True
  end.
Proof.
  destruct (decide (1 ≤ q_limit q)) as [Hpos|Hneg].
  - rewrite (findNearbyDrivers_eq q w Hpos). cbn [fst drivers].
    intros Hin. apply list_elem_of_fmap in Hin as (nd & -> & Hin).
    apply nearest_eligible_eligible. exact Hin.
  - unfold findNearbyDrivers, georadius_asc_count.
    rewrite bool_decide_true by lia. exact I.
Qed.
End EligibilityFacts.

Section EligibilityTheorems.
Context `{Geodesy}.
Import DriverLocation NearbySpec Dispatch.

(** X4 ([updateLocation], [updateDriverStatus], and every operation of the
    services): no operation writes the [vehicleType] field of a driver's
    metadata hash; after any run it holds what it held before. *)
Theorem vehicleType_never_written (ops : list Op) (w : World) (d : uuid) :
  meta_vehicleType (hgetall_meta (redis (run ops w)) d)
  = meta_vehicleType (hgetall_meta (redis w) d)
  ∧ (∀ latitude longitude h s,
       meta_vehicleType
         (hgetall_meta (redis (snd (updateLocation d latitude longitude h s w))) d)
       = meta_vehicleType (hgetall_meta (redis w) d))
  ∧ (∀ s,
       meta_vehicleType (hgetall_meta (redis (snd (updateDriverStatus d s w))) d)
       = meta_vehicleType (hgetall_meta (redis w) d)).
Proof.
  split; [apply run_vehicleType|]. split.
  - intros latitude longitude h s.
    destruct (updateLocation_eq d latitude longitude h s w)
      as (w1 & -> & _ & _ & Hm & _). cbn [snd].
    rewrite (hgetall_meta_insert _ _ _ d _ Hm).
    rewrite decide_True by reflexivity. reflexivity.
  - intros s. destruct (updateDriverStatus_eq d s w) as (w1 & -> & Hm & _).
    cbn [snd]. rewrite (hgetall_meta_insert _ _ _ d _ Hm).
    rewrite decide_True by reflexivity. reflexivity.
Qed.

(** X5 ([findNearbyDrivers], [matchDriver], [createRideRequest]): in a
    deployment that starts empty, whatever the drivers and riders did, a ride
    of a tier other than ECONOMY has no eligible driver: the request is
    answered without a matched driver and stored as NO_DRIVERS (the filter
    compares the tier with [meta.vehicleType || 'ECONOMY'], and no operation
    writes [vehicleType]); and the request does succeed when its idempotency
    key is new. *)
Theorem non_economy_ride_unmatched (ops : list Op) (input : RideInput) :
  in_tier input ≠ ECONOMY →
  let w := run ops empty_world in
  nearest_eligible (pickup_query (in_pickup input) (in_tier input)) w = []
  ∧ (∀ r w', createRideRequest input w = (Ok r, w') →
       r_matchedDriver r = None
       ∧ status <$> ride_requests (pg w') !! r_id r = Some RideStatus.NO_DRIVERS)
  ∧ (¬ map_Exists (λ _ r, idempotency_key r = in_idempotencyKey input)
         (ride_requests (pg w)) →
     ∃ r w', createRideRequest input w = (Ok r, w')).
Proof.
  intros Htier w.
  assert (Hnone : nearest_eligible
                    (pickup_query (in_pickup input) (in_tier input)) w = []).
  { apply nearest_eligible_nil. intros d (_ & _ & Hv).
    cbn [pickup_query q_vehicleType] in Hv.
    unfold w in Hv. rewrite run_vehicleType in Hv.
    apply Htier. rewrite <- Hv. reflexivity. }
  split; [exact Hnone|].
  destruct (createRideRequest_cases input w)
    as (w1 & row & reply & Heq & Hcore & Hid & Hst & Hzero & Hlat & Hlng & Htr
        & _ & Hreply).
  rewrite Heq. clear Heq.
  set (w3 := upd_kafka _ (upd_pg _ (upd_next_uuid S w1))).
  assert (Hnear : nearest_eligible
                    (match_query row
                       (Geo.getRegionFromCoordinates (lat (in_pickup input))
                          (lng (in_pickup input)))) w3 = []).
  { rewrite (match_query_pickup row input Hlat Hlng Htr). rewrite <- Hnone.
    destruct Hcore as (_ & Hc & _ & Hg & Hp & Hm & _).
    apply nearest_eligible_frame; unfold w3; simpl; assumption. }
  rewrite (matchDriver_none _ _ _ Hnear).
  split.
  - intros r w'. case_bool_decide; [discriminate|]. case_bool_decide; [discriminate|].
    intros [= <- <-]. destruct (Hreply None) as (Hrid & _ & _ & Hrmd).
    split; [exact Hrmd|]. rewrite Hrid. unfold w3. simpl.
    rewrite Hid, lookup_alter_eq, lookup_insert_eq. reflexivity.
  - intros Hkey.
    assert (Hwf : wf w) by (apply run_wf, empty_world_wf).
    rewrite bool_decide_false.
    + rewrite bool_decide_false by exact Hkey. eexists _, _. reflexivity.
    + intros [r0 Hr0]. destruct Hwf as [Hrows _].
      destruct (Hrows _ _ Hr0) as (_ & Hlt & _). unfold w in Hlt. lia.
Qed.

(** X6 ([findNearbyDrivers], [updateLocation], [updateDriverStatus]): a
    driver whose stored status is not ONLINE is returned by no search until
    [updateDriverStatus] sets the status to ONLINE; location updates, ride
    requests, driver responses, timeouts, cancellations and the passing of
    time never make the driver eligible. *)
Theorem driver_found_only_after_going_online (ops : list Op) (w : World)
    (d : uuid) (q : NearbyQuery) :
  meta_status (hgetall_meta (redis w) d) ≠ Some ONLINE →
  SetDriverStatus d ONLINE ∉ ops →
  match fst (findNearbyDrivers q (run ops w)) with
  | Ok res => d ∉ driverId <$> drivers res
  | Err _ => True
  end.
Proof.
  intros Hoff Hnot.
  pose proof (findNearbyDrivers_members q (run ops w) d) as Hm.
  destruct (fst (findNearbyDrivers q (run ops w))) as [res|e]; [|exact I].
  intros Hin. destruct (Hm Hin) as (_ & Hon & _).
  apply Hoff. eapply run_status_online; eassumption.
Qed.

(** X7 ([handleDriverResponse], [findNearbyDrivers], [checkTimeout]): when
    a driver accepts an existing ride, the driver's status is ON_TRIP, no
    search returns the driver, and [checkTimeout] of the ride answers
    [timedOut: false] without changing anything (the offer entry is
    deleted). *)
Theorem accept_takes_driver_off (rideId : uuid) (ride : RideRow) (d : uuid)
    (reason : option string) (q : NearbyQuery) (w : World) :
  ride_requests (pg w) !! rideId = Some ride →
  let w' := snd (handleDriverResponse rideId
                   {| resp_driverId := d; resp_action := ACCEPT;
                      resp_reason := reason |} w) in
  meta_status (hgetall_meta (redis w') d) = Some ON_TRIP
  ∧ match fst (findNearbyDrivers q w') with
    | Ok res => d ∉ driverId <$> drivers res
    | Err _ => True
    end
  ∧ checkTimeout rideId w' = (Ok {| timedOut := false |}, w').
Proof.
  intros Hride w'.
  pose proof (handleDriverResponse_drivers_frame rideId
                {| resp_driverId := d; resp_action := ACCEPT;
                   resp_reason := reason |} w) as F.
  cbv zeta in F. fold w' in F. destruct F as (_ & _ & _ & Hm).
  rewrite Hride in Hm. cbn [resp_action resp_driverId] in Hm.
  assert (Hst : meta_status (hgetall_meta (redis w') d) = Some ON_TRIP).
  { rewrite (hgetall_meta_insert _ _ _ d _ Hm).
    rewrite decide_True by reflexivity. reflexivity. }
  split; [exact Hst|]. split.
  - pose proof (findNearbyDrivers_members q w' d) as Hmem.
    destruct (fst (findNearbyDrivers q w')) as [res|e]; [|exact I].
    intros Hin. destruct (Hmem Hin) as (_ & Hon & _).
    rewrite Hst in Hon. discriminate.
  - destruct (handleDriverResponse_accept rideId ride d reason w Hride)
      as (w1 & Heq & _ & _ & Hoffer & _).
    assert (Hw : w' = w1) by (unfold w'; rewrite Heq; reflexivity).
    rewrite Hw. unfold checkTimeout. msimpl. unfold get_offer.
    rewrite Hoffer, lookup_delete_eq. reflexivity.
Qed.
End EligibilityTheorems.

(** X5, witness: [D1] and [D2] are ONLINE at the pickup point, and a PREMIUM
    ride finds neither. *)
Lemma non_economy_ride_unmatched_witness :
  NearbySpec.nearest_eligible
    (pickup_query (Dispatch.in_pickup Scenarios.premium_input)
       (Dispatch.in_tier Scenarios.premium_input))
    (run Scenarios.two_online_ops empty_world)
  = [].
Proof.
  refine (proj1 (non_economy_ride_unmatched Scenarios.two_online_ops
                   Scenarios.premium_input _)).
  discriminate.
Defined.

(** X6, witness: [D1] went OFFLINE and keeps sending heartbeats. *)
Lemma driver_found_only_after_going_online_witness :
  match fst (DriverLocation.findNearbyDrivers Scenario.nearest_one
               (run [Heartbeat Scenario.D1 (lat Scenario.p1) (lng Scenario.p1);
                     Tick 1000;
                     Heartbeat Scenario.D1 (lat Scenario.p1) (lng Scenario.p1)]
                  Scenario.two_offline_one_online)) with
  | Ok res => Scenario.D1 ∉ DriverLocation.driverId <$> DriverLocation.drivers res
  | Err _ => True
  end.
Proof.
  apply (driver_found_only_after_going_online _ Scenario.two_offline_one_online
           Scenario.D1 Scenario.nearest_one).
  - vm_compute. discriminate.
  - intros Hin. repeat (apply elem_of_cons in Hin as [Heq|Hin]; [discriminate|]).
    inversion Hin.
Defined.

(** X7, witness: [D1] accepts the ride offered in the scenario. *)
Lemma accept_takes_driver_off_witness :
  meta_status
    (DriverLocation.hgetall_meta
       (redis (snd (Dispatch.handleDriverResponse Scenario.ride_id
                      (Scenario.accept_by Scenario.D1) Scenario.offered)))
       Scenario.D1)
  = Some ON_TRIP.
Proof.
  destruct (ride_requests (pg Scenario.offered) !! Scenario.ride_id)
    as [ride|] eqn:Hride; [|vm_compute in Hride; discriminate].
  exact (proj1 (accept_takes_driver_off Scenario.ride_id ride Scenario.D1 None
                  Scenario.nearest_one Scenario.offered Hride)).
Defined.

(** ** Demand counters and the surge cache *)
Section SurgeCacheFacts.
Context `{Geodesy}.
Import SurgeService SurgeSpec.

Lemma get_demand_live (r : Redis) (now : Z) (geoCell : string) :
  get_demand r now geoCell = default 0 (fst <$> live_demand r now geoCell).
Proof.
  unfold get_demand, live_demand.
  destruct (demand r !! geoCell) as [[n [expiry|]]|]; [|reflexivity..].
  case_bool_decide; reflexivity.
Qed.

(** [incrementDemand] in closed form. *)
Lemma incrementDemand_eq (geoCell region : string) (w : World) :
  let count := get_demand (redis w) (clock w) geoCell + 1 in
  ∃ w',
    incrementDemand geoCell region w = (Ok (geoCell, count), w')
    ∧ demand (redis w')
      = <[geoCell :=
            (count,
             if bool_decide (count = 1)
             then Some (clock w + config.DEMAND_COUNTER_TTL * 1000)
             else live_demand (redis w) (clock w) geoCell ≫= snd)]>
          (demand (redis w))
    ∧ clock w' = clock w.
Proof.
  intros count. unfold count. rewrite get_demand_live.
  unfold incrementDemand. msimpl. fold (live_demand (redis w) (clock w) geoCell).
  destruct (live_demand (redis w) (clock w) geoCell) as [[n e]|]; cbn.
  - case_bool_decide; cbn; eexists; (split; [reflexivity|]); cbn;
      rewrite ?insert_insert_eq; split; reflexivity.
  - eexists; (split; [reflexivity|]); cbn.
    rewrite insert_insert_eq. split; reflexivity.
Qed.

Lemma incrementDemand_counts (geoCell region : string) (w : World) :
  let w' := snd (incrementDemand geoCell region w) in
  get_demand (redis w') (clock w') geoCell
  = get_demand (redis w) (clock w) geoCell + 1.
Proof.
  destruct (incrementDemand_eq geoCell region w) as (w' & Heq & Hd & Hc).
  cbv zeta. rewrite Heq. cbn [snd].
  unfold get_demand at 1. rewrite Hd, lookup_insert_eq, Hc.
  case_bool_decide as Hone.
  - rewrite bool_decide_true by (unfold config.DEMAND_COUNTER_TTL; lia).
    reflexivity.
  - rewrite get_demand_live. unfold live_demand.
    destruct (demand (redis w) !! geoCell) as [[n [e|]]|]; cbn; [|reflexivity..].
    case_bool_decide as Hlive; cbn; [|reflexivity].
    rewrite bool_decide_true by exact Hlive. reflexivity.
Qed.

(** X8 ([incrementDemand]): the demand counter of a cell counts in a
    fixed window: the increment answers the live count plus one and touches no
    other cell; the first increment of a window sets the expiry to
    [DEMAND_COUNTER_TTL] seconds from now; a later increment within the window
    keeps the expiry of the first; after the expiry the counter reads 0. *)
Theorem incrementDemand_fixed_window (geoCell region : string) (w : World) :
  ∃ w',
    incrementDemand geoCell region w
    = (Ok (geoCell, get_demand (redis w) (clock w) geoCell + 1), w')
    ∧ (∀ other, other ≠ geoCell →
         demand (redis w') !! other = demand (redis w) !! other)
    ∧ (get_demand (redis w) (clock w) geoCell = 0 →
       demand (redis w') !! geoCell
       = Some (1, Some (clock w + config.DEMAND_COUNTER_TTL * 1000)))
    ∧ (∀ n expiry, demand (redis w) !! geoCell = Some (n, Some expiry) →
         clock w < expiry → n ≠ 0 →
         demand (redis w') !! geoCell = Some (n + 1, Some expiry))
    ∧ (∀ ms, 0 ≤ ms →
         get_demand (redis w') (clock w' + ms) geoCell
         = match demand (redis w') !! geoCell with
           | Some (n, Some expiry) =>
               if bool_decide (clock w + ms < expiry) then n else 0
           | Some (n, None) => n
           | None => 0
           end)
    ∧ get_demand (redis w') (clock w') geoCell
      = get_demand (redis w) (clock w) geoCell + 1.
Proof.
  destruct (incrementDemand_eq geoCell region w) as (w' & Heq & Hd & Hc).
  exists w'. split; [exact Heq|]. split; [|split; [|split; [|split]]].
  - intros other Hne. rewrite Hd. apply lookup_insert_ne. congruence.
  - intros Hz. rewrite Hd, lookup_insert_eq, Hz. reflexivity.
  - intros n expiry Hl Hlive Hnz. rewrite Hd, lookup_insert_eq.
    unfold get_demand, live_demand. rewrite Hl.
    rewrite (bool_decide_true (clock w < expiry)) by exact Hlive.
    rewrite bool_decide_false by lia. reflexivity.
  - intros ms Hms. unfold get_demand at 1. rewrite Hc.
    destruct (demand (redis w') !! geoCell) as [[n [e|]]|]; reflexivity.
  - unfold get_demand at 1. rewrite Hd, lookup_insert_eq, Hc.
    case_bool_decide as Hone.
    + rewrite bool_decide_true by (unfold config.DEMAND_COUNTER_TTL; lia).
      reflexivity.
    + rewrite get_demand_live. unfold live_demand.
      destruct (demand (redis w) !! geoCell) as [[n [e|]]|]; cbn; [|reflexivity..].
      case_bool_decide as Hlive; cbn; [|reflexivity].
      rewrite bool_decide_true by exact Hlive. reflexivity.
Qed.

(** [getSurgeForCell] is a pure read of the cache. *)
Lemma getSurgeForCell_eq (geoCell : string) (w : World) :
  getSurgeForCell geoCell w = (Ok (cached_surge w geoCell), w).
Proof.
  unfold getSurgeForCell, cached_surge. msimpl.
  destruct (surge (redis w) !! geoCell) as [[h expiry]|]; [|reflexivity].
  case_bool_decide; reflexivity.
Qed.

(** [calculateSurge] in closed form. *)
Lemma calculateSurge_eq (geoCell region : string) (latitude longitude : Q)
    (w : World) :
  ∃ supply w',
    let demandCount := get_demand (redis w) (clock w) geoCell in
    let data := {| geoCell := geoCell;
                   surgeMultiplier :=
                     Surge.computeSurgeMultiplier (inject_Z supply)
                                                  (inject_Z demandCount);
                   supplyCount := supply; demandCount := demandCount |} in
    getSupplyCount region latitude longitude w = (Ok supply, w)
    ∧ calculateSurge geoCell region latitude longitude w = (Ok data, w')
    ∧ surge (redis w')
      = <[geoCell := ({| hash_multiplier := surgeMultiplier data;
                         hash_supply := supply;
                         hash_demand := demandCount;
                         hash_region := region;
                         hash_updatedAt := clock w |},
                      clock w + config.SURGE_CACHE_TTL * 1000)]> (surge (redis w))
    ∧ surge_cells (redis w')
      = <[region := {[geoCell]} ∪ default ∅ (surge_cells (redis w) !! region)]>
          (surge_cells (redis w))
    ∧ demand (redis w') = demand (redis w)
    ∧ clock w' = clock w
    ∧ kafka w' = kafka w ++ [SURGE_UPDATED geoCell region (surgeMultiplier data)
                               supply demandCount].
Proof.
  unfold calculateSurge, getSupplyCount. msimpl.
  eexists _, _. cbv zeta. split; [reflexivity|]. split; [reflexivity|].
  simpl. repeat split.
Qed.

(** X9 ([calculateSurge], [getSupplyCount], [getSurgeForCell]):
    [calculateSurge] always succeeds; its result carries the supply counted by
    [getSupplyCount], the live demand count and the multiplier computed from
    these two; the result is what [getSurgeForCell] reads for exactly
    [SURGE_CACHE_TTL] seconds, after which the default (multiplier 1, no
    supply, no demand) is read again; and the cell is recorded in the region's
    set of surge cells. *)
Theorem calculateSurge_cached_for_ttl (geoCell region : string)
    (latitude longitude : Q) (w : World) (ms : Z) :
  ∃ data w',
    calculateSurge geoCell region latitude longitude w = (Ok data, w')
    ∧ SurgeService.geoCell data = geoCell
    ∧ fst (getSupplyCount region latitude longitude w) = Ok (supplyCount data)
    ∧ demandCount data = get_demand (redis w) (clock w) geoCell
    ∧ surgeMultiplier data
      = Surge.computeSurgeMultiplier (inject_Z (supplyCount data))
                                     (inject_Z (demandCount data))
    ∧ getSurgeForCell geoCell (exec (Tick ms) w')
      = (Ok (if bool_decide (Z.max 0 ms < config.SURGE_CACHE_TTL * 1000)
             then data
             else {| geoCell := geoCell; surgeMultiplier := config.SURGE_MIN;
                     supplyCount := 0; demandCount := 0 |}),
         exec (Tick ms) w')
    ∧ geoCell ∈ default ∅ (surge_cells (redis w') !! region).
Proof.
  destruct (calculateSurge_eq geoCell region latitude longitude w)
    as (supply & w' & Hsup & Heq & Hs & Hcells & _ & Hc & _).
  cbv zeta in *. eexists _, w'. split; [exact Heq|].
  cbn [SurgeService.geoCell supplyCount demandCount surgeMultiplier].
  split; [reflexivity|]. split; [rewrite Hsup; reflexivity|].
  split; [reflexivity|]. split; [reflexivity|]. split.
  - rewrite getSurgeForCell_eq. f_equal. unfold cached_surge. cbn [exec].
    wsimpl. rewrite Hs, lookup_insert_eq, Hc.
    cbn [hash_multiplier hash_supply hash_demand surgeMultiplier].
    unfold config.SURGE_CACHE_TTL. repeat case_bool_decide; try lia; reflexivity.
  - rewrite Hcells, lookup_insert_eq. cbn. set_solver.
Qed.

(** [getSurgeForLocation] in closed form. *)
Lemma getSurgeForLocation_eq (latitude longitude : Q) (w : World) :
  getSurgeForLocation latitude longitude w
  = let cell := Geo.latLngToGeoCell latitude longitude in
    let data := cached_surge w cell in
    if bool_decide (supplyCount data = 0) && bool_decide (demandCount data = 0)
    then calculateSurge cell (Geo.getRegionFromCoordinates latitude longitude)
           latitude longitude w
    else (Ok data, w).
Proof.
  unfold getSurgeForLocation. unfold mbind at 1. unfold M_bind at 1.
  rewrite getSurgeForCell_eq. cbv zeta.
  destruct (_ && _); reflexivity.
Qed.

(** How [getSurgeForLocation] uses the cache: a live entry with supply or
    demand is returned, anything else is recomputed. *)
Lemma getSurgeForLocation_cache (latitude longitude : Q) (w : World) :
  let cell := Geo.latLngToGeoCell latitude longitude in
  let region := Geo.getRegionFromCoordinates latitude longitude in
  (∀ h expiry,
     surge (redis w) !! cell = Some (h, expiry) → clock w < expiry →
     hash_supply h ≠ 0 ∨ hash_demand h ≠ 0 →
     getSurgeForLocation latitude longitude w
     = (Ok {| geoCell := cell; surgeMultiplier := hash_multiplier h;
              supplyCount := hash_supply h; demandCount := hash_demand h |}, w))
  ∧ (∀ h expiry,
       surge (redis w) !! cell = Some (h, expiry) → clock w < expiry →
       hash_supply h = 0 → hash_demand h = 0 →
       getSurgeForLocation latitude longitude w
       = calculateSurge cell region latitude longitude w)
  ∧ (∀ h expiry,
       surge (redis w) !! cell = Some (h, expiry) → expiry ≤ clock w →
       getSurgeForLocation latitude longitude w
       = calculateSurge cell region latitude longitude w)
  ∧ (surge (redis w) !! cell = None →
     getSurgeForLocation latitude longitude w
     = calculateSurge cell region latitude longitude w).
Proof.
  intros cell region. rewrite getSurgeForLocation_eq. cbv zeta.
  fold cell region. unfold cached_surge.
  split; [|split; [|split]].
  - intros h expiry -> Hlive Hnz.
    rewrite (bool_decide_true (clock w < expiry)) by exact Hlive.
    cbn [supplyCount demandCount].
    destruct Hnz as [Hnz|Hnz].
    + rewrite (bool_decide_false (hash_supply h = 0)) by exact Hnz. reflexivity.
    + rewrite (bool_decide_false (hash_demand h = 0)) by exact Hnz.
      rewrite andb_false_r. reflexivity.
  - intros h expiry -> Hlive Hs Hd.
    rewrite (bool_decide_true (clock w < expiry)) by exact Hlive.
    cbn [supplyCount demandCount].
    rewrite !bool_decide_true by assumption. reflexivity.
  - intros h expiry -> Hdead.
    rewrite (bool_decide_false (clock w < expiry)) by lia. reflexivity.
  - intros ->. reflexivity.
Qed.
End SurgeCacheFacts.

(** ** Surge zones of a region *)
Section ZoneFacts.
Import SurgeService SurgeSpec SurgeZones.
#[local] Open Scope Q_scope.

#[local] Instance by_surge_desc_total : Total by_surge_desc.
Proof.
  intros a b. unfold by_surge_desc.
  destruct (Qlt_le_dec (surgeMultiplier a) (surgeMultiplier b)) as [Hlt|Hle].
  - right. apply Qlt_le_weak. exact Hlt.
  - left. exact Hle.
Qed.

#[local] Instance by_surge_desc_trans : Transitive by_surge_desc.
Proof. intros a b c. unfold by_surge_desc. intros ? ?. eapply Qle_trans; eassumption. Qed.

(** The loop reads the cache cell by cell and keeps the zones at or above the
    threshold, in the order of the cells. *)
Lemma collect_zones_eq (cells : list string) (minSurge : Q)
    (zones : list SurgeData) (w : World) :
  collect_zones cells minSurge zones w
  = (Ok (zones ++ filter (λ z, minSurge <= surgeMultiplier z)
                    (cached_surge w <$> cells)), w).
Proof.
  revert zones. induction cells as [|c cells IH]; intros zones.
  - cbn. rewrite app_nil_r. reflexivity.
  - cbn [collect_zones]. unfold mbind at 1. unfold M_bind at 1.
    rewrite getSurgeForCell_eq. rewrite fmap_cons, filter_cons.
    destruct (decide (minSurge <= surgeMultiplier (cached_surge w c))) as [Hge|Hlt].
    + rewrite bool_decide_true by exact Hge. rewrite IH, <- app_assoc. reflexivity.
    + rewrite bool_decide_false by exact Hlt. apply IH.
Qed.

(** X11 ([getSurgeZonesForRegion]): the zones of a region are the cached
    entries of the cells of the region's set whose multiplier is at least
    [minSurge], sorted by multiplier in descending order; there are no more
    zones than cells; and a cell whose cache entry has expired is still
    listed, with the default multiplier 1, when [minSurge <= 1]. *)
Theorem getSurgeZonesForRegion_sorted (region : string) (minSurge : Q) (w : World) :
  let cells : gset string := default ∅ (surge_cells (redis w) !! region) in
  ∃ zones,
    getSurgeZonesForRegion region minSurge w = (Ok (region, zones), w)
    ∧ StronglySorted by_surge_desc zones
    ∧ (∀ z, z ∈ zones ↔
         geoCell z ∈ cells ∧ z = cached_surge w (geoCell z)
         ∧ minSurge <= surgeMultiplier z)
    ∧ (length zones ≤ size cells)%nat
    ∧ (∀ cell, cell ∈ cells →
         (∀ h expiry, surge (redis w) !! cell = Some (h, expiry) →
                      (expiry ≤ clock w)%Z) →
         minSurge <= 1 →
         {| geoCell := cell; surgeMultiplier := config.SURGE_MIN;
            supplyCount := 0; demandCount := 0 |} ∈ zones).
Proof.
  intros cells. unfold getSurgeZonesForRegion. msimpl.
  fold cells. rewrite collect_zones_eq. cbn [app].
  set (kept := filter _ _).
  exists (merge_sort by_surge_desc kept). split; [reflexivity|].
  assert (Hmem : ∀ z, z ∈ merge_sort by_surge_desc kept ↔
            geoCell z ∈ cells ∧ z = cached_surge w (geoCell z)
            ∧ minSurge <= surgeMultiplier z).
  { intros z. rewrite merge_sort_Permutation. unfold kept.
    rewrite list_elem_of_filter, list_elem_of_fmap. split.
    - intros (Hge & c & -> & Hc). apply elem_of_elements in Hc.
      assert (Hcell : geoCell (cached_surge w c) = c).
      { unfold cached_surge. destruct (surge (redis w) !! c) as [[h e]|];
          [case_bool_decide|]; reflexivity. }
      rewrite Hcell. auto.
    - intros (Hc & Hz & Hge). split; [exact Hge|].
      exists (geoCell z). split; [exact Hz|]. apply elem_of_elements. exact Hc. }
  split; [apply StronglySorted_merge_sort; apply _|].
  split; [exact Hmem|]. split.
  - rewrite merge_sort_Permutation. unfold kept.
    etransitivity; [apply length_filter|]. rewrite length_fmap. reflexivity.
  - intros cell Hcell Hdead Hmin. apply Hmem. cbn [geoCell surgeMultiplier].
    split; [exact Hcell|]. split; [|exact Hmin].
    unfold cached_surge. destruct (surge (redis w) !! cell) as [[h e]|] eqn:Hs;
      [|reflexivity].
    rewrite bool_decide_false; [reflexivity|].
    specialize (Hdead h e eq_refl). lia.
Qed.
End ZoneFacts.

(** ** The surge multiplier quoted to a ride *)
Section QuoteFacts.
Context `{Geodesy}.
Import DriverLocation NearbySpec Dispatch SurgeService SurgeSpec.

(** [incrementDemand] writes the counter of its cell and nothing else. *)
Lemma incrementDemand_frame (geoCell region : string) (w : World) :
  let w' := snd (incrementDemand geoCell region w) in
  surge (redis w') = surge (redis w)
  ∧ surge_cells (redis w') = surge_cells (redis w)
  ∧ kafka w' = kafka w.
Proof.
  unfold incrementDemand. msimpl.
  case_bool_decide; cbn; repeat split.
Qed.

(** [matchDriver] changes columns of the ride's row that carry no price, and
    leaves the surge engine's keys alone. *)
Lemma matchDriver_prices (ride : RideRow) (region : string) (w : World) :
  let w' := snd (matchDriver ride region w) in
  surge (redis w') = surge (redis w)
  ∧ demand (redis w') = demand (redis w)
  ∧ (∀ k, surge_multiplier <$> ride_requests (pg w') !! k
          = surge_multiplier <$> ride_requests (pg w) !! k)
  ∧ (∀ k, estimated_fare <$> ride_requests (pg w') !! k
          = estimated_fare <$> ride_requests (pg w) !! k).
Proof.
  assert (Halter : ∀ (f : RideRow → RideRow) (g : RideRow → Q) (m : gmap uuid RideRow) k k',
            (∀ r, g (f r) = g r) → g <$> alter f k m !! k' = g <$> m !! k').
  { intros f g m k k' Hf. destruct (decide (k = k')) as [->|Hne].
    - rewrite lookup_alter_eq. destruct (m !! k'); cbn; [rewrite Hf|]; reflexivity.
    - rewrite lookup_alter_ne by exact Hne. reflexivity. }
  intros w'. unfold w'. clear w'.
  destruct (nearest_eligible (match_query ride region) w) as [|d rest] eqn:Hnear.
  - rewrite (matchDriver_none _ _ _ Hnear). cbn [snd]. wsimpl.
    repeat split; intros k; apply Halter; reflexivity.
  - destruct (decide (Exists (λ o, offer_id o = next_uuid w)
                        (driver_offers (pg w)))) as [Hclash|Hfresh].
    + rewrite (matchDriver_conflict _ _ _ _ _ Hnear Hclash). repeat split.
    + destruct (matchDriver_some _ _ _ _ _ Hnear Hfresh)
        as (w' & -> & Hrows & _ & Hr & _).
      cbn [snd]. rewrite Hr, Hrows. wsimpl.
      repeat split; intros k; apply Halter; reflexivity.
Qed.

(** X10 ([createRideRequest], [getSurgeForLocation], [incrementDemand]): a
    ride requested from a cell with a live cached surge entry (with supply or
    demand) is priced with the cached multiplier: the reply and the stored row
    carry this multiplier and the fare estimated with it; the request leaves
    the surge cache unchanged and counts one more demand for the cell. *)
Theorem createRideRequest_quotes_cached_surge (input : RideInput) (w : World)
    (h : SurgeHash) (expiry : Z) :
  let pickup := in_pickup input in
  let destination := in_destination input in
  let cell := Geo.latLngToGeoCell (lat pickup) (lng pickup) in
  surge (redis w) !! cell = Some (h, expiry) →
  clock w < expiry →
  hash_supply h ≠ 0 ∨ hash_demand h ≠ 0 →
  let fare := calculateEstimatedFare
                (calculateDistance (lat pickup) (lng pickup)
                   (lat destination) (lng destination))
                (hash_multiplier h) in
  let w' := snd (createRideRequest input w) in
  surge (redis w') = surge (redis w)
  ∧ get_demand (redis w') (clock w') cell
    = get_demand (redis w) (clock w) cell + 1
  ∧ match fst (createRideRequest input w) with
    | Ok r =>
        r_surgeMultiplier r = hash_multiplier h
        ∧ r_estimatedFare r = fare
        ∧ surge_multiplier <$> ride_requests (pg w') !! r_id r
          = Some (hash_multiplier h)
        ∧ estimated_fare <$> ride_requests (pg w') !! r_id r = Some fare
    | Err _ => True
    end.
Proof.
  intros pickup destination cell Hcache Hlive Hnz fare w'. unfold w'. clear w'.
  destruct (createRideRequest input w) as [res w'] eqn:Hcr. cbn [fst snd].
  unfold createRideRequest in Hcr. fold pickup destination cell in Hcr.
  set (region := Geo.getRegionFromCoordinates (lat pickup) (lng pickup)) in *.
  destruct (incrementDemand_eq cell region w) as (wa & Ha & Hd & Hc).
  pose proof (incrementDemand_frame cell region w) as Hf.
  cbv zeta in Hf. rewrite Ha in Hf. cbn [snd] in Hf. destruct Hf as (Hs & _ & _).
  assert (Hdem : get_demand (redis wa) (clock wa) cell
                 = get_demand (redis w) (clock w) cell + 1).
  { unfold get_demand at 1. rewrite Hd, lookup_insert_eq, Hc.
    case_bool_decide as Hone.
    - rewrite bool_decide_true by (unfold config.DEMAND_COUNTER_TTL; lia).
      reflexivity.
    - rewrite get_demand_live. unfold live_demand.
      destruct (demand (redis w) !! cell) as [[n [e|]]|]; cbn; [|reflexivity..].
      case_bool_decide as Hl; cbn; [|reflexivity].
      rewrite bool_decide_true by exact Hl. reflexivity. }
  clear Hd.
  unfold mbind at 1 in Hcr. unfold M_bind at 1 in Hcr. rewrite Ha in Hcr.
  unfold mbind at 1 in Hcr. unfold M_bind at 1 in Hcr.
  rewrite getSurgeForLocation_eq in Hcr.
  cbv zeta in Hcr. fold cell in Hcr. unfold cached_surge in Hcr.
  rewrite Hs, Hcache, Hc in Hcr.
  rewrite (bool_decide_true (clock w < expiry)) in Hcr by exact Hlive.
  cbn [supplyCount demandCount surgeMultiplier] in Hcr.
  assert (Hz : bool_decide (hash_supply h = 0) && bool_decide (hash_demand h = 0)
               = false).
  { destruct Hnz as [Hn|Hn].
    - rewrite (bool_decide_false (hash_supply h = 0)) by exact Hn. reflexivity.
    - rewrite (bool_decide_false (hash_demand h = 0)) by exact Hn.
      apply andb_false_r. }
  rewrite Hz in Hcr. clear Hz. clear Ha.
  unfold mbind at 1 in Hcr. unfold M_bind at 1 in Hcr.
  unfold uuidv4 at 1 in Hcr.
  unfold mbind at 1 in Hcr. unfold M_bind at 1 in Hcr.
  unfold Date_now, gets in Hcr.
  unfold mbind at 1 in Hcr. unfold M_bind at 1 in Hcr.
  unfold insert_ride_request in Hcr. wsimpl. cbn [id idempotency_key] in Hcr.
  case_bool_decide.
  { injection Hcr as <- <-. wsimpl.
    split; [exact Hs | split; [exact Hdem | exact I]]. }
  case_bool_decide.
  { injection Hcr as <- <-. wsimpl.
    split; [exact Hs | split; [exact Hdem | exact I]]. }
  unfold mbind at 1 in Hcr. unfold M_bind at 1 in Hcr.
  unfold publishEvent, modify in Hcr.
  unfold mbind at 1 in Hcr. unfold M_bind at 1 in Hcr.
  match type of Hcr with
  | context [matchDriver ?row0 region ?w0] => set (w3 := w0) in *; set (row := row0) in *
  end.
  pose proof (matchDriver_prices row region w3) as Hp. cbv zeta in Hp.
  pose proof (matchDriver_drivers_frame row region w3) as Hfr.
  destruct (matchDriver row region w3) as [[mr|e] w''] eqn:Hm; cbn [fst snd] in *.
  - unfold mret, M_ret in Hcr. injection Hcr as <- <-.
    destruct Hp as (Hps & Hpd & Hpm & Hpf). destruct Hfr as (_ & _ & _ & Hfc).
    split; [rewrite Hps; exact Hs|].
    split.
    { unfold get_demand in *. rewrite Hpd, Hfc. exact Hdem. }
    cbn [r_surgeMultiplier r_estimatedFare r_id].
    split; [reflexivity|]. split; [reflexivity|].
    rewrite Hpm, Hpf. unfold w3. wsimpl. rewrite lookup_insert_eq.
    split; reflexivity.
  - injection Hcr as <- <-.
    destruct Hp as (Hps & Hpd & _). destruct Hfr as (_ & _ & _ & Hfc).
    split; [rewrite Hps; exact Hs|]. split; [|exact I].
    unfold get_demand in *. rewrite Hpd, Hfc. exact Hdem.
Qed.
End QuoteFacts.

(** X10, witness: a second ride from the same pickup point, requested right
    after the first one computed and cached the cell's multiplier. *)
Lemma createRideRequest_quotes_cached_surge_witness :
  surge (redis (snd (Dispatch.createRideRequest Scenarios.second_input
                       Scenario.offered)))
  = surge (redis Scenario.offered).
Proof.
  destruct (surge (redis Scenario.offered)
              !! Geo.latLngToGeoCell (lat (Dispatch.in_pickup Scenarios.second_input))
                   (lng (Dispatch.in_pickup Scenarios.second_input)))
    as [[h e]|] eqn:Hs; [|vm_compute in Hs; discriminate].
  refine (proj1 (createRideRequest_quotes_cached_surge Scenarios.second_input
                   Scenario.offered h e Hs _ _)).
  - vm_compute in Hs. injection Hs as <- <-. vm_compute. reflexivity.
  - vm_compute in Hs. injection Hs as <- <-. left. vm_compute. discriminate.
Defined.

(** ** Ride details *)
Section DetailsFacts.
Context `{Geodesy}.
Import DriverLocation NearbySpec Dispatch RideQueries.

(** [getRideDetails] is a pure read. *)
Lemma getRideDetails_read (rideId : uuid) (w : World) :
  ∃ res, getRideDetails rideId w = (Ok res, w)
    ∧ (res = None ↔ ride_requests (pg w) !! rideId = None).
Proof.
  unfold getRideDetails, select_ride_with_offer. msimpl.
  destruct (ride_requests (pg w) !! rideId) as [rr|].
  - destruct (filter _ _) as [|o os]; cbn; eexists; (split; [reflexivity|]);
      split; discriminate.
  - eexists. split; [reflexivity|]. split; reflexivity.
Qed.



Lemma filter_none {A} (P : A → Prop) `{∀ x, Decision (P x)} (l : list A) :
  Forall (λ x, ¬ P x) l → filter P l = [].
Proof.
  induction 1 as [|x l Hx _ IH]; [reflexivity|].
  rewrite filter_cons_False by exact Hx. exact IH.
Qed.

(** The surge engine publishes no RIDE_MATCHED event and leaves the demand
    counters as they are. *)
Lemma getSurgeForLocation_events (latitude longitude : Q) (w : World) :
  EventSpec.matched_events
    (kafka (snd (SurgeService.getSurgeForLocation latitude longitude w)))
  = EventSpec.matched_events (kafka w)
  ∧ demand (redis (snd (SurgeService.getSurgeForLocation latitude longitude w)))
    = demand (redis w).
Proof.
  rewrite getSurgeForLocation_eq. cbv zeta. destruct (_ && _); [|split; reflexivity].
  destruct (calculateSurge_eq
              (Geo.latLngToGeoCell latitude longitude)
              (Geo.getRegionFromCoordinates latitude longitude)
              latitude longitude w)
    as (supply & w' & _ & Heq & _ & _ & Hd & _ & Hk).
  cbv zeta in Heq, Hk. rewrite Heq. cbn [snd]. rewrite Hk. split; [|exact Hd].
  unfold EventSpec.matched_events. rewrite omap_app. cbn. apply app_nil_r.
Qed.

(** [createRideRequest] in closed form, with the columns of the inserted row
    that the details read. *)
Lemma createRideRequest_inserted (input : RideInput) (w : World) :
  ∃ (w1 : World) (row : RideRow) (reply : option MatchedDriver → RideResult),
    createRideRequest input w
      = (if bool_decide (is_Some (ride_requests (pg w) !! next_uuid w))
         then (Err (DbError "23505"), upd_next_uuid S w1)
         else if bool_decide (map_Exists
                   (λ _ r, idempotency_key r = in_idempotencyKey input)
                   (ride_requests (pg w)))
         then (Err (DbError "23505"), upd_next_uuid S w1)
         else
           match matchDriver row
                   (Geo.getRegionFromCoordinates (lat (in_pickup input))
                                                 (lng (in_pickup input)))
                   (upd_kafka (λ log, log ++
                        [RIDE_REQUESTED (next_uuid w) (in_riderId input)
                           (Geo.getRegionFromCoordinates (lat (in_pickup input))
                                                         (lng (in_pickup input)))])
                      (upd_pg (upd_ride_requests <[next_uuid w := row]>)
                         (upd_next_uuid S w1))) with
           | (Ok mr, w') => (Ok (reply (driver mr)), w')
           | (Err e, w') => (Err e, w')
           end)
    ∧ same_core w w1
    ∧ EventSpec.matched_events (kafka w1) = EventSpec.matched_events (kafka w)
    ∧ (let cell := Geo.latLngToGeoCell (lat (in_pickup input))
                     (lng (in_pickup input)) in
       SurgeService.get_demand (redis w1) (clock w1) cell
       = SurgeService.get_demand (redis w) (clock w) cell + 1)
    ∧ id row = next_uuid w
    ∧ status row = RideStatus.MATCHING
    ∧ match_attempts row = 0
    ∧ current_driver_offer_id row = None
    ∧ driver_id row = None
    ∧ idempotency_key row = in_idempotencyKey input
    ∧ (∀ md, r_id (reply md) = next_uuid w ∧ r_matchedDriver (reply md) = md).
Proof.
  unfold createRideRequest.
  set (cell := Geo.latLngToGeoCell (lat (in_pickup input)) (lng (in_pickup input))).
  set (region := Geo.getRegionFromCoordinates (lat (in_pickup input))
                   (lng (in_pickup input))).
  destruct (incrementDemand_ok cell region w) as (c & wa & Ha & Hca).
  pose proof (incrementDemand_frame cell region w) as Hfa.
  cbv zeta in Hfa. rewrite Ha in Hfa. cbn [snd] in Hfa. destruct Hfa as (_ & _ & Hka).
  destruct (getSurgeForLocation_ok (lat (in_pickup input)) (lng (in_pickup input)) wa)
    as (d & w1 & Hb & Hcb).
  pose proof (incrementDemand_counts cell region w) as Hda.
  cbv zeta in Hda. rewrite Ha in Hda. cbn [snd] in Hda.
  pose proof (getSurgeForLocation_events (lat (in_pickup input))
                (lng (in_pickup input)) wa) as [Hkb Hdb].
  rewrite Hb in Hkb, Hdb. cbn [snd] in Hkb, Hdb. rewrite Hka in Hkb.
  assert (Hdem : SurgeService.get_demand (redis w1) (clock w1) cell
                 = SurgeService.get_demand (redis w) (clock w) cell + 1).
  { rewrite <- Hda. unfold SurgeService.get_demand. rewrite Hdb.
    destruct Hcb as (_ & -> & _). reflexivity. }
  assert (Hc := same_core_trans _ _ _ Hca Hcb).
  destruct Hc as (Hpg & Hclock & Huuid & Hrest).
  unfold mbind at 1. unfold M_bind at 1. rewrite Ha.
  unfold mbind at 1. unfold M_bind at 1. rewrite Hb.
  msimpl. unfold insert_ride_request. wsimpl.
  cbn [id idempotency_key]. rewrite Hpg, Huuid, Hclock.
  lazymatch goal with
  | |- context [(Ok ?row0, upd_pg (upd_ride_requests _) _)] =>
      eexists w1, row0, (λ md, {| r_id := next_uuid w; r_matchedDriver := md |})
  end.
  split.
  - do 2 (case_bool_decide; [reflexivity|]).
    wsimpl. destruct (matchDriver _ _ _) as [[mr|e] w']; reflexivity.
  - split; [unfold same_core; repeat split; tauto|].
    split; [exact Hkb|]. split; [exact Hdem|].
    do 6 (split; [reflexivity|]). intros md; repeat split.
Qed.

End DetailsFacts.

(** ** The ride routes on a ride that does not exist *)
Section RouteFacts.
Context `{Geodesy} `{ResponseWire}.
Import Dispatch RideRoutes.

End RouteFacts.


(** ** An idempotency key that outlives its cache entry *)
Section KeyReuseFacts.
Context `{Geodesy} `{Wire}.
Import Http Idempotency RideController.

(** X14 ([idempotencyMiddleware], [createRideRequest], [errorHandler]):
    a POST /rides that reuses an idempotency key after its cached response
    expired, while the ride of the first request is still stored, is answered
    409 "Database constraint violation" (the UNIQUE constraint on
    [idempotency_key]); no row is written, but a ride id was drawn, the demand
    counter of the pickup cell was incremented, and the 409 is cached under
    the key. *)
Theorem post_rides_key_outlives_cache (req : Request) (key : string)
    (data : Dispatch.RideInput) (w : World) :
  header_value (idempotency_key_header req) = Some key →
  rideRequestSchema (req_body req) = Some data →
  cache_get (redis w) (clock w) key = None →
  map_Exists (λ _ r, idempotency_key r = key) (ride_requests (pg w)) →
  let cell := Geo.latLngToGeoCell (lat (Dispatch.in_pickup data))
                (lng (Dispatch.in_pickup data)) in
  ∃ w',
    post_rides req w
    = (Ok (json 409 (JError "Database constraint violation" "23505")), w')
    ∧ pg w' = pg w
    ∧ next_uuid w' = S (next_uuid w)
    ∧ SurgeService.get_demand (redis w') (clock w') cell
      = SurgeService.get_demand (redis w) (clock w) cell + 1
    ∧ cache_get (redis w') (clock w') key
      = Some {| cached_statusCode := 409;
                cached_body := JError "Database constraint violation" "23505";
                cached_requestHash :=
                  hashRequest (method req) (path req) (req_body req);
                cachedAt := clock w |}.
Proof.
  intros Hkey Hbody Hcache Hused cell.
  destruct (post_rides_first req key w Hkey Hcache) as (res & wh & Hh & ->).
  unfold asyncHandler, createRideRequest in Hh. rewrite Hkey, Hbody in Hh.
  unfold mbind, M_bind in Hh.
  destruct (createRideRequest_inserted
              {| Dispatch.in_riderId := Dispatch.in_riderId data;
                 Dispatch.in_pickup := Dispatch.in_pickup data;
                 Dispatch.in_destination := Dispatch.in_destination data;
                 Dispatch.in_tier := Dispatch.in_tier data;
                 Dispatch.in_paymentMethod := Dispatch.in_paymentMethod data;
                 Dispatch.in_idempotencyKey := key |} w)
    as (w1 & row & reply & Heq & Hcore & _ & Hdem & _).
  cbn [Dispatch.in_idempotencyKey Dispatch.in_pickup] in Heq, Hdem.
  rewrite Heq in Hh. clear Heq.
  rewrite (bool_decide_true (map_Exists _ _)) in Hh by exact Hused.
  assert (Hres : (Ok res, wh)
                 = (Ok (json 409 (JError "Database constraint violation" "23505")),
                    upd_next_uuid S w1) :> result Response * World).
  { rewrite <- Hh. case_bool_decide; reflexivity. }
  injection Hres as -> ->.
  destruct Hcore as (Hpg & Hclock & Hnext & _).
  eexists. split; [reflexivity|]. wsimpl.
  split; [exact Hpg|]. split; [rewrite Hnext; reflexivity|].
  split; [exact Hdem|].
  unfold cache_get. wsimpl. rewrite lookup_insert_eq.
  rewrite bool_decide_true by (unfold config.IDEMPOTENCY_TTL; lia).
  cbn [statusCode body json]. rewrite Hclock. reflexivity.
Qed.
End KeyReuseFacts.

(** X14, witness: the request of the scenario is repeated a little more than
    24 hours later. *)
Lemma post_rides_key_outlives_cache_witness :
  ∃ w', RideController.post_rides (Scenario.post_ride "k1" "ride")
          Scenarios.day_later
        = (Ok (Http.json 409 (JError "Database constraint violation" "23505")), w')
    ∧ pg w' = pg Scenarios.day_later.
Proof.
  destruct (post_rides_key_outlives_cache (Scenario.post_ride "k1" "ride") "k1"
              Scenario.ride_input Scenarios.day_later) as (w' & Heq & Hpg & _).
  - reflexivity.
  - reflexivity.
  - vm_compute. reflexivity.
  - exists Scenario.ride_id. eexists. split; [vm_compute; reflexivity | reflexivity].
  - exists w'. split; assumption.
Defined.

(** ** The fast-lookup entry and the relational store *)
Section EntryFacts.
Context `{Geodesy}.
Import DriverLocation NearbySpec Dispatch OfferSpec.

Lemma entry_ok_alter (rows : gmap uuid RideRow) (offers : list OfferRow)
    (f : RideRow → RideRow) (k rideId : uuid) (entry : OfferEntry) (expiry : Z) :
  (k = rideId →
   ∀ r, current_driver_offer_id (f r) = current_driver_offer_id r
        ∧ driver_id (f r) = driver_id r) →
  entry_ok rows offers rideId entry expiry →
  entry_ok (alter f k rows) offers rideId entry expiry.
Proof.
  intros Hf ((row & Hrow & Hcur & Hdrv) & Hoffer & Hexp).
  split; [|split; assumption].
  destruct (decide (k = rideId)) as [->|Hne].
  - exists (f row). rewrite lookup_alter_eq, Hrow.
    destruct (Hf eq_refl row) as [-> ->]. auto.
  - exists row. rewrite lookup_alter_ne by exact Hne. auto.
Qed.

Lemma entry_ok_insert (rows : gmap uuid RideRow) (offers : list OfferRow)
    (new : RideRow) (k rideId : uuid) (entry : OfferEntry) (expiry : Z) :
  rows !! k = None →
  entry_ok rows offers rideId entry expiry →
  entry_ok (<[k := new]> rows) offers rideId entry expiry.
Proof.
  intros Hfree ((row & Hrow & Hcur & Hdrv) & Hoffer & Hexp).
  split; [|split; assumption].
  exists row. rewrite lookup_insert_ne by congruence. auto.
Qed.

Lemma entry_ok_fmap (rows : gmap uuid RideRow) (offers : list OfferRow)
    (g : OfferRow → OfferRow) (rideId : uuid) (entry : OfferEntry) (expiry : Z) :
  (∀ o, offer_id (g o) = offer_id o ∧ ride_request_id (g o) = ride_request_id o
        ∧ offer_driver_id (g o) = offer_driver_id o
        ∧ offer_expires_at (g o) = offer_expires_at o) →
  entry_ok rows offers rideId entry expiry →
  entry_ok rows (g <$> offers) rideId entry expiry.
Proof.
  intros Hg (Hrow & (o & Ho & H1 & H2 & H3 & H4) & Hexp).
  split; [exact Hrow|]. split; [|exact Hexp].
  exists (g o). destruct (Hg o) as (-> & -> & -> & ->).
  split; [apply list_elem_of_fmap_2; exact Ho | auto].
Qed.

Lemma entry_ok_app (rows : gmap uuid RideRow) (offers more : list OfferRow)
    (rideId : uuid) (entry : OfferEntry) (expiry : Z) :
  entry_ok rows offers rideId entry expiry →
  entry_ok rows (offers ++ more) rideId entry expiry.
Proof.
  intros (Hrow & (o & Ho & Hrest) & Hexp).
  split; [exact Hrow|]. split; [|exact Hexp].
  exists o. split; [apply elem_of_app; left; exact Ho | exact Hrest].
Qed.

Lemma set_responded_keeps (s : OfferStatus.t) (now : Z) (reason : option string)
    (rideId driverId : uuid) (o : OfferRow) :
  let g := λ o, if bool_decide (ride_request_id o = rideId
                                ∧ offer_driver_id o = driverId)
                then set_responded s now reason o else o in
  offer_id (g o) = offer_id o ∧ ride_request_id (g o) = ride_request_id o
  ∧ offer_driver_id (g o) = offer_driver_id o
  ∧ offer_expires_at (g o) = offer_expires_at o.
Proof. cbv beta zeta. case_bool_decide; repeat split. Qed.

(** [matchDriver] keeps the entries in step with the store. *)
Lemma matchDriver_entries (ride row0 : RideRow) (region : string) (w : World) :
  ride_requests (pg w) !! id ride = Some row0 →
  entries_ok w → entries_ok (snd (matchDriver ride region w)).
Proof.
  intros Hrow Hok.
  destruct (nearest_eligible (match_query ride region) w) as [|d rest] eqn:Hnear.
  - rewrite (matchDriver_none _ _ _ Hnear). intros k e x Hk. cbn in Hk |- *.
    apply entry_ok_alter; [intros _ r; split; reflexivity|]. apply Hok, Hk.
  - destruct (decide (Exists (λ o, offer_id o = next_uuid w)
                        (driver_offers (pg w)))) as [Hclash|Hfresh].
    + rewrite (matchDriver_conflict _ _ _ _ _ Hnear Hclash). exact Hok.
    + destruct (matchDriver_some _ _ _ _ _ Hnear Hfresh)
        as (w' & -> & Hrows & Hoffers & Hr & _).
      cbn [snd]. intros k e x Hk. rewrite Hr in Hk. cbn in Hk.
      rewrite Hrows, Hoffers.
      destruct (decide (k = id ride)) as [->|Hne].
      * rewrite lookup_insert_eq in Hk. injection Hk as <- <-.
        split; [|split].
        -- exists (set_current_offer (next_uuid w) (driverId d) row0).
           rewrite lookup_alter_eq, Hrow. repeat split.
        -- eexists. split; [apply elem_of_app; right; left|]. repeat split.
        -- cbn. unfold config.DRIVER_RESPONSE_TIMEOUT. lia.
      * rewrite lookup_insert_ne in Hk by congruence.
        apply entry_ok_app, entry_ok_alter; [congruence|]. apply Hok, Hk.
Qed.

Lemma createRideRequest_entries (input : RideInput) (w : World) :
  entries_ok w → entries_ok (snd (createRideRequest input w)).
Proof.
  intros Hok.
  destruct (createRideRequest_cases input w)
    as (w1 & row & reply & -> & Hcore & Hid & _).
  destruct Hcore as (Hpg & _ & _ & _ & _ & _ & Hro & _).
  assert (Hok1 : ∀ k e x, ride_offer (redis w1) !! k = Some (e, x) →
            entry_ok (ride_requests (pg w1)) (driver_offers (pg w1)) k e x).
  { intros k e x Hk. rewrite Hpg. rewrite Hro in Hk. apply Hok, Hk. }
  case_bool_decide as Hpk; [exact Hok1|].
  case_bool_decide; [exact Hok1|].
  set (w3 := upd_kafka _ _).
  assert (Hok3 : entries_ok w3).
  { intros k e x Hk. unfold w3 in *. cbn in Hk |- *.
    apply entry_ok_insert; [|apply Hok1, Hk].
    rewrite Hpg. destruct (ride_requests (pg w) !! next_uuid w) eqn:Hl;
      [exfalso; apply Hpk; eauto | reflexivity]. }
  pose proof (matchDriver_entries row row
                (Geo.getRegionFromCoordinates (lat (in_pickup input))
                   (lng (in_pickup input))) w3) as Hm.
  destruct (matchDriver _ _ w3) as [[mr|e] w']; cbn [snd] in *;
    apply Hm; try exact Hok3; unfold w3; cbn; rewrite Hid; apply lookup_insert_eq.
Qed.

Lemma handleDriverResponse_entries (rideId : uuid) (response : DriverResponse)
    (w : World) :
  wf w → entries_ok w → entries_ok (snd (handleDriverResponse rideId response w)).
Proof.
  intros Hwf Hok.
  destruct (ride_requests (pg w) !! rideId) as [ride|] eqn:Hride.
  2: { rewrite (handleDriverResponse_missing _ _ _ Hride). exact Hok. }
  destruct response as [driverId [] reason].
  - destruct (handleDriverResponse_accept rideId ride driverId reason w Hride)
      as (w' & -> & Hrows & Hoffers & Hro & _).
    cbn [snd]. intros k e x Hk. rewrite Hro in Hk.
    destruct (decide (k = rideId)) as [->|Hne];
      [rewrite lookup_delete_eq in Hk; discriminate|].
    rewrite lookup_delete_ne in Hk by congruence.
    rewrite Hrows, Hoffers.
    apply entry_ok_alter; [congruence|].
    apply entry_ok_fmap; [intros o; apply set_responded_keeps|]. apply Hok, Hk.
  - destruct (handleDriverResponse_decline rideId ride driverId reason w Hride)
      as (w1 & Hrows & Hoffers & Hredis & _ & _ & ->).
    assert (Hok1 : entries_ok w1).
    { intros k e x Hk. rewrite Hredis in Hk. rewrite Hrows, Hoffers.
      apply entry_ok_fmap; [intros o; apply set_responded_keeps|]. apply Hok, Hk. }
    assert (Hexp : entries_ok
              (upd_pg (upd_ride_requests
                         (alter (set_status RideStatus.EXPIRED) rideId)) w1)).
    { intros k e x Hk. cbn in Hk |- *.
      apply entry_ok_alter; [intros _ r; split; reflexivity|]. apply Hok1, Hk. }
    case_bool_decide; [exact Hexp|].
    cbv zeta. destruct (filter _ (nearest_eligible _ _)) as [|a l']; [exact Hexp|].
    set (region := Geo.getRegionFromCoordinates _ _).
    assert (Hid : id ride = rideId).
    { destruct Hwf as [Hr _]. destruct (Hr _ _ Hride) as (Hi & _). exact Hi. }
    pose proof (matchDriver_entries ride ride region w1) as Hm.
    rewrite Hid, Hrows in Hm. specialize (Hm Hride Hok1).
    destruct (matchDriver ride region w1) as [[mr|e] w']; exact Hm.
Qed.

Lemma exec_entries (op : Op) (w : World) :
  wf w → entries_ok w → entries_ok (exec op w).
Proof.
  intros Hwf Hok.
  destruct op as [input|rideId response|rideId|rideId reason|d la lo|d s|ms];
    cbn [exec].
  - apply createRideRequest_entries, Hok.
  - apply handleDriverResponse_entries; assumption.
  - unfold checkTimeout. msimpl.
    destruct (get_offer (redis w) (clock w) rideId) as [offer|]; [|exact Hok].
    case_bool_decide; [|exact Hok].
    pose proof (handleDriverResponse_entries rideId
                  {| resp_driverId := entry_driverId offer; resp_action := DECLINE;
                     resp_reason := Some "Timeout" |} w Hwf Hok) as Hd.
    destruct (handleDriverResponse _ _ w) as [[r|e] w']; exact Hd.
  - intros k e x Hk. cbn in Hk |- *.
    apply entry_ok_alter; [intros _ r; split; reflexivity|]. apply Hok, Hk.
  - destruct (updateLocation_eq d la lo None None w)
      as (w' & -> & _ & _ & _ & Hro & Hpg & _).
    cbn [snd]. intros k e x Hk. rewrite Hro in Hk. rewrite Hpg. apply Hok, Hk.
  - destruct (updateDriverStatus_eq d s w)
      as (w' & -> & _ & _ & _ & Hro & Hpg & _).
    cbn [snd]. intros k e x Hk. rewrite Hro in Hk. rewrite Hpg. apply Hok, Hk.
  - exact Hok.
Qed.

(** X15 ([matchDriver], [handleDriverResponse], [checkTimeout]): the
    fast-lookup entry [ride:{rideId}:offer] always names the current offer of
    its ride: every operation keeps this, so in every deployment that starts
    empty a live entry belongs to a stored ride whose
    [current_driver_offer_id] and [driver_id] are the entry's offer and
    driver. *)
Theorem offer_entry_names_current_offer :
  (∀ op w, wf w → entries_ok w → entries_ok (exec op w))
  ∧ (∀ ops w, wf w → entries_ok w → entries_ok (run ops w))
  ∧ (∀ ops, entries_ok (run ops empty_world))
  ∧ (∀ ops rideId offer,
       let w := run ops empty_world in
       get_offer (redis w) (clock w) rideId = Some offer →
       ∃ row, ride_requests (pg w) !! rideId = Some row
              ∧ current_driver_offer_id row = Some (entry_offerId offer)
              ∧ driver_id row = Some (entry_driverId offer)).
Proof.
  assert (Hrun : ∀ ops w, wf w → entries_ok w → entries_ok (run ops w)).
  { induction ops as [|op ops IH]; intros w Hwf Hok; [exact Hok|].
    change (run (op :: ops) w) with (run ops (exec op w)).
    apply IH; [apply exec_wf, Hwf | apply exec_entries; assumption]. }
  assert (Hempty : ∀ ops, entries_ok (run ops empty_world)).
  { intros ops. apply Hrun; [apply empty_world_wf|].
    intros k e x Hk. cbn in Hk. rewrite lookup_empty in Hk. discriminate. }
  split; [apply exec_entries|]. split; [exact Hrun|]. split; [exact Hempty|].
  intros ops rideId offer w Hget. unfold get_offer in Hget.
  destruct (ride_offer (redis w) !! rideId) as [[e x]|] eqn:Hk; [|discriminate].
  case_bool_decide; [|discriminate]. injection Hget as ->.
  destruct (Hempty ops _ _ _ Hk) as (Hrow & _). exact Hrow.
Qed.
End EntryFacts.

(** ** Offers and RIDE_MATCHED events *)
Section EventFacts.
Context `{Geodesy}.
Import DriverLocation NearbySpec Dispatch EventSpec.

Lemma log_extends_refl (w : World) : log_extends w w.
Proof. exists []. rewrite !app_nil_r. split; reflexivity. Qed.

Lemma log_extends_trans (w1 w2 w3 : World) :
  log_extends w1 w2 → log_extends w2 w3 → log_extends w1 w3.
Proof.
  intros (n1 & Hk1 & Ho1) (n2 & Hk2 & Ho2). exists (n1 ++ n2).
  rewrite Hk2, Ho2, Hk1, Ho1, !app_assoc. split; reflexivity.
Qed.

Lemma log_extends_same (w w' : World) :
  matched_events (kafka w') = matched_events (kafka w) →
  offer_keys (driver_offers (pg w')) = offer_keys (driver_offers (pg w)) →
  log_extends w w'.
Proof. intros Hk Ho. exists []. rewrite Hk, Ho, !app_nil_r. split; reflexivity. Qed.

(** Composition rules. *)
Lemma logs_bind {A B} (m : M A) (f : A → M B) :
  logs_in_step m → (∀ a, logs_in_step (f a)) → logs_in_step (m ≫= f).
Proof.
  intros Hm Hf w. unfold mbind, M_bind. specialize (Hm w).
  destruct (m w) as [[a|e] w1]; cbn [snd] in *; [|exact Hm].
  eapply log_extends_trans; [exact Hm | apply Hf].
Qed.

Lemma logs_ret {A} (a : A) : logs_in_step (mret a).
Proof. intros w. apply log_extends_refl. Qed.

Lemma logs_throw {A} (e : Error) : logs_in_step (throw (A := A) e).
Proof. intros w. apply log_extends_refl. Qed.

Lemma logs_gets {A} (f : World → A) : logs_in_step (gets f).
Proof. intros w. apply log_extends_refl. Qed.

Lemma logs_modify (f : World → World) :
  (∀ w, matched_events (kafka (f w)) = matched_events (kafka w)
        ∧ offer_keys (driver_offers (pg (f w))) = offer_keys (driver_offers (pg w))) →
  logs_in_step (modify f).
Proof. intros Hf w. apply log_extends_same; apply Hf. Qed.

Lemma logs_publish (e : Event) :
  (∀ a b c d, e ≠ RIDE_MATCHED a b c d) → logs_in_step (publishEvent e).
Proof.
  intros He. apply logs_modify. intros w. split; [|reflexivity]. cbn.
  unfold matched_events. rewrite omap_app. cbn.
  destruct e; try apply app_nil_r. exfalso. eapply He. reflexivity.
Qed.

Lemma offer_keys_fmap (g : OfferRow → OfferRow) (l : list OfferRow) :
  (∀ o, offer_id (g o) = offer_id o ∧ ride_request_id (g o) = ride_request_id o
        ∧ offer_driver_id (g o) = offer_driver_id o
        ∧ offer_expires_at (g o) = offer_expires_at o) →
  offer_keys (g <$> l) = offer_keys l.
Proof.
  intros Hg. unfold offer_keys. rewrite <- list_fmap_compose.
  apply list_fmap_ext. intros i o _. cbn.
  destruct (Hg o) as (-> & -> & -> & _). reflexivity.
Qed.

Lemma logs_update_ride (rideId : uuid) (f : RideRow → RideRow) :
  logs_in_step (update_ride_request rideId f).
Proof. apply logs_modify. intros w. split; reflexivity. Qed.

Lemma logs_update_offers (rideId driverId : uuid) (s : OfferStatus.t) (now : Z)
    (reason : option string) :
  logs_in_step (update_driver_offers rideId driverId (set_responded s now reason)).
Proof.
  apply logs_modify. intros w. split; [reflexivity|]. cbn.
  apply offer_keys_fmap. intros o. apply set_responded_keeps.
Qed.

Lemma logs_findNearbyDrivers (q : NearbyQuery) : logs_in_step (findNearbyDrivers q).
Proof.
  intros w. unfold findNearbyDrivers.
  destruct (georadius_asc_count _ _ _ _ _); apply log_extends_refl.
Qed.

Lemma logs_updateDriverStatus (d : uuid) (s : DriverStatus) :
  logs_in_step (updateDriverStatus d s).
Proof.
  unfold updateDriverStatus. apply logs_bind; [|intros _].
  - apply logs_modify. intros w. split; reflexivity.
  - apply logs_bind; [|intros _; apply logs_ret].
    apply logs_publish. discriminate.
Qed.

Lemma logs_updateLocation (d : uuid) (la lo : Q) (h s : option Q) :
  logs_in_step (updateLocation d la lo h s).
Proof.
  unfold updateLocation. apply logs_bind; [apply logs_gets | intros now].
  do 3 (apply logs_bind; [apply logs_modify; intros w; split; reflexivity | intros _]).
  apply logs_bind; [|intros _; apply logs_ret].
  apply logs_publish. discriminate.
Qed.

(** [matchDriver] inserts the offer and publishes its event together. *)
Lemma logs_matchDriver (ride : RideRow) (region : string) :
  logs_in_step (matchDriver ride region).
Proof.
  intros w.
  destruct (nearest_eligible (match_query ride region) w) as [|d rest] eqn:Hnear.
  - rewrite (matchDriver_none _ _ _ Hnear). apply log_extends_same; reflexivity.
  - destruct (decide (Exists (λ o, offer_id o = next_uuid w)
                        (driver_offers (pg w)))) as [Hclash|Hfresh].
    + rewrite (matchDriver_conflict _ _ _ _ _ Hnear Hclash).
      apply log_extends_same; reflexivity.
    + destruct (matchDriver_some _ _ _ _ _ Hnear Hfresh)
        as (w' & -> & _ & Hoffers & _ & Hk & _).
      cbn [snd]. exists [(id ride, driverId d, next_uuid w)].
      rewrite Hk, Hoffers. unfold matched_events, offer_keys.
      rewrite omap_app, fmap_app. split; reflexivity.
Qed.

Lemma logs_incrementDemand (geoCell region : string) :
  logs_in_step (SurgeService.incrementDemand geoCell region).
Proof.
  unfold SurgeService.incrementDemand.
  apply logs_bind; [apply logs_gets | intros now].
  apply logs_bind; [apply logs_gets | intros old].
  apply logs_bind; [apply logs_modify; intros w; split; reflexivity | intros _].
  apply logs_bind; [|intros _; apply logs_ret].
  case_bool_decide; [apply logs_modify; intros w; split; reflexivity | apply logs_ret].
Qed.

Lemma logs_getSurgeForLocation (latitude longitude : Q) :
  logs_in_step (SurgeService.getSurgeForLocation latitude longitude).
Proof.
  intros w. apply log_extends_same.
  - apply getSurgeForLocation_events.
  - destruct (getSurgeForLocation_ok latitude longitude w)
      as (d & w' & -> & Hpg & _). cbn [snd]. rewrite Hpg. reflexivity.
Qed.

Lemma logs_insert_ride_request (row : RideRow) :
  logs_in_step (insert_ride_request row).
Proof.
  intros w. unfold insert_ride_request.
  do 2 (case_bool_decide; [apply log_extends_refl|]).
  apply log_extends_same; reflexivity.
Qed.

Lemma logs_createRideRequest (input : RideInput) :
  logs_in_step (createRideRequest input).
Proof.
  unfold createRideRequest.
  apply logs_bind; [apply logs_incrementDemand | intros _].
  apply logs_bind; [apply logs_getSurgeForLocation | intros surgeData].
  apply logs_bind; [|intros rideId].
  { intros w. apply log_extends_same; reflexivity. }
  apply logs_bind; [apply logs_gets | intros now].
  apply logs_bind; [apply logs_insert_ride_request | intros rideRequest].
  apply logs_bind; [apply logs_publish; discriminate | intros _].
  apply logs_bind; [apply logs_matchDriver | intros mr]. apply logs_ret.
Qed.

Lemma logs_handleDriverResponse (rideId : uuid) (response : DriverResponse) :
  logs_in_step (handleDriverResponse rideId response).
Proof.
  unfold handleDriverResponse.
  apply logs_bind; [apply logs_gets | intros [ride|]]; [|apply logs_throw].
  destruct (resp_action response).
  - apply logs_bind; [apply logs_update_ride | intros _].
    apply logs_bind; [apply logs_gets | intros now].
    apply logs_bind; [apply logs_update_offers | intros _].
    apply logs_bind; [apply logs_updateDriverStatus | intros _].
    apply logs_bind; [apply logs_modify; intros w; split; reflexivity | intros _].
    apply logs_bind; [apply logs_publish; discriminate | intros _].
    apply logs_ret.
  - apply logs_bind; [apply logs_gets | intros now].
    apply logs_bind; [apply logs_update_offers | intros _].
    apply logs_bind; [apply logs_publish; discriminate | intros _].
    case_bool_decide.
    + apply logs_bind; [apply logs_update_ride | intros _]. apply logs_ret.
    + apply logs_bind; [apply logs_gets | intros declined].
      apply logs_bind; [apply logs_findNearbyDrivers | intros found].
      destruct (filter _ _).
      * apply logs_bind; [apply logs_update_ride | intros _]. apply logs_ret.
      * apply logs_bind; [apply logs_matchDriver | intros _]. apply logs_ret.
Qed.

Lemma logs_checkTimeout (rideId : uuid) : logs_in_step (checkTimeout rideId).
Proof.
  unfold checkTimeout.
  apply logs_bind; [apply logs_gets | intros now].
  apply logs_bind; [apply logs_gets | intros [offer|]]; [|apply logs_ret].
  case_bool_decide; [|apply logs_ret].
  apply logs_bind; [apply logs_handleDriverResponse | intros _]. apply logs_ret.
Qed.

Lemma exec_log (op : Op) (w : World) : log_extends w (exec op w).
Proof.
  destruct op as [input|rideId response|rideId|rideId reason|d la lo|d s|ms];
    cbn [exec].
  - apply logs_createRideRequest.
  - apply logs_handleDriverResponse.
  - apply logs_checkTimeout.
  - apply log_extends_same; reflexivity.
  - apply logs_updateLocation.
  - apply logs_updateDriverStatus.
  - apply log_extends_same; reflexivity.
Qed.

(** X16 ([matchDriver] and its callers): offers and RIDE_MATCHED events
    stay in step: every operation appends the same (ride, driver, offer)
    triples to the [driver_offers] table and to the events published on
    [ride.matched], so in every deployment that starts empty the two
    sequences are equal. *)
Theorem offers_match_events :
  (∀ op w, log_extends w (exec op w))
  ∧ (∀ ops w, log_extends w (run ops w))
  ∧ (∀ ops,
       offer_keys (driver_offers (pg (run ops empty_world)))
       = matched_events (kafka (run ops empty_world))).
Proof.
  assert (Hrun : ∀ ops w, log_extends w (run ops w)).
  { induction ops as [|op ops IH]; intros w; [apply log_extends_refl|].
    change (run (op :: ops) w) with (run ops (exec op w)).
    eapply log_extends_trans; [apply exec_log | apply IH]. }
  split; [apply exec_log|]. split; [exact Hrun|].
  intros ops. destruct (Hrun ops empty_world) as (new & -> & ->). reflexivity.
Qed.
End EventFacts.

(** ** The statuses a ride can be in *)
Section StatusFacts.
Context `{Geodesy}.
Import DriverLocation NearbySpec Dispatch InvSpec.

(** Composition rules for invariants. *)
Lemma preserves_bind {A B} (I : World → Prop) (m : M A) (f : A → M B) :
  preserves I m → (∀ a, preserves I (f a)) → preserves I (m ≫= f).
Proof.
  intros Hm Hf w Hw. unfold mbind, M_bind. specialize (Hm w Hw).
  destruct (m w) as [[a|e] w1]; cbn [snd] in *; [apply Hf; exact Hm | exact Hm].
Qed.

Lemma preserves_ret {A} (I : World → Prop) (a : A) : preserves I (mret a).
Proof. intros w Hw. exact Hw. Qed.

Lemma preserves_throw {A} (I : World → Prop) (e : Error) :
  preserves I (throw (A := A) e).
Proof. intros w Hw. exact Hw. Qed.

Lemma preserves_gets {A} (I : World → Prop) (f : World → A) : preserves I (gets f).
Proof. intros w Hw. exact Hw. Qed.

Lemma preserves_modify (I : World → Prop) (f : World → World) :
  (∀ w, I w → I (f w)) → preserves I (modify f).
Proof. intros Hf w Hw. apply Hf, Hw. Qed.

(** Whatever leaves [ride_requests] alone keeps an invariant of that table. *)
Lemma statuses_same_rows (w w' : World) :
  ride_requests (pg w') = ride_requests (pg w) →
  statuses_written w → statuses_written w'.
Proof. intros Heq Hw k row. rewrite Heq. apply Hw. Qed.

Lemma statuses_alter (f : RideRow → RideRow) (rideId : uuid) :
  (∀ r, written_status (status r) = true → written_status (status (f r)) = true) →
  preserves statuses_written (update_ride_request rideId f).
Proof.
  intros Hf. apply preserves_modify. intros w Hw k row. cbn.
  destruct (decide (rideId = k)) as [->|Hne].
  - rewrite lookup_alter_eq. destruct (ride_requests (pg w) !! k) as [r|] eqn:Hr;
      [|discriminate]. intros [= <-]. apply Hf. eapply Hw, Hr.
  - rewrite lookup_alter_ne by exact Hne. apply Hw.
Qed.

Ltac keep_rows :=
  apply preserves_modify; intros ? ?;
  (eapply statuses_same_rows; [|eassumption]); reflexivity.

Lemma statuses_publish (e : Event) : preserves statuses_written (publishEvent e).
Proof. keep_rows. Qed.

Lemma statuses_matchDriver (ride : RideRow) (region : string) :
  preserves statuses_written (matchDriver ride region).
Proof.
  unfold matchDriver. apply preserves_bind; [|intros found].
  { intros w Hw. unfold findNearbyDrivers.
    destruct (georadius_asc_count _ _ _ _ _); exact Hw. }
  destruct (drivers found) as [|selected rest].
  - apply preserves_bind; [|intros _; apply preserves_ret].
    apply statuses_alter. reflexivity.
  - apply preserves_bind; [|intros offerId].
    { intros w Hw. eapply statuses_same_rows; [|exact Hw]. reflexivity. }
    apply preserves_bind; [apply preserves_gets | intros now].
    apply preserves_bind; [|intros _].
    { intros w Hw. unfold insert_driver_offer. case_bool_decide; [exact Hw|].
      eapply statuses_same_rows; [|exact Hw]. reflexivity. }
    apply preserves_bind; [|intros _].
    { apply statuses_alter. intros r Hr. exact Hr. }
    apply preserves_bind; [keep_rows | intros _].
    apply preserves_bind; [apply statuses_publish | intros _].
    apply preserves_ret.
Qed.

Lemma statuses_createRideRequest (input : RideInput) :
  preserves statuses_written (createRideRequest input).
Proof.
  intros w Hw.
  destruct (createRideRequest_cases input w)
    as (w1 & row & reply & -> & Hcore & Hid & Hst & _).
  destruct Hcore as (Hpg & _).
  assert (Hw1 : statuses_written (upd_next_uuid S w1)).
  { eapply statuses_same_rows; [|exact Hw]. cbn. rewrite Hpg. reflexivity. }
  case_bool_decide; [exact Hw1|]. case_bool_decide; [exact Hw1|].
  set (w3 := upd_kafka _ _).
  assert (Hw3 : statuses_written w3).
  { intros k r. unfold w3. cbn.
    destruct (decide (next_uuid w = k)) as [->|Hne].
    - rewrite lookup_insert_eq. intros [= <-]. rewrite Hst. reflexivity.
    - rewrite lookup_insert_ne by exact Hne. rewrite Hpg. apply Hw. }
  pose proof (statuses_matchDriver row
                (Geo.getRegionFromCoordinates (lat (in_pickup input))
                   (lng (in_pickup input))) w3 Hw3) as Hm.
  destruct (matchDriver _ _ w3) as [[mr|e] w']; exact Hm.
Qed.

Lemma statuses_handleDriverResponse (rideId : uuid) (response : DriverResponse) :
  preserves statuses_written (handleDriverResponse rideId response).
Proof.
  unfold handleDriverResponse.
  apply preserves_bind; [apply preserves_gets | intros [ride|]];
    [|apply preserves_throw].
  destruct (resp_action response).
  - apply preserves_bind; [apply statuses_alter; reflexivity | intros _].
    apply preserves_bind; [apply preserves_gets | intros now].
    apply preserves_bind; [keep_rows | intros _].
    apply preserves_bind; [|intros _].
    { unfold updateDriverStatus.
      apply preserves_bind; [keep_rows | intros _].
      apply preserves_bind; [apply statuses_publish | intros _]. apply preserves_ret. }
    apply preserves_bind; [keep_rows | intros _].
    apply preserves_bind; [apply statuses_publish | intros _].
    apply preserves_ret.
  - apply preserves_bind; [apply preserves_gets | intros now].
    apply preserves_bind; [keep_rows | intros _].
    apply preserves_bind; [apply statuses_publish | intros _].
    case_bool_decide.
    + apply preserves_bind; [apply statuses_alter; reflexivity | intros _].
      apply preserves_ret.
    + apply preserves_bind; [apply preserves_gets | intros declined].
      apply preserves_bind; [|intros found].
      { intros w Hw. unfold findNearbyDrivers.
        destruct (georadius_asc_count _ _ _ _ _); exact Hw. }
      destruct (filter _ _).
      * apply preserves_bind; [apply statuses_alter; reflexivity | intros _].
        apply preserves_ret.
      * apply preserves_bind; [apply statuses_matchDriver | intros _].
        apply preserves_ret.
Qed.

Lemma exec_statuses (op : Op) (w : World) :
  statuses_written w → statuses_written (exec op w).
Proof.
  intros Hw.
  destruct op as [input|rideId response|rideId|rideId reason|d la lo|d s|ms];
    cbn [exec].
  - apply statuses_createRideRequest, Hw.
  - apply statuses_handleDriverResponse, Hw.
  - revert w Hw. change (preserves statuses_written (checkTimeout rideId)).
    unfold checkTimeout.
    apply preserves_bind; [apply preserves_gets | intros now].
    apply preserves_bind; [apply preserves_gets | intros [offer|]];
      [|apply preserves_ret].
    case_bool_decide; [|apply preserves_ret].
    apply preserves_bind; [apply statuses_handleDriverResponse | intros _].
    apply preserves_ret.
  - revert w Hw.
    change (preserves statuses_written (RideController.cancelRide rideId reason)).
    unfold RideController.cancelRide.
    apply preserves_bind; [apply statuses_alter; reflexivity | intros _].
    apply preserves_ret.
  - destruct (updateLocation_eq d la lo None None w)
      as (w' & -> & _ & _ & _ & _ & Hpg & _).
    eapply statuses_same_rows; [|exact Hw]. cbn [snd]. rewrite Hpg. reflexivity.
  - destruct (updateDriverStatus_eq d s w)
      as (w' & -> & _ & _ & _ & _ & Hpg & _).
    eapply statuses_same_rows; [|exact Hw]. cbn [snd]. rewrite Hpg. reflexivity.
  - exact Hw.
Qed.

(** X17 ([createRideRequest], [matchDriver], [handleDriverResponse]): the
    services write only MATCHING, NO_DRIVERS, ACCEPTED, EXPIRED and CANCELLED
    to [ride_requests.status]: from a store whose rides have one of these
    statuses, every ride has one of them after any run; PENDING,
    DRIVER_OFFERED, DECLINED and FAILED never appear. *)
Theorem ride_status_vocabulary (ops : list Op) (w : World) (k : uuid)
    (row : RideRow) :
  statuses_written w →
  ride_requests (pg (run ops w)) !! k = Some row →
  status row = RideStatus.MATCHING ∨ status row = RideStatus.NO_DRIVERS
  ∨ status row = RideStatus.ACCEPTED ∨ status row = RideStatus.EXPIRED
  ∨ status row = RideStatus.CANCELLED.
Proof.
  intros Hw Hrow.
  assert (Hrun : statuses_written (run ops w)).
  { clear Hrow. revert w Hw. induction ops as [|op ops IH]; intros w Hw; [exact Hw|].
    change (run (op :: ops) w) with (run ops (exec op w)).
    apply IH, exec_statuses, Hw. }
  specialize (Hrun k row Hrow). destruct (status row); try discriminate; auto.
Qed.
End StatusFacts.

(** X17, witness: the ride of the scenario, after its driver declined. *)
Lemma ride_status_vocabulary_witness :
  ∃ row, ride_requests
           (pg (run (Scenarios.two_online_ops
                       ++ [PostRide Scenario.ride_input;
                           DriverResponds Scenario.ride_id
                             (Scenario.decline_by Scenario.D1)])
                  empty_world)) !! Scenario.ride_id = Some row
    ∧ (status row = RideStatus.MATCHING ∨ status row = RideStatus.NO_DRIVERS
       ∨ status row = RideStatus.ACCEPTED ∨ status row = RideStatus.EXPIRED
       ∨ status row = RideStatus.CANCELLED).
Proof.
  destruct (ride_requests
              (pg (run (Scenarios.two_online_ops
                          ++ [PostRide Scenario.ride_input;
                              DriverResponds Scenario.ride_id
                                (Scenario.decline_by Scenario.D1)])
                     empty_world)) !! Scenario.ride_id) as [row|] eqn:Hrow;
    [|vm_compute in Hrow; discriminate].
  exists row. split; [reflexivity|].
  refine (ride_status_vocabulary _ empty_world Scenario.ride_id row _ Hrow).
  intros k r Hk. cbn in Hk. rewrite lookup_empty in Hk. discriminate.
Defined.

(** ** From the request to the accepted ride *)
Section LifecycleFacts.
Context `{Geodesy}.
Import DriverLocation NearbySpec Dispatch RideQueries.

Lemma filter_fmap_keeps {A} (P : A → Prop) `{∀ x, Decision (P x)} (g : A → A)
    (l : list A) :
  (∀ x, P (g x) ↔ P x) → filter P (g <$> l) = g <$> filter P l.
Proof.
  intros Hg. induction l as [|x l IH]; [reflexivity|].
  rewrite fmap_cons, !filter_cons, IH.
  destruct (decide (P (g x))) as [Hy|Hn], (decide (P x)) as [Hy'|Hn'];
    try reflexivity; exfalso; [apply Hn', Hg, Hy | apply Hn, Hg, Hy'].
Qed.

End LifecycleFacts.


(** * Trips *)

Ltac tsimpl :=
  repeat (unfold mbind, Trip.T_bind, mret, Trip.T_ret, Trip.getsT, Trip.modifyT,
            Trip.throwT, Trip.publishTripEvent, Trip.update_trip,
            Date_now, gets in *;
          cbn beta iota zeta in *);
  cbn [Trip.world Trip.trips Trip.trip_log Trip.upd_trips fst snd] in *.

Section TripTableFacts.
Context `{Geodesy}.
Import Trip TripSpec.

Lemma lift_eq {A} (m : M A) (tw : TripWorld) :
  lift m tw
  = (fst (m (world tw)),
     {| world := snd (m (world tw)); trips := trips tw; trip_log := trip_log tw |}).
Proof. unfold lift. destruct (m (world tw)); reflexivity. Qed.

(** [updateDriverStatus] for the driver of a trip always returns. *)
Lemma updateTripDriver_eq (driverId : option uuid) (s : DriverStatus)
    (tw : TripWorld) :
  ∃ w', updateTripDriver driverId s tw
        = (Ok tt, {| world := w'; trips := trips tw; trip_log := trip_log tw |})
    ∧ pg w' = pg (world tw) ∧ clock w' = clock (world tw)
    ∧ next_uuid w' = next_uuid (world tw)
    ∧ presence (redis w') = presence (redis (world tw))
    ∧ geo (redis w') = geo (redis (world tw))
    ∧ match driverId with
      | Some d =>
          meta (redis w')
          = <[d := {| meta_status := Some s;
                      meta_vehicleType :=
                        meta_vehicleType (DriverLocation.hgetall_meta
                                            (redis (world tw)) d);
                      meta_heading :=
                        meta_heading (DriverLocation.hgetall_meta
                                        (redis (world tw)) d);
                      meta_speed :=
                        meta_speed (DriverLocation.hgetall_meta
                                      (redis (world tw)) d) |}]>
              (meta (redis (world tw)))
      | None => w' = world tw
      end.
Proof.
  destruct driverId as [d|]; cbn [updateTripDriver].
  - destruct (updateDriverStatus_eq d s (world tw))
      as (w' & Heq & Hm & Hg & Hp & _ & Hpg & Hc & Hn & _).
    exists w'. tsimpl. rewrite lift_eq, Heq. cbn [fst snd].
    repeat split; assumption.
  - exists (world tw). tsimpl. destruct tw. repeat split.
Qed.

(** Rows are identified by their id. *)
Lemma NoDup_fmap_eq {A B} (f : A → B) (l : list A) (x y : A) :
  NoDup (f <$> l) → x ∈ l → y ∈ l → f x = f y → x = y.
Proof.
  induction l as [|a l IH]; intros Hnd Hx Hy Hf; [inversion Hx|].
  rewrite fmap_cons in Hnd. apply NoDup_cons in Hnd as [Hna Hnd].
  apply elem_of_cons in Hx as [->|Hx], Hy as [->|Hy]; auto.
  - exfalso. apply Hna. rewrite Hf. apply list_elem_of_fmap_2, Hy.
  - exfalso. apply Hna. rewrite <- Hf. apply list_elem_of_fmap_2, Hx.
Qed.

Lemma select_trip_head (tripId : uuid) (t : list TripRow) (r : TripRow)
    (rest : list TripRow) :
  select_trip tripId t = r :: rest → r ∈ t ∧ trip_id r = tripId.
Proof.
  intros Hsel. assert (Hin : r ∈ select_trip tripId t) by (rewrite Hsel; left).
  unfold select_trip in Hin. apply list_elem_of_filter in Hin as [Hid Hin]. auto.
Qed.

Lemma row_step_refl (r : TripRow) : row_step r r.
Proof. unfold row_step. auto 6. Qed.

(** UPDATE ... WHERE id = $n steps the one row with that id. *)
Lemma update_table_step (tripId : uuid) (set : TripRow → TripRow)
    (t : list TripRow) (r : TripRow) (rest : list TripRow) :
  wf_trips t →
  select_trip tripId t = r :: rest →
  row_step r (set r) →
  let t' := (λ x, if bool_decide (trip_id x = tripId) then set x else x) <$> t in
  table_step t t' ∧ wf_trips t'.
Proof.
  intros [Hid Hride] Hsel Hstep t'.
  destruct (select_trip_head _ _ _ _ Hsel) as [Hin Hr].
  assert (Hall : Forall2 row_step t t').
  { unfold t'. apply Forall2_fmap_r, Forall_Forall2_diag, Forall_forall.
    intros x Hx. unfold compose. case_bool_decide as Hx'; [|apply row_step_refl].
    assert (x = r) as -> by (eapply (NoDup_fmap_eq trip_id); eauto; congruence).
    exact Hstep. }
  split.
  - exists t', []. rewrite app_nil_r. split; [reflexivity|]. split; [exact Hall|].
    constructor.
  - assert (Hids : trip_id <$> t' = trip_id <$> t
                   ∧ trip_ride_request_id <$> t' = trip_ride_request_id <$> t).
    { clear -Hall. induction Hall as [|x y l l' (H1 & H2 & _) _ [IH1 IH2]];
        [split; reflexivity|].
      rewrite !fmap_cons, IH1, IH2, H1, H2. split; reflexivity. }
    unfold wf_trips. destruct Hids as [-> ->]. split; assumption.
Qed.

Lemma table_step_refl (t : list TripRow) : table_step t t.
Proof.
  exists t, []. rewrite app_nil_r. split; [reflexivity|].
  split; [|constructor]. apply Forall_Forall2_diag, Forall_forall.
  intros x _. apply row_step_refl.
Qed.

(** The table after each operation. *)
Lemma startTrip_table (tripId : uuid) (startLat startLng : Q) (tw : TripWorld) :
  wf_trips (trips tw) →
  table_step (trips tw) (trips (snd (startTrip tripId startLat startLng tw)))
  ∧ wf_trips (trips (snd (startTrip tripId startLat startLng tw))).
Proof.
  intros Hwf. unfold startTrip, getTripById. tsimpl.
  destruct (select_trip tripId (trips tw)) as [|r rest] eqn:Hsel; tsimpl;
    [split; [apply table_step_refl | exact Hwf]|].
  case_bool_decide as Hst; tsimpl; [split; [apply table_step_refl | exact Hwf]|].
  rewrite lift_eq. tsimpl.
  match goal with
  | |- context [updateTripDriver ?d ?s ?tw0] =>
      destruct (updateTripDriver_eq d s tw0) as (w' & -> & _)
  end.
  tsimpl. apply (update_table_step _ _ _ _ _ Hwf Hsel).
  assert (trip_status r = TripStatus.PENDING) as Hp
    by (destruct (decide (trip_status r = TripStatus.PENDING)); [auto|contradiction]).
  unfold row_step. cbn. rewrite Hp. repeat split. right. constructor.
Qed.

Lemma pauseTrip_table (tripId : uuid) (reason : option string) (tw : TripWorld) :
  wf_trips (trips tw) →
  table_step (trips tw) (trips (snd (pauseTrip tripId reason tw)))
  ∧ wf_trips (trips (snd (pauseTrip tripId reason tw))).
Proof.
  intros Hwf. unfold pauseTrip, getTripById. tsimpl.
  destruct (select_trip tripId (trips tw)) as [|r rest] eqn:Hsel; tsimpl;
    [split; [apply table_step_refl | exact Hwf]|].
  case_bool_decide as Hst; tsimpl; [split; [apply table_step_refl | exact Hwf]|].
  rewrite lift_eq. tsimpl. apply (update_table_step _ _ _ _ _ Hwf Hsel).
  assert (trip_status r = TripStatus.STARTED) as Hp
    by (destruct (decide (trip_status r = TripStatus.STARTED)); [auto|contradiction]).
  unfold row_step. cbn. rewrite Hp. repeat split. right. constructor.
Qed.

Lemma resumeTrip_table (tripId : uuid) (tw : TripWorld) :
  wf_trips (trips tw) →
  table_step (trips tw) (trips (snd (resumeTrip tripId tw)))
  ∧ wf_trips (trips (snd (resumeTrip tripId tw))).
Proof.
  intros Hwf. unfold resumeTrip. tsimpl.
  destruct (select_trip tripId (trips tw)) as [|r rest] eqn:Hsel; tsimpl;
    [split; [apply table_step_refl | exact Hwf]|].
  case_bool_decide as Hst; tsimpl; [split; [apply table_step_refl | exact Hwf]|].
  rewrite lift_eq. tsimpl. apply (update_table_step _ _ _ _ _ Hwf Hsel).
  assert (trip_status r = TripStatus.PAUSED) as Hp
    by (destruct (decide (trip_status r = TripStatus.PAUSED)); [auto|contradiction]).
  unfold row_step. cbn. rewrite Hp. repeat split. right. constructor.
Qed.

Lemma endTrip_table (tripId : uuid) (endLat endLng distanceKm durationMinutes : Q)
    (tw : TripWorld) :
  wf_trips (trips tw) →
  table_step (trips tw)
    (trips (snd (endTrip tripId endLat endLng distanceKm durationMinutes tw)))
  ∧ wf_trips
      (trips (snd (endTrip tripId endLat endLng distanceKm durationMinutes tw))).
Proof.
  intros Hwf. unfold endTrip. tsimpl.
  destruct (select_trip tripId (trips tw)) as [|r rest] eqn:Hsel; tsimpl;
    [split; [apply table_step_refl | exact Hwf]|].
  destruct (bool_decide (trip_status r ≠ TripStatus.STARTED)
            && bool_decide (trip_status r ≠ TripStatus.PAUSED)) eqn:Hguard; tsimpl;
    [split; [apply table_step_refl | exact Hwf]|].
  rewrite lift_eq. tsimpl.
  destruct (Qeq_bool _ durationMinutes); tsimpl;
    [|split; [apply table_step_refl | exact Hwf]].
  match goal with
  | |- context [updateTripDriver ?d ?s ?tw0] =>
      destruct (updateTripDriver_eq d s tw0) as (w' & -> & _)
  end.
  tsimpl. apply (update_table_step _ _ _ _ _ Hwf Hsel).
  unfold row_step. cbn. repeat split. right.
  apply andb_false_iff in Hguard as [Hg|Hg]; apply bool_decide_eq_false in Hg;
    destruct (trip_status r); try (exfalso; apply Hg; discriminate); constructor.
Qed.

Lemma cancelTrip_table (tripId : uuid) (cancelledBy : Canceller)
    (reason : option string) (tw : TripWorld) :
  wf_trips (trips tw) →
  table_step (trips tw) (trips (snd (cancelTrip tripId cancelledBy reason tw)))
  ∧ wf_trips (trips (snd (cancelTrip tripId cancelledBy reason tw))).
Proof.
  intros Hwf. unfold cancelTrip, getTripById. tsimpl.
  destruct (select_trip tripId (trips tw)) as [|r rest] eqn:Hsel; tsimpl;
    [split; [apply table_step_refl | exact Hwf]|].
  destruct (bool_decide (trip_status r = TripStatus.COMPLETED)
            || bool_decide (trip_status r = TripStatus.CANCELLED)) eqn:Hguard; tsimpl;
    [split; [apply table_step_refl | exact Hwf]|].
  match goal with
  | |- context [updateTripDriver ?d ?s ?tw0] =>
      destruct (updateTripDriver_eq d s tw0) as (w' & -> & _)
  end.
  tsimpl. apply (update_table_step _ _ _ _ _ Hwf Hsel).
  unfold row_step. cbn. repeat split. right.
  apply orb_false_iff in Hguard as [Hg1 Hg2].
  apply bool_decide_eq_false in Hg1, Hg2.
  destruct (trip_status r); try contradiction; constructor.
Qed.

Lemma createTrip_table (rideRequestId : uuid) (tw : TripWorld) :
  wf_trips (trips tw) →
  table_step (trips tw) (trips (snd (createTrip rideRequestId tw)))
  ∧ wf_trips (trips (snd (createTrip rideRequestId tw))).
Proof.
  intros Hwf. unfold createTrip, getTripById. tsimpl.
  destruct (match ride_requests (pg (world tw)) !! rideRequestId with
            | Some ride => _ | None => _ end) as [|ride rides]; tsimpl;
    [split; [apply table_step_refl | exact Hwf]|].
  destruct (filter _ (trips tw)) as [|e es]; tsimpl.
  2: { destruct (select_trip _ _); tsimpl; split;
         first [apply table_step_refl | exact Hwf]. }
  rewrite lift_eq. unfold uuidv4. tsimpl. unfold insert_trip. tsimpl.
  case_bool_decide as Hex; tsimpl; [split; [apply table_step_refl | exact Hwf]|].
  split.
  - eexists (trips tw), [_]. split; [reflexivity|]. split.
    + apply Forall_Forall2_diag, Forall_forall. intros x _. apply row_step_refl.
    + repeat constructor.
  - destruct Hwf as [Hid Hride]. unfold wf_trips. rewrite !fmap_app. cbn.
    split; apply NoDup_app; (split; [assumption|]);
      (split; [|apply NoDup_singleton]);
      intros x Hx Hin; apply list_elem_of_singleton in Hin as ->;
      apply list_elem_of_fmap in Hx as (r & Hr & Hin);
      apply Hex, Exists_exists; exists r; (split; [exact Hin|]); auto.
Qed.

(** The table after one operation of the trip API. *)
Lemma exec_trip_table (op : TripOp) (tw : TripWorld) :
  wf_trips (trips tw) →
  table_step (trips tw) (trips (exec_trip op tw))
  ∧ wf_trips (trips (exec_trip op tw)).
Proof.
  intros Hwf. destruct op; cbn [exec_trip].
  - split; [apply table_step_refl | exact Hwf].
  - apply createTrip_table, Hwf.
  - apply startTrip_table, Hwf.
  - apply pauseTrip_table, Hwf.
  - apply resumeTrip_table, Hwf.
  - apply endTrip_table, Hwf.
  - apply cancelTrip_table, Hwf.
Qed.

Lemma run_trips_wf (ops : list TripOp) (tw : TripWorld) :
  wf_trips (trips tw) → wf_trips (trips (run_trips ops tw)).
Proof.
  revert tw. induction ops as [|op ops IH]; intros tw Hwf; [exact Hwf|].
  change (run_trips (op :: ops) tw) with (run_trips ops (exec_trip op tw)).
  apply IH, exec_trip_table, Hwf.
Qed.

(** A trip in a final status is never changed. *)
Lemma table_step_final (t t' : list TripRow) (r : TripRow) :
  table_step t t' → r ∈ t → TripStatus.final (trip_status r) = true → r ∈ t'.
Proof.
  intros (pre & more & -> & Hall & _) Hin Hfin.
  apply elem_of_app. left.
  apply list_elem_of_lookup in Hin as [i Hi].
  destruct (Forall2_lookup_l _ _ _ _ _ Hall Hi) as (r' & Hi' & Hstep).
  destruct Hstep as (_ & _ & _ & _ & [->|Hal]).
  - eapply list_elem_of_lookup_2, Hi'.
  - exfalso. destruct Hal; discriminate.
Qed.

(** X19 ([createTrip], [startTrip], [pauseTrip], [resumeTrip], [endTrip],
    [cancelTrip]): the trip state machine.  On a [trips] table that satisfies
    its key constraints, every operation keeps the constraints and changes
    each stored trip by at most one transition among PENDING -> STARTED,
    STARTED <-> PAUSED, STARTED or PAUSED -> COMPLETED and PENDING, STARTED or
    PAUSED -> CANCELLED, keeping its id, ride, driver and surge multiplier;
    new trips are PENDING; and a COMPLETED or CANCELLED trip is never changed
    again. *)
Theorem trip_state_machine (ops : list TripOp) (tw : TripWorld) :
  wf_trips (trips tw) →
  wf_trips (trips (run_trips ops tw))
  ∧ (∀ op, table_step (trips tw) (trips (exec_trip op tw)))
  ∧ (∀ r, r ∈ trips tw → TripStatus.final (trip_status r) = true →
          r ∈ trips (run_trips ops tw)).
Proof.
  intros Hwf. split; [apply run_trips_wf, Hwf|].
  split; [intros op; apply exec_trip_table, Hwf|].
  revert tw Hwf. induction ops as [|op ops IH]; intros tw Hwf r Hin Hfin;
    [exact Hin|].
  change (run_trips (op :: ops) tw) with (run_trips ops (exec_trip op tw)).
  destruct (exec_trip_table op tw Hwf) as [Hstep Hwf'].
  apply IH; [exact Hwf' | | exact Hfin].
  eapply table_step_final; eassumption.
Qed.
End TripTableFacts.

(** ** Creating a trip *)
Section CreateTripFacts.
Context `{Geodesy}.
Import Trip TripSpec.

Lemma select_trip_unique (t : list TripRow) (r : TripRow) :
  NoDup (trip_id <$> t) → r ∈ t → select_trip (trip_id r) t = [r].
Proof.
  unfold select_trip. induction t as [|a t IH]; intros Hnd Hin; [inversion Hin|].
  rewrite fmap_cons in Hnd. apply NoDup_cons in Hnd as [Hna Hnd].
  rewrite filter_cons. apply elem_of_cons in Hin as [->|Hin].
  - rewrite decide_True by reflexivity. f_equal.
    apply filter_none, Forall_forall. intros x Hx Heq. apply Hna.
    rewrite <- Heq. apply list_elem_of_fmap_2, Hx.
  - rewrite decide_False; [apply IH; assumption|].
    intros Heq. apply Hna. rewrite Heq. apply list_elem_of_fmap_2, Hin.
Qed.

(** X20 ([createTrip]): a trip is created only for an ACCEPTED ride, and
    once: for a ride that is missing or not ACCEPTED the call throws
    "Invalid or unaccepted ride request" and changes nothing; for an ACCEPTED
    ride without a trip it appends one PENDING trip with the ride's driver and
    surge multiplier, and the next call returns that trip; for a ride that
    has a trip it returns the trip and changes nothing. *)
Theorem createTrip_once_per_accepted_ride (rideRequestId : uuid) (tw : TripWorld) :
  ((∀ ride, ride_requests (pg (world tw)) !! rideRequestId = Some ride →
            status ride ≠ RideStatus.ACCEPTED) →
   createTrip rideRequestId tw
   = (Err (JsError "Invalid or unaccepted ride request"), tw))
  ∧ (∀ ride,
       ride_requests (pg (world tw)) !! rideRequestId = Some ride →
       status ride = RideStatus.ACCEPTED →
       Forall (λ r, trip_ride_request_id r ≠ rideRequestId
                    ∧ trip_id r ≠ next_uuid (world tw)) (trips tw) →
       ∃ tw' new,
         createTrip rideRequestId tw
         = (Ok (Created (next_uuid (world tw)) rideRequestId
                  (driver_id ride) (rider_id ride)), tw')
         ∧ trips tw' = trips tw ++ [new]
         ∧ trip_id new = next_uuid (world tw)
         ∧ trip_ride_request_id new = rideRequestId
         ∧ trip_driver_id new = driver_id ride
         ∧ trip_status new = TripStatus.PENDING
         ∧ trip_surge_multiplier new = surge_multiplier ride
         ∧ createTrip rideRequestId tw' = (Ok (Existing (Some new)), tw'))
  ∧ (∀ ride existing,
       ride_requests (pg (world tw)) !! rideRequestId = Some ride →
       status ride = RideStatus.ACCEPTED →
       wf_trips (trips tw) →
       existing ∈ trips tw →
       trip_ride_request_id existing = rideRequestId →
       createTrip rideRequestId tw = (Ok (Existing (Some existing)), tw)).
Proof.
  split; [|split].
  - intros Hno. unfold createTrip. tsimpl.
    destruct (ride_requests (pg (world tw)) !! rideRequestId) as [ride|] eqn:Hride;
      [|reflexivity].
    rewrite bool_decide_false by (apply Hno; reflexivity). reflexivity.
  - intros ride Hride Hacc Hfree.
    assert (Hnone : filter (λ r, trip_ride_request_id r = rideRequestId) (trips tw)
                    = []).
    { apply filter_none. eapply Forall_impl; [exact Hfree|]. intros r [Hr _]. exact Hr. }
    assert (Hsel : select_trip (next_uuid (world tw)) (trips tw) = []).
    { apply filter_none. eapply Forall_impl; [exact Hfree|]. intros r [_ Hr]. exact Hr. }
    unfold createTrip at 1. tsimpl. rewrite Hride, bool_decide_true by exact Hacc.
    tsimpl. rewrite Hnone. tsimpl. rewrite lift_eq. unfold uuidv4. tsimpl.
    unfold insert_trip. tsimpl. rewrite bool_decide_false.
    2: { rewrite Exists_exists. intros (r & Hin & Hor).
         rewrite Forall_forall in Hfree. destruct (Hfree r Hin) as [H1 H2].
         destruct Hor; contradiction. }
    tsimpl. eexists _, _. split; [reflexivity|]. tsimpl.
    split; [reflexivity|]. do 5 (split; [reflexivity|]).
    unfold createTrip, getTripById. tsimpl. wsimpl.
    rewrite Hride, bool_decide_true by exact Hacc. tsimpl.
    match goal with
    | |- context [trips tw ++ [?x]] => set (new := x)
    end.
    assert (Hf2 : filter (λ r, trip_ride_request_id r = rideRequestId)
                    (trips tw ++ [new]) = [new]).
    { rewrite filter_app, Hnone. rewrite filter_cons_True by reflexivity.
      reflexivity. }
    assert (Hs2 : select_trip (trip_id new) (trips tw ++ [new]) = [new]).
    { unfold select_trip in *. rewrite filter_app. cbn [trip_id new].
      rewrite Hsel. rewrite filter_cons_True by reflexivity. reflexivity. }
    rewrite Hf2. tsimpl. rewrite Hs2. reflexivity.
  - intros ride existing Hride Hacc [Hid Hrd] Hin Hex.
    unfold createTrip, getTripById. tsimpl.
    rewrite Hride, bool_decide_true by exact Hacc. tsimpl.
    destruct (filter _ (trips tw)) as [|e es] eqn:Hf.
    { exfalso. assert (Hx : existing ∈ filter (λ r, trip_ride_request_id r
                                                   = rideRequestId) (trips tw))
        by (apply list_elem_of_filter; auto).
      rewrite Hf in Hx. inversion Hx. }
    assert (He : e ∈ trips tw ∧ trip_ride_request_id e = rideRequestId).
    { assert (Hx : e ∈ filter (λ r, trip_ride_request_id r = rideRequestId)
                         (trips tw)) by (rewrite Hf; left).
      apply list_elem_of_filter in Hx as [? ?]. auto. }
    destruct He as [Hein Her].
    assert (e = existing) as ->
      by (eapply (NoDup_fmap_eq trip_ride_request_id); eauto; congruence).
    tsimpl. rewrite (select_trip_unique _ _ Hid Hin). reflexivity.
Qed.
End CreateTripFacts.

(** ** Fares *)
Section TripFareFacts.
Context `{Geodesy}.
Import Trip TripSpec.
#[local] Open Scope Q_scope.



End TripFareFacts.

(** ** Ending, cancelling and pausing a trip *)
Section TripLifecycleFacts.
Context `{Geodesy}.
Import Trip TripSpec.

Lemma select_trip_update (tripId : uuid) (set : TripRow → TripRow)
    (t : list TripRow) (r : TripRow) (rest : list TripRow) :
  wf_trips t →
  select_trip tripId t = r :: rest →
  (∀ x, trip_id (set x) = trip_id x) →
  select_trip tripId
    ((λ x, if bool_decide (trip_id x = tripId) then set x else x) <$> t)
  = [set r].
Proof.
  intros [Hid _] Hsel Hset.
  destruct (select_trip_head _ _ _ _ Hsel) as [Hin Hr].
  pose proof (select_trip_unique _ _ Hid Hin) as Hu. rewrite Hr in Hu.
  unfold select_trip in *. rewrite filter_fmap_keeps.
  - rewrite Hu. cbn. rewrite bool_decide_true by exact Hr. reflexivity.
  - intros x. case_bool_decide; [rewrite Hset|]; reflexivity.
Qed.

Lemma status_after (d : uuid) (s : DriverStatus) (w w' : World) (m : DriverMeta) :
  meta (redis w') = <[d := m]> (meta (redis w)) →
  meta_status m = Some s →
  meta_status (DriverLocation.hgetall_meta (redis w') d) = Some s.
Proof.
  intros Hm Hs. rewrite (hgetall_meta_insert _ _ _ d _ Hm).
  rewrite decide_True by reflexivity. exact Hs.
Qed.


(** X23 ([startTrip], [cancelTrip], [pauseTrip], [resumeTrip]): the
    driver's status follows the trip: starting a PENDING trip sets the driver
    ON_TRIP, cancelling a trip that is not final sets the driver ONLINE (with
    no fee from PENDING and the fee of 50 otherwise), and pausing or resuming
    touch neither Redis nor the rides. *)
Theorem trip_driver_status (tripId : uuid) (tw : TripWorld) (r : TripRow)
    (rest : list TripRow) (d : uuid) :
  wf_trips (trips tw) →
  select_trip tripId (trips tw) = r :: rest →
  trip_driver_id r = Some d →
  (∀ startLat startLng,
     trip_status r = TripStatus.PENDING →
     ∃ tw', startTrip tripId startLat startLng tw
            = (Ok (Started tripId (clock (world tw)) startLat startLng), tw')
       ∧ select_trip tripId (trips tw')
         = [set_started (clock (world tw)) startLat startLng r]
       ∧ meta_status (DriverLocation.hgetall_meta (redis (world tw')) d)
         = Some ON_TRIP)
  ∧ (∀ cancelledBy reason,
       TripStatus.final (trip_status r) = false →
       ∃ tw', cancelTrip tripId cancelledBy reason tw
              = (Ok (Cancelled tripId
                       (if bool_decide (trip_status r = TripStatus.PENDING)
                        then 0%Q else CANCELLATION_FEE)
                       cancelledBy reason), tw')
         ∧ select_trip tripId (trips tw') = [set_cancelled r]
         ∧ meta_status (DriverLocation.hgetall_meta (redis (world tw')) d)
           = Some ONLINE)
  ∧ (∀ reason, world (snd (pauseTrip tripId reason tw)) = world tw)
  ∧ world (snd (resumeTrip tripId tw)) = world tw.
Proof.
  intros Hwf Hsel Hd. split; [|split; [|split]].
  - intros startLat startLng Hst. unfold startTrip, getTripById. tsimpl.
    rewrite Hsel. tsimpl. rewrite bool_decide_false by (rewrite Hst; auto).
    tsimpl. rewrite lift_eq. tsimpl.
    match goal with
    | |- context [updateTripDriver ?d ?s ?tw0] =>
        destruct (updateTripDriver_eq d s tw0)
          as (w' & -> & _ & _ & _ & _ & _ & Hmeta)
    end.
    tsimpl. eexists. split; [reflexivity|]. tsimpl.
    split; [apply (select_trip_update _ _ _ _ _ Hwf Hsel); reflexivity|].
    rewrite Hd in Hmeta. eapply status_after; [exact Hmeta|reflexivity].
  - intros cancelledBy reason Hfin. unfold cancelTrip, getTripById. tsimpl.
    rewrite Hsel. tsimpl.
    assert (Hguard : bool_decide (trip_status r = TripStatus.COMPLETED)
                     || bool_decide (trip_status r = TripStatus.CANCELLED) = false).
    { destruct (trip_status r); try discriminate; reflexivity. }
    rewrite Hguard. tsimpl.
    match goal with
    | |- context [updateTripDriver ?d ?s ?tw0] =>
        destruct (updateTripDriver_eq d s tw0)
          as (w' & -> & _ & _ & _ & _ & _ & Hmeta)
    end.
    tsimpl. eexists. split.
    + f_equal. f_equal. destruct (trip_status r); try discriminate; reflexivity.
    + tsimpl. split; [apply (select_trip_update _ _ _ _ _ Hwf Hsel); reflexivity|].
      rewrite Hd in Hmeta. eapply status_after; [exact Hmeta|reflexivity].
  - intros reason. unfold pauseTrip, getTripById. tsimpl. rewrite Hsel. tsimpl.
    case_bool_decide; tsimpl; [reflexivity|]. rewrite lift_eq. tsimpl. reflexivity.
  - unfold resumeTrip. tsimpl. rewrite Hsel. tsimpl.
    case_bool_decide; tsimpl; [reflexivity|]. rewrite lift_eq. tsimpl. reflexivity.
Qed.

(** X24 ([pauseTrip], [resumeTrip]): a STARTED trip that is paused and
    resumed [ms] milliseconds later has its total pause duration increased by
    the whole seconds elapsed, [floor (ms / 1000)], which is what
    [resumeTrip] answers; the total never decreases. *)
Theorem pause_resume_accounting (tripId : uuid) (reason : option string)
    (ms : Z) (tw : TripWorld) (r : TripRow) (rest : list TripRow) :
  wf_trips (trips tw) →
  select_trip tripId (trips tw) = r :: rest →
  trip_status r = TripStatus.STARTED →
  let now := clock (world tw) in
  let total := total_pause_duration r + Z.max 0 ms `div` 1000 in
  let tw1 := snd (pauseTrip tripId reason tw) in
  let tw2 := exec_trip (Core (Tick ms)) tw1 in
  fst (pauseTrip tripId reason tw) = Ok (Paused tripId now)
  ∧ select_trip tripId (trips tw1) = [set_paused now r]
  ∧ fst (resumeTrip tripId tw2) = Ok (Resumed tripId total)
  ∧ select_trip tripId (trips (snd (resumeTrip tripId tw2)))
    = [set_resumed total (set_paused now r)]
  ∧ total_pause_duration r ≤ total.
Proof.
  intros Hwf Hsel Hst now total tw1 tw2.
  assert (Hp : pauseTrip tripId reason tw
               = (Ok (Paused tripId now),
                  {| world := world tw;
                     trips := (λ x, if bool_decide (trip_id x = tripId)
                                    then set_paused now x else x) <$> trips tw;
                     trip_log := trip_log tw ++ [TRIP_PAUSED tripId now reason] |})).
  { unfold pauseTrip, getTripById. tsimpl. rewrite Hsel. tsimpl.
    rewrite bool_decide_false by (rewrite Hst; auto). tsimpl.
    rewrite lift_eq. tsimpl. reflexivity. }
  assert (Hsel1 : select_trip tripId (trips tw1) = [set_paused now r]).
  { unfold tw1. rewrite Hp. tsimpl.
    apply (select_trip_update _ _ _ _ _ Hwf Hsel). reflexivity. }
  split; [rewrite Hp; reflexivity|]. split; [exact Hsel1|].
  assert (Hwf1 : wf_trips (trips tw1)) by (apply pauseTrip_table, Hwf).
  assert (Hsel2 : select_trip tripId (trips tw2) = [set_paused now r])
    by exact Hsel1.
  assert (Hclock : clock (world tw2) = now + Z.max 0 ms).
  { unfold tw2, tw1. rewrite Hp. reflexivity. }
  assert (Hr : resumeTrip tripId tw2
               = (Ok (Resumed tripId total),
                  {| world := world tw2;
                     trips := (λ x, if bool_decide (trip_id x = tripId)
                                    then set_resumed total x else x) <$> trips tw2;
                     trip_log := trip_log tw2 ++ [TRIP_RESUMED tripId total] |})).
  { unfold resumeTrip. tsimpl. rewrite Hsel2. tsimpl.
    cbn [trip_status set_paused pause_time total_pause_duration].
    rewrite bool_decide_false by auto. tsimpl. rewrite lift_eq. tsimpl.
    rewrite Hclock. replace (now + Z.max 0 ms - now)%Z with (Z.max 0 ms) by lia.
    reflexivity. }
  rewrite Hr. tsimpl. split; [reflexivity|].
  split.
  - apply (select_trip_update _ _ _ _ _ Hwf1 Hsel2). reflexivity.
  - unfold total. assert (0 ≤ Z.max 0 ms `div` 1000) by (apply Z.div_pos; lia). lia.
Qed.
End TripLifecycleFacts.

(** ** The trip scenario *)
(** The trips created from an empty table satisfy the table's constraints. *)
Lemma run_from_no_trips_wf (ops : list Trip.TripOp) (w : World) :
  TripSpec.wf_trips (Trip.trips (Trip.run_trips ops (Trip.no_trips w))).
Proof.
  apply run_trips_wf. split; constructor.
Qed.

(** The tables of the trip scenario. *)
Lemma started_wf : TripSpec.wf_trips (Trip.trips TripScenario.started).
Proof.
  unfold TripScenario.started. apply run_from_no_trips_wf.
Qed.

Lemma created_wf : TripSpec.wf_trips (Trip.trips TripScenario.created).
Proof.
  unfold TripScenario.created. apply run_from_no_trips_wf.
Qed.

(** X19, witness: the trip of the scenario is ended, then cancelled. *)
Lemma trip_state_machine_witness :
  TripSpec.wf_trips
    (Trip.trips (Trip.run_trips
                   [Trip.EndTrip TripScenario.trip (1298 # 100) (7761 # 100) 5 15;
                    Trip.CancelTrip TripScenario.trip RIDER None]
                   TripScenario.started)).
Proof.
  exact (proj1 (trip_state_machine _ TripScenario.started started_wf)).
Defined.


(** X23, witness: the created trip of the scenario is started; its driver
    [D1] is ON_TRIP. *)
Lemma trip_driver_status_witness :
  ∃ tw', Trip.startTrip TripScenario.trip 13 77 TripScenario.created
         = (Ok (Trip.Started TripScenario.trip
                  (clock (Trip.world TripScenario.created)) 13 77), tw')
    ∧ meta_status (DriverLocation.hgetall_meta (redis (Trip.world tw')) Scenario.D1)
      = Some ON_TRIP.
Proof.
  destruct (Trip.select_trip TripScenario.trip (Trip.trips TripScenario.created))
    as [|r rest] eqn:Hsel; [vm_compute in Hsel; discriminate|].
  assert (Hr : Trip.trip_driver_id r = Some Scenario.D1
               ∧ Trip.trip_status r = TripStatus.PENDING).
  { assert (H := Hsel). vm_compute in H. injection H as Hr _.
    rewrite <- Hr. split; reflexivity. }
  destruct Hr as [Hd Hst].
  destruct (proj1 (trip_driver_status TripScenario.trip TripScenario.created r rest
                     Scenario.D1 created_wf Hsel Hd) 13%Q 77%Q Hst)
    as (tw' & Heq & _ & Hon).
  exists tw'. split; assumption.
Defined.

(** X24, witness: the started trip of the scenario is paused for 90.5 s. *)
Lemma pause_resume_accounting_witness :
  fst (Trip.resumeTrip TripScenario.trip
         (Trip.exec_trip (Trip.Core (Tick 90500))
            (snd (Trip.pauseTrip TripScenario.trip None TripScenario.started))))
  = Ok (Trip.Resumed TripScenario.trip 90).
Proof.
  destruct (Trip.select_trip TripScenario.trip (Trip.trips TripScenario.started))
    as [|r rest] eqn:Hsel; [vm_compute in Hsel; discriminate|].
  assert (Hr : Trip.trip_status r = TripStatus.STARTED
               ∧ Trip.total_pause_duration r = 0).
  { assert (H := Hsel). vm_compute in H. injection H as Hr _.
    rewrite <- Hr. split; reflexivity. }
  destruct Hr as [Hst Hzero].
  destruct (pause_resume_accounting TripScenario.trip None 90500
              TripScenario.started r rest started_wf Hsel Hst) as (_ & _ & Hres & _).
  refine (eq_trans Hres _). f_equal. f_equal.
  refine (eq_trans (f_equal (λ z, z + Z.max 0 90500 `div` 1000) Hzero) _).
  reflexivity.
Defined.

(** ** The rate limiter *)
Section RateLimitFacts.
Import RateLimiter RateSpec.

Lemma filter_length_mono {A} (P Q : A → Prop) `{∀ x, Decision (P x)}
    `{∀ x, Decision (Q x)} (l : list A) :
  (∀ x, x ∈ l → P x → Q x) →
  (length (filter P l) ≤ length (filter Q l))%nat.
Proof.
  induction l as [|x l IH]; intros Himp; [constructor|].
  rewrite !filter_cons.
  assert (IH' : (length (filter P l) ≤ length (filter Q l))%nat).
  { apply IH. intros y Hy. apply Himp. right. exact Hy. }
  destruct (decide (P x)) as [Hp|Hp]; destruct (decide (Q x)) as [Hq|Hq];
    cbn; try lia.
  exfalso. apply Hq, Himp; [left|exact Hp].
Qed.

Lemma filter_same_on {A} (P Q : A → Prop) `{∀ x, Decision (P x)}
    `{∀ x, Decision (Q x)} (l : list A) :
  (∀ x, x ∈ l → P x ↔ Q x) → filter P l = filter Q l.
Proof.
  induction l as [|x l IH]; intros Hiff; [reflexivity|].
  rewrite !filter_cons.
  assert (IH' : filter P l = filter Q l).
  { apply IH. intros y Hy. apply Hiff. right. exact Hy. }
  assert (Hx : P x ↔ Q x) by (apply Hiff; left).
  destruct (decide (P x)) as [Hp|Hp]; destruct (decide (Q x)) as [Hq|Hq];
    try (exfalso; tauto); rewrite IH'; reflexivity.
Qed.

Lemma filter_all {A} (P : A → Prop) `{∀ x, Decision (P x)} (l : list A) :
  Forall P l → filter P l = l.
Proof.
  induction 1 as [|x l Hx _ IH]; [reflexivity|].
  rewrite filter_cons_True by exact Hx. f_equal. exact IH.
Qed.

Lemma lookup_live_store (k key : string) (z : option ZSet) (s : Store) :
  lookup_live k (store key z s)
  = if bool_decide (k = key) then z ≫= unexpired (now s) else lookup_live k s.
Proof.
  unfold lookup_live, store. cbn. case_bool_decide as Hk.
  - subst k. destruct z as [z|]; [rewrite lookup_insert_eq|rewrite lookup_delete_eq];
      reflexivity.
  - destruct z as [z|]; [rewrite lookup_insert_ne by congruence
                        |rewrite lookup_delete_ne by congruence]; reflexivity.
Qed.

Lemma unexpired_Some (t : Z) (z z' : ZSet) :
  unexpired t z = Some z' →
  z' = z ∧ ∀ e, expireAt z = Some e → t < e.
Proof.
  unfold unexpired. destruct (expireAt z) as [e|] eqn:He.
  - case_bool_decide; [discriminate|]. intros [= <-]. split; [reflexivity|].
    intros e' [= <-]. lia.
  - intros [= <-]. split; [reflexivity|]. intros e' [=].
Qed.

Lemma lookup_live_unexpired (key : string) (s : Store) (z : ZSet) :
  lookup_live key s = Some z → unexpired (now s) z = Some z.
Proof.
  unfold lookup_live. destruct (zsets s !! key) as [z0|]; [|discriminate].
  cbn. intros Hz. destruct (unexpired_Some _ _ _ Hz) as [-> _]. exact Hz.
Qed.

(** What [ZREMRANGEBYSCORE] leaves of each key. *)
Lemma zremrangebyscore_lookup (k key : string) (lo hi : Z) (s : Store) :
  now (zremrangebyscore key lo hi s) = now s
  ∧ live (zremrangebyscore key lo hi s) k
    = (if bool_decide (k = key)
       then filter (λ e, ¬ (lo ≤ e.2 ≤ hi)) (live s key) else live s k)
  ∧ (∀ z', lookup_live k (zremrangebyscore key lo hi s) = Some z' →
       ∃ z, lookup_live k s = Some z ∧ expireAt z' = expireAt z
            ∧ entries z' ⊆ entries z).
Proof.
  unfold zremrangebyscore, live.
  destruct (lookup_live key s) as [z|] eqn:Hz.
  - destruct (filter _ (entries z)) as [|x rest] eqn:Hf.
    + split; [reflexivity|]. rewrite lookup_live_store. cbn.
      case_bool_decide as Hk; [subst k|].
      * split; [reflexivity|]. intros z' [=].
      * split; [reflexivity|]. intros z' Hz'. exists z'. auto.
    + split; [reflexivity|]. rewrite lookup_live_store. cbn.
      case_bool_decide as Hk; [subst k|].
      * assert (Hu : unexpired (now s)
                       {| entries := x :: rest; expireAt := expireAt z |}
                     = Some {| entries := x :: rest; expireAt := expireAt z |}).
        { pose proof (lookup_live_unexpired _ _ _ Hz) as Hu.
          unfold unexpired in *. cbn.
          destruct (expireAt z); [|reflexivity].
          case_bool_decide; [discriminate|reflexivity]. }
        rewrite Hu. split; [reflexivity|]. intros z' [= <-]. exists z.
        split; [exact Hz|]. split; [reflexivity|]. cbn. rewrite <- Hf.
        intros y Hy. apply list_elem_of_filter in Hy as [_ Hy]. exact Hy.
      * split; [reflexivity|]. intros z' Hz'. exists z'. auto.
  - split; [reflexivity|]. case_bool_decide as Hk; [subst k|].
    + rewrite Hz. split; [reflexivity|]. intros z' [=].
    + split; [reflexivity|]. intros z' Hz'. exists z'. auto.
Qed.

Lemma zcard_live (key : string) (s : Store) :
  zcard key s = Z.of_nat (length (live s key)).
Proof.
  unfold zcard, live. destruct (lookup_live key s); reflexivity.
Qed.

(** [ZADD] followed by [EXPIRE] with a positive timeout. *)
Lemma zadd_expire_lookup (k key member : string) (score seconds : Z) (s : Store) :
  0 < seconds →
  now (expire key seconds (zadd key score member s)) = now s
  ∧ lookup_live k (expire key seconds (zadd key score member s))
    = if bool_decide (k = key)
      then Some {| entries := filter (λ e, e.1 ≠ member) (live s key)
                              ++ [(member, score)];
                   expireAt := Some (now s + seconds * 1000) |}
      else lookup_live k s.
Proof.
  intros Hpos.
  set (z := default {| entries := []; expireAt := None |} (lookup_live key s)).
  set (z1 := {| entries := filter (λ e, e.1 ≠ member) (entries z)
                           ++ [(member, score)];
                expireAt := expireAt z |}).
  assert (Hz1 : unexpired (now s) z1 = Some z1).
  { unfold unexpired, z1, z. cbn.
    destruct (lookup_live key s) as [z0|] eqn:Hz0; [|reflexivity]. cbn.
    pose proof (lookup_live_unexpired _ _ _ Hz0) as Hu. unfold unexpired in Hu.
    destruct (expireAt z0); [|reflexivity].
    case_bool_decide; [discriminate|reflexivity]. }
  assert (Hlive : lookup_live key (zadd key score member s) = Some z1).
  { unfold zadd. fold z. fold z1. rewrite lookup_live_store.
    rewrite bool_decide_true by reflexivity. exact Hz1. }
  unfold expire. rewrite Hlive.
  rewrite bool_decide_false by lia.
  split; [reflexivity|]. rewrite lookup_live_store.
  case_bool_decide as Hk.
  - cbn. unfold unexpired. cbn.
    change (now (zadd key score member s)) with (now s).
    rewrite bool_decide_false by lia. unfold z1, z, live. cbn.
    destruct (lookup_live key s); reflexivity.
  - unfold zadd. fold z. fold z1. rewrite lookup_live_store.
    rewrite bool_decide_false by exact Hk. reflexivity.
Qed.

Lemma ceil_seconds_covers (ms : Z) : ms ≤ ceil_seconds ms * 1000.
Proof.
  unfold ceil_seconds. pose proof (Z.div_mod (- ms) 1000 ltac:(lia)) as Hd.
  pose proof (Z.mod_pos_bound (- ms) 1000 ltac:(lia)). lia.
Qed.

Lemma ceil_seconds_pos (ms : Z) : 0 < ms → 0 < ceil_seconds ms.
Proof.
  intros Hms. pose proof (ceil_seconds_covers ms). lia.
Qed.

Lemma lookup_live_wait (key : string) (ms : Z) (s : Store) (z : ZSet) :
  lookup_live key (wait ms s) = Some z → lookup_live key s = Some z.
Proof.
  unfold lookup_live, wait. cbn.
  destruct (zsets s !! key) as [z0|]; [|discriminate]. cbn.
  unfold unexpired. destruct (expireAt z0); [|auto].
  repeat case_bool_decide; try discriminate; auto; lia.
Qed.

Lemma live_wait (key : string) (ms : Z) (s : Store) :
  live (wait ms s) key = live s key
  ∨ (live (wait ms s) key = []
     ∧ ∃ z e, lookup_live key s = Some z ∧ expireAt z = Some e
              ∧ e ≤ now s + Z.max 0 ms).
Proof.
  unfold live, lookup_live, wait. cbn.
  destruct (zsets s !! key) as [z0|]; [|left; reflexivity]. cbn.
  unfold unexpired. destruct (expireAt z0) as [e|] eqn:He; [|left; reflexivity].
  repeat case_bool_decide; try (left; reflexivity); try lia.
  right. split; [reflexivity|]. exists z0, e. auto.
Qed.

(** Time passing keeps the invariant. *)
Lemma inv_wait (o : Options) (ms : Z) (s : Store) (log : list Admission) :
  inv o s log → inv o (wait ms s) log.
Proof.
  intros (Hnow & Hlog & Hsets & Hcount & Hbound).
  assert (Hle : now s ≤ now (wait ms s)) by (cbn; lia).
  split; [lia|]. split.
  { eapply Forall_impl; [exact Hlog|]. cbn. intros a Ha. lia. }
  split.
  { intros key z Hz. apply lookup_live_wait in Hz.
    destruct (Hsets key z Hz) as [Hent Hexp]. split; [|exact Hexp].
    eapply Forall_impl; [exact Hent|]. cbn. intros e [? ?]. split; [lia|auto]. }
  split; [|exact Hbound].
  intros key c Hc. rewrite <- (Hcount key c) by lia.
  destruct (live_wait key ms s) as [Heq|(Heq & z & e & Hz & He & Hexp)];
    rewrite Heq; [reflexivity|].
  unfold live. rewrite Hz. symmetry.
  destruct (Hsets key z Hz) as [_ Hall]. specialize (Hall e He).
  rewrite filter_none; [reflexivity|].
  eapply Forall_impl; [exact Hall|]. cbn in Hc |- *. intros x Hx. lia.
Qed.

(** The middleware, with the count read off the cleaned sorted set. *)
Lemma rateLimiter_eq (o : Options) (req : Req) (random : string) (s : Store) :
  rateLimiter o req random s
  = let key := "ratelimit:" +:+ keyGenerator o req in
    let s1 := zremrangebyscore key 0 (now s - windowMs o) s in
    let count := Z.of_nat (length (live s1 key)) in
    if bool_decide (max o ≤ count)
    then (TooMany (ceil_seconds (windowMs o)) (max o) 0 (message o), s1)
    else (Next (max o) (max o - count - 1),
          expire key (ceil_seconds (windowMs o))
            (zadd key (now s) (member_of (now s) random) s1)).
Proof.
  unfold rateLimiter. cbv zeta. rewrite zcard_live. reflexivity.
Qed.

(** Dropping the members that left the window: what is left are the
    admissions of the window. *)
Lemma inv_clean (o : Options) (key : string) (s : Store) (log : list Admission) :
  inv o s log →
  let s1 := zremrangebyscore key 0 (now s - windowMs o) s in
  now s1 = now s
  ∧ (∀ k z, lookup_live k s1 = Some z →
       Forall (λ e, 0 ≤ e.2 ≤ now s ∧ e.1 ∈ adm_member <$> log) (entries z)
       ∧ ∀ e, expireAt z = Some e →
              Forall (λ x, x.2 + windowMs o ≤ e) (entries z))
  ∧ (∀ k c, now s - windowMs o ≤ c →
       length (filter (λ e, c < e.2) (live s1 k))
       = length (filter (λ a, adm_key a = k ∧ c < adm_at a) log))
  ∧ length (live s1 key)
    = length (filter (λ a, adm_key a = key ∧ now s - windowMs o < adm_at a) log).
Proof.
  intros (Hnow & Hlog & Hsets & Hcount & Hbound) s1.
  assert (Hlive1 : ∀ k, live s1 k
            = if bool_decide (k = key)
              then filter (λ e, now s - windowMs o < e.2) (live s key)
              else live s k).
  { intros k.
    destruct (zremrangebyscore_lookup k key 0 (now s - windowMs o) s)
      as (_ & Hl & _).
    fold s1 in Hl. rewrite Hl. case_bool_decide; [|reflexivity].
    apply filter_same_on. intros x Hx.
    assert (0 ≤ x.2); [|lia].
    unfold live in Hx. destruct (lookup_live key s) as [z|] eqn:Hz;
      [|inversion Hx].
    destruct (Hsets key z Hz) as [Hent _]. rewrite Forall_forall in Hent.
    apply (Hent x Hx). }
  split; [apply (zremrangebyscore_lookup key key 0 (now s - windowMs o) s)|].
  split.
  { intros k z' Hz'.
    destruct (zremrangebyscore_lookup k key 0 (now s - windowMs o) s)
      as (_ & _ & Hl).
    destruct (Hl z' Hz') as (z & Hz & Hexp & Hsub).
    destruct (Hsets k z Hz) as [Hent Hall]. split.
    - rewrite Forall_forall in Hent |- *. intros x Hx. apply Hent, Hsub, Hx.
    - intros e He. rewrite Hexp in He. specialize (Hall e He).
      rewrite Forall_forall in Hall |- *. intros x Hx. apply Hall, Hsub, Hx. }
  split.
  { intros k c Hc. rewrite <- (Hcount k c Hc), Hlive1.
    case_bool_decide as Hk; [subst k|reflexivity].
    rewrite list_filter_filter. f_equal. apply filter_same_on.
    intros x _. lia. }
  rewrite <- (Hcount key (now s - windowMs o)) by lia.
  rewrite Hlive1, bool_decide_true by reflexivity. reflexivity.
Qed.

(** A request keeps the invariant, provided its member is new. *)
Lemma inv_hit (o : Options) (req : Req) (random : string) (s : Store)
    (log : list Admission) :
  0 < windowMs o →
  inv o s log →
  member_of (now s) random ∉ adm_member <$> log →
  inv o (rateLimiter o req random s).2 (log ++ admission o req random s).
Proof.
  intros Hw Hinv Hfresh.
  unfold admission. rewrite rateLimiter_eq. cbv zeta.
  set (key := "ratelimit:" +:+ keyGenerator o req).
  destruct (inv_clean o key s log Hinv) as (Hnow1 & Hsets1 & Hcount1 & Hcnt).
  destruct Hinv as (Hnow & Hlog & Hsets & Hcount & Hbound).
  set (s1 := zremrangebyscore key 0 (now s - windowMs o) s) in *.
  case_bool_decide as Hmax; cbn [fst snd].
  - rewrite app_nil_r. unfold inv. rewrite Hnow1. auto.
  - set (m := member_of (now s) random) in *.
    set (a := {| adm_key := key; adm_at := now s; adm_member := m |}).
    assert (Hsec : 0 < ceil_seconds (windowMs o)) by (apply ceil_seconds_pos, Hw).
    pose proof (ceil_seconds_covers (windowMs o)) as Hcov.
    assert (Hent1 : Forall (λ e, 0 ≤ e.2 ≤ now s ∧ e.1 ∈ adm_member <$> log)
                      (live s1 key)).
    { unfold live. destruct (lookup_live key s1) as [z|] eqn:Hz; [|constructor].
      apply (Hsets1 key z Hz). }
    assert (Hkeep : filter (λ e : string * Z, e.1 ≠ m) (live s1 key)
                    = live s1 key).
    { apply filter_all. eapply Forall_impl; [exact Hent1|]. cbn.
      intros e [_ Hin] Heq. rewrite Heq in Hin. exact (Hfresh Hin). }
    set (s3 := expire key _ _).
    assert (Hs3 : now s3 = now s
                  ∧ ∀ k, lookup_live k s3
                         = if bool_decide (k = key)
                           then Some {| entries := live s1 key ++ [(m, now s)];
                                        expireAt :=
                                          Some (now s
                                                + ceil_seconds (windowMs o) * 1000) |}
                           else lookup_live k s1).
    { split.
      - unfold s3. rewrite (proj1 (zadd_expire_lookup key key m (now s) _ s1 Hsec)).
        exact Hnow1.
      - intros k. unfold s3.
        rewrite (proj2 (zadd_expire_lookup k key m (now s) _ s1 Hsec)).
        rewrite Hkeep, Hnow1. reflexivity. }
    destruct Hs3 as [Hnow3 Hlook3].
    split; [lia|]. split.
    { rewrite Hnow3. apply Forall_app. split; [exact Hlog|].
      constructor; [cbn; lia|constructor]. }
    split.
    { intros k z Hz. rewrite Hlook3 in Hz. rewrite Hnow3.
      case_bool_decide as Hk.
      - injection Hz as <-. cbn. split.
        + apply Forall_app. split.
          * eapply Forall_impl; [exact Hent1|]. cbn. intros e [? Hin].
            split; [lia|]. rewrite fmap_app. apply elem_of_app. left. exact Hin.
          * constructor; [|constructor]. cbn. split; [lia|].
            rewrite fmap_app. apply elem_of_app. right. cbn. left.
        + intros e [= <-]. apply Forall_app. split.
          * eapply Forall_impl; [exact Hent1|]. cbn. intros e [? _]. lia.
          * constructor; [cbn; lia|constructor].
      - destruct (Hsets1 k z Hz) as [Hent Hall]. split; [|exact Hall].
        eapply Forall_impl; [exact Hent|]. cbn. intros e [? Hin].
        split; [lia|]. rewrite fmap_app. apply elem_of_app. left. exact Hin. }
    split.
    { intros k c Hc. rewrite Hnow3 in Hc. rewrite filter_app, length_app.
      rewrite <- (Hcount1 k c Hc). unfold live at 1. rewrite Hlook3.
      case_bool_decide as Hk.
      - subst k. cbn [entries]. rewrite filter_app, length_app. f_equal.
        rewrite !filter_cons, !filter_nil. cbn.
        destruct (decide (c < now s)); destruct (decide (key = key ∧ c < now s));
          try reflexivity; exfalso; tauto.
      - fold (live s1 k). rewrite filter_cons, filter_nil. cbn.
        destruct (decide (key = k ∧ c < now s)) as [[? _]|]; [congruence|].
        cbn. lia. }
    intros k t. unfold in_window. rewrite filter_app, length_app.
    rewrite filter_cons, filter_nil. cbn [adm_key adm_at a].
    destruct (decide (key = k ∧ t - windowMs o < now s ≤ t)) as [[<- Ht]|_].
    + cbn [length].
      assert (Hle : (length (filter (λ a0, adm_key a0 = key
                                           ∧ (t - windowMs o < adm_at a0 ≤ t)%Z)
                                  log)
                     ≤ length (live s1 key))%nat).
      { rewrite Hcnt. apply filter_length_mono. intros x Hx [? ?].
        split; [assumption|lia]. }
      lia.
    + cbn [length]. specialize (Hbound k t). unfold in_window in Hbound. lia.
Qed.

Lemma rateLimiter_now (o : Options) (req : Req) (random : string) (s : Store) :
  now (rateLimiter o req random s).2 = now s.
Proof.
  rewrite rateLimiter_eq. cbv zeta.
  set (key := "ratelimit:" +:+ keyGenerator o req).
  assert (Hnow1 : now (zremrangebyscore key 0 (now s - windowMs o) s) = now s)
    by apply (zremrangebyscore_lookup key key 0 (now s - windowMs o) s).
  case_bool_decide; cbn [snd]; [exact Hnow1|].
  transitivity (now (zadd key (now s) (member_of (now s) random)
                       (zremrangebyscore key 0 (now s - windowMs o) s)));
    [|exact Hnow1].
  unfold expire. destruct (lookup_live key (zadd _ _ _ _)); reflexivity.
Qed.

Lemma inv_empty (o : Options) : inv o empty_store [].
Proof.
  split; [reflexivity|]. split; [constructor|]. split.
  - intros key z Hz. discriminate Hz.
  - split; [intros key c _; reflexivity|]. intros key t. cbn. lia.
Qed.

(** The invariant holds along the traffic, provided no two requests generate
    the same member. *)
Lemma serve_inv (o : Options) (ops : list Traffic) :
  0 < windowMs o →
  ∀ s log,
    inv o s log →
    NoDup ((adm_member <$> log) ++ generated ops (now s)) →
    inv o (serve o ops s) (log ++ admissions o ops s).
Proof.
  intros Hw. induction ops as [|[ms|req random] ops IH]; intros s log Hinv Hnd; cbn.
  - rewrite app_nil_r. exact Hinv.
  - apply IH; [apply inv_wait, Hinv|exact Hnd].
  - cbn in Hnd. apply NoDup_app in Hnd as (Hlog & Hdisj & Hgen).
    apply NoDup_cons in Hgen as [Hm Hgen].
    assert (Hfresh : member_of (now s) random ∉ adm_member <$> log).
    { intros Hin. apply (Hdisj _ Hin). left. }
    rewrite app_assoc. apply IH; [apply inv_hit; assumption|].
    rewrite rateLimiter_now, fmap_app. unfold admission.
    destruct (rateLimiter o req random s).1.
    + cbn. rewrite app_nil_r. apply NoDup_app. split; [exact Hlog|].
      split; [|exact Hgen]. intros x Hx Hin. apply (Hdisj x Hx). right. exact Hin.
    + cbn. rewrite <- app_assoc. cbn. apply NoDup_app. split; [exact Hlog|].
      split; [exact Hdisj|]. apply NoDup_cons. split; assumption.
Qed.

(** X25 ([rateLimiter]): the sliding window.  In a deployment that starts
    empty, as long as no two requests generate the same member
    (the string made of [Date.now()] and [Math.random()]), the requests admitted under one key in any
    window of [windowMs] milliseconds are at most [max]. *)
Theorem rateLimiter_sliding_window (o : Options) (ops : list Traffic)
    (key : string) (t : Z) :
  NoDup (generated ops 0) →
  Z.of_nat (length (in_window key (windowMs o) t
                      (admissions o ops empty_store)))
  ≤ Z.max 0 (max o).
Proof.
  intros Hnd. destruct (decide (0 < windowMs o)) as [Hw|Hw].
  - apply (serve_inv o ops Hw empty_store [] (inv_empty o) Hnd).
  - unfold in_window. rewrite filter_none; [cbn; lia|].
    apply Forall_forall. intros a _. lia.
Qed.

(** X26 ([rateLimiter]): the answer of the limiter is decided by the number
    of admissions under the client's key in the last [windowMs] milliseconds:
    with [max] or more of them the request is refused with 429, Retry-After
    [ceil(windowMs / 1000)] and no remaining request; otherwise it goes
    through, and X-RateLimit-Remaining is [max] minus that number minus
    one. *)
Theorem rateLimiter_counts_window (o : Options) (ops : list Traffic)
    (req : Req) (random : string) :
  0 < windowMs o →
  NoDup (generated ops 0) →
  let s := serve o ops empty_store in
  let key := "ratelimit:" +:+ keyGenerator o req in
  let count := Z.of_nat (length (in_window key (windowMs o) (now s)
                                   (admissions o ops empty_store))) in
  (rateLimiter o req random s).1
  = if bool_decide (max o ≤ count)
    then TooMany (ceil_seconds (windowMs o)) (max o) 0 (message o)
    else Next (max o) (max o - count - 1).
Proof.
  intros Hw Hnd s key count.
  pose proof (serve_inv o ops Hw empty_store [] (inv_empty o) Hnd) as Hinv.
  cbn [app] in Hinv. fold s in Hinv.
  destruct (inv_clean o key s _ Hinv) as (_ & _ & _ & Hcnt).
  destruct Hinv as (_ & Hlog & _).
  assert (Hc : Z.of_nat (length (live (zremrangebyscore key 0
                                         (now s - windowMs o) s) key))
               = count).
  { unfold count, in_window. rewrite Hcnt. do 2 f_equal.
    apply filter_same_on. intros a Ha. rewrite Forall_forall in Hlog.
    specialize (Hlog a Ha). cbn in Hlog. split; intros [? ?]; split; auto; lia. }
  rewrite rateLimiter_eq. cbv zeta. fold key. rewrite Hc.
  case_bool_decide; reflexivity.
Qed.

Lemma lookup_live_zsets (key : string) (s : Store) (z : ZSet) :
  lookup_live key s = Some z → zsets s !! key = Some z.
Proof.
  unfold lookup_live. destruct (zsets s !! key) as [z0|]; [|discriminate].
  cbn. intros Hz. destruct (unexpired_Some _ _ _ Hz) as [-> _]. reflexivity.
Qed.

Lemma store_same (key : string) (s : Store) (z : ZSet) :
  zsets s !! key = Some z → store key (Some z) s = s.
Proof.
  destruct s as [m t]. unfold store. cbn. intros Hz. f_equal.
  apply insert_id, Hz.
Qed.

(** A store in which the member of the request is already recorded, at the
    present instant: the request is answered by the count and changes
    nothing. *)
Lemma rateLimiter_recorded (o : Options) (req : Req) (random : string)
    (s : Store) (C : list (string * Z)) :
  let key := "ratelimit:" +:+ keyGenerator o req in
  let m := member_of (now s) random in
  let E := filter (λ e : string * Z, e.1 ≠ m) C ++ [(m, now s)] in
  0 < windowMs o →
  Forall (λ e : string * Z, ¬ (0 ≤ e.2 ≤ now s - windowMs o)) C →
  lookup_live key s
  = Some {| entries := E;
            expireAt := Some (now s + ceil_seconds (windowMs o) * 1000) |} →
  rateLimiter o req random s
  = (if bool_decide (max o ≤ Z.of_nat (length E))
     then TooMany (ceil_seconds (windowMs o)) (max o) 0 (message o)
     else Next (max o) (max o - Z.of_nat (length E) - 1), s).
Proof.
  intros key m E Hw HC Hlook.
  assert (HE : filter (λ e : string * Z, ¬ (0 ≤ e.2 ≤ now s - windowMs o)) E = E).
  { apply filter_all. unfold E. apply Forall_app. split.
    - rewrite Forall_forall in HC |- *. intros x Hx.
      apply list_elem_of_filter in Hx as [_ Hx]. apply (HC x Hx).
    - constructor; [cbn; lia|constructor]. }
  assert (Hs0 : zremrangebyscore key 0 (now s - windowMs o) s = s).
  { unfold zremrangebyscore. rewrite Hlook. cbn [entries expireAt]. rewrite HE.
    destruct E as [|x E'] eqn:HEq.
    - unfold E in HEq. destruct (filter _ C); discriminate HEq.
    - apply store_same, lookup_live_zsets, Hlook. }
  assert (Hm : filter (λ e : string * Z, e.1 ≠ m) E ++ [(m, now s)] = E).
  { unfold E at 1. rewrite filter_app, list_filter_filter.
    rewrite filter_cons_False by (cbn; tauto). rewrite filter_nil, app_nil_r.
    unfold E. f_equal. apply filter_same_on. intros x _. tauto. }
  assert (Hs1 : zadd key (now s) m s = s).
  { unfold zadd. rewrite Hlook. cbn [default from_option Datatypes.id entries expireAt]. rewrite Hm.
    apply store_same, lookup_live_zsets, Hlook. }
  assert (Hs2 : expire key (ceil_seconds (windowMs o)) s = s).
  { unfold expire. rewrite Hlook.
    rewrite bool_decide_false by (pose proof (ceil_seconds_pos _ Hw); lia).
    apply store_same, lookup_live_zsets, Hlook. }
  rewrite rateLimiter_eq. cbv zeta. fold key. fold m. rewrite Hs0, Hs1, Hs2.
  unfold live. rewrite Hlook. cbn [entries].
  case_bool_decide; reflexivity.
Qed.

(** X27 ([rateLimiter]): a request that is repeated at the same instant with
    the same value of [Math.random()] is not counted again.  If the request
    was admitted with at least one request remaining, the repetition is
    admitted too, and leaves the store as it is: so it can be repeated
    without end, whatever [max] is. *)
Theorem rateLimiter_replay (o : Options) (req : Req) (random : string)
    (s s1 : Store) (limit remaining : Z) :
  0 < windowMs o →
  rateLimiter o req random s = (Next limit remaining, s1) →
  1 ≤ remaining →
  ∃ remaining',
    remaining - 1 ≤ remaining'
    ∧ rateLimiter o req random s1 = (Next limit remaining', s1).
Proof.
  intros Hw Hfirst Hrem. rewrite rateLimiter_eq in Hfirst. cbv zeta in Hfirst.
  set (key := "ratelimit:" +:+ keyGenerator o req) in *.
  set (s0 := zremrangebyscore key 0 (now s - windowMs o) s) in *.
  case_bool_decide as Hmax; [discriminate|].
  injection Hfirst as <- <- <-.
  destruct (zremrangebyscore_lookup key key 0 (now s - windowMs o) s)
    as (Hnow0 & Hlive0 & _).
  fold s0 in Hnow0, Hlive0. rewrite bool_decide_true in Hlive0 by reflexivity.
  pose proof (ceil_seconds_pos _ Hw) as Hsec.
  destruct (zadd_expire_lookup key key (member_of (now s) random) (now s)
              (ceil_seconds (windowMs o)) s0 Hsec) as [Hnow1 Hlook1].
  rewrite bool_decide_true in Hlook1 by reflexivity.
  set (s1 := expire key _ _) in *.
  assert (Hnow : now s1 = now s) by congruence.
  pose proof (rateLimiter_recorded o req random s1 (live s0 key)) as Hrec.
  cbv zeta in Hrec. rewrite Hnow in Hrec. fold key in Hrec.
  rewrite Hnow0 in Hlook1.
  specialize (Hrec Hw).
  assert (HC : Forall (λ e : string * Z, ¬ (0 ≤ e.2 ≤ now s - windowMs o))
                 (live s0 key)).
  { rewrite Hlive0. apply Forall_forall. intros x Hx.
    apply list_elem_of_filter in Hx as [Hx _]. exact Hx. }
  specialize (Hrec HC Hlook1).
  pose proof (length_filter (λ e : string * Z, e.1 ≠ member_of (now s) random)
                (live s0 key)) as Hlen.
  rewrite length_app in Hrec. cbn [length] in Hrec.
  rewrite bool_decide_false in Hrec by lia.
  eexists. split; [|exact Hrec]. lia.
Qed.
End RateLimitFacts.

(** X25, witness: of the burst of the scenario, two requests are admitted in
    the first second. *)
Lemma rateLimiter_sliding_window_witness :
  Z.of_nat (length (RateLimiter.in_window "ratelimit:10.0.0.7" 1000 999
                      (RateLimiter.admissions RateScenario.two_per_second
                         RateScenario.burst RateLimiter.empty_store)))
  ≤ Z.max 0 2.
Proof.
  apply (rateLimiter_sliding_window RateScenario.two_per_second
           RateScenario.burst "ratelimit:10.0.0.7" 999).
  apply (bool_decide_unpack _). vm_compute. exact I.
Defined.

(** X26, witness: the third request of the burst is refused. *)
Lemma rateLimiter_counts_window_witness :
  (RateLimiter.rateLimiter RateScenario.two_per_second RateScenario.client "0.93"
     (RateLimiter.serve RateScenario.two_per_second
        (take 2 RateScenario.burst) RateLimiter.empty_store)).1
  = RateLimiter.TooMany 1 2 0 "Too many requests, please try again later".
Proof.
  refine (eq_trans (rateLimiter_counts_window RateScenario.two_per_second
                      (take 2 RateScenario.burst) RateScenario.client "0.93"
                      _ _) _).
  - reflexivity.
  - apply (bool_decide_unpack _). vm_compute. exact I.
  - vm_compute. reflexivity.
Defined.

(** X27, witness: the first request of the burst, sent again with the same
    random value in the same millisecond, is admitted and changes nothing. *)
Lemma rateLimiter_replay_witness :
  ∃ remaining',
    0 ≤ remaining'
    ∧ RateLimiter.rateLimiter RateScenario.two_per_second RateScenario.client
        "0.11" RateScenario.after_first
      = (RateLimiter.Next 2 remaining', RateScenario.after_first).
Proof.
  apply (rateLimiter_replay RateScenario.two_per_second RateScenario.client
           "0.11" RateLimiter.empty_store RateScenario.after_first 2 1).
  - reflexivity.
  - vm_compute. reflexivity.
  - reflexivity.
Defined.
